(** * Avalanche: a grammar-directed generator

    A shallow embedding of [avalanche.py], read with the semantics of
    Python 3.7 and later, together with the properties of its
    specification.

    Conventions of the embedding:
    - a Python exception is a value of [exn]: its class, its message and the
      place it carries (a line number, a parse position or a generation
      backtrace); code that can raise returns a [result]. Where a message
      formats a list, a set, a float or the text it could not convert,
      only its fixed text is kept;
    - a Python [str] is a [string] of 8-bit characters (the program is
      modelled on ASCII text), a [bytes] a list of bytes;
    - a Python [dict] is an association list in insertion order, a [set] of
      names a duplicate-free list in the order of first insertion;
    - a Python [float] is a binary64 number: a weight, a running total and
      a draw of [random.random] are values of the primitive type [float],
      whose operations round to nearest, ties to even, as those of CPython
      do. A numeric argument of a function call is kept as the rational
      number its binary64 value denotes;
    - the interpreter is a 64-bit CPython: a size or an index is a
      [Py_ssize_t] of 64 bits, and an allocation whose size passes the
      checks of the interpreter succeeds;
    - the module-level random source [random] is a tape of draws with a
      cursor, threaded through every function that draws from it;
    - a loop or a recursion whose end is not evident from its arguments
      takes fuel, and [OutOfFuel] is the result when it runs out;
    - what the program takes from its host and cannot be read off its
      text (the iteration order of a set, a digest, the files) is a
      parameter, [host];
    - [Unmodelled] is the result where the program leaves what this
      embedding covers: the built-in [rndflt] (the decimal
      representation of a float), float literals that are infinite, not a
      number, a negative zero or not a binary64 as they are written, and
      a draw whose error depends on the version of Python, and a tuple
      whose size is at the limit of what the interpreter allocates. *)

From Stdlib Require Import List String Ascii Bool Arith ZArith NArith QArith Lia Lqa.
From Stdlib Require Import DecimalString Qround Permutation.
From Stdlib Require Import Floats.
From Stdlib Require Uint63.
Import ListNotations.

Set Implicit Arguments.
Close Scope Q_scope.
Local Open Scope string_scope.
Local Open Scope list_scope.
Local Open Scope nat_scope.

(** ** The host: exceptions, results, strings, the random source *)

Module Py.

Inductive exn_class :=
| ParseError | IntegrityError | GenerationError
| AssertionError | TypeError | ValueError | KeyError | IndexError
| OverflowError | MemoryError | AttributeError | BinasciiError.

(** Only the first three are declared by the program
    ([GrammarException] subclasses); the others are raised by the host. *)
Definition documented (c : exn_class) : bool :=
  match c with
  | ParseError | IntegrityError | GenerationError => true
  | _ => false
  end.

(** The second argument of a [GrammarException]. *)
Inductive place :=
| Nowhere
| AtLine (line_no : nat)
| AtParse (name : option string) (line_no : nat)
| AtGen (backtrace : list string).

Record exn := Exn { cls : exn_class; msg : string; at_ : place }.

Inductive result (A : Type) :=
| Ok (a : A)
| Raise (e : exn)
| OutOfFuel
| Unmodelled (what : string).
Arguments Ok {A} a.
Arguments Raise {A} e.
Arguments OutOfFuel {A}.
Arguments Unmodelled {A} what.

Definition bind {A B} (m : result A) (f : A -> result B) : result B :=
  match m with
  | Ok a => f a
  | Raise e => Raise e
  | OutOfFuel => OutOfFuel
  | Unmodelled w => Unmodelled w
  end.

Definition raise {A} (c : exn_class) (m : string) : result A :=
  Raise (Exn c m Nowhere).

Definition raise_at {A} (c : exn_class) (m : string) (p : place) : result A :=
  Raise (Exn c m p).

Definition raises {A} (m : result A) (c : exn_class) : Prop :=
  exists e, m = Raise e /\ cls e = c.

Definition returns {A} (m : result A) : Prop := exists a, m = Ok a.

Definition fmap {A B} (f : A -> B) (m : result A) : result B :=
  bind m (fun a => Ok (f a)).

(** [str(n)] for an [int]. *)
Definition str_nat (n : nat) : string := NilZero.string_of_uint (Nat.to_uint n).
Definition str_int (z : Z) : string := NilZero.string_of_int (Z.to_int z).

(** [repr(s)] for a name that holds no quote, as messages show it between
    double quotes. *)
Definition quoted (s : string) : string :=
  String (ascii_of_nat 34) (s ++ String (ascii_of_nat 34) EmptyString).

(** The largest [Py_ssize_t], and a number of items that every version of
    the interpreter accepts for a tuple: eight bytes for each item and the
    headers of the object are well within a [Py_ssize_t]. *)
Definition SSIZE_MAX : Z := 2 ^ 63 - 1.
Definition TUPLE_MAX : Z := (SSIZE_MAX - 64) / 8.

(** A repeat bound as the parser stores it: an [int], or the string ["*"]. *)
Inductive bound := BInt (n : Z) | BStar.

(** Truth value of a bound: [0] is false, a non-empty string is true. *)
Definition truthy (k : bound) : bool :=
  match k with BInt n => negb (n =? 0)%Z | BStar => true end.

(** *** The random source

    The state of [random] is a tape of draws and a cursor; every primitive
    consumes one cell. *)
Record rng := Rng { tape : nat -> N; cursor : nat }.

Definition draw (r : rng) : N * rng :=
  (tape r (cursor r), Rng (tape r) (S (cursor r))).

(** [random.random()]: 53 random bits scaled by 2^-53, a binary64 in
    [0,1); both the conversion and the scaling are exact. *)
Definition random (r : rng) : float * rng :=
  let (c, r') := draw r in
  ((PrimFloat.of_uint63 (Uint63.of_Z (Z.of_N (c mod 2 ^ 53))) * 0x1p-53)%float, r').

(** [random.uniform(a, b)] is [a + (b - a) * random()], every operation
    rounded. *)
Definition uniform (a b : float) (r : rng) : float * rng :=
  let (u, r') := random r in ((a + (b - a) * u)%float, r').

(** [random.randint(a, b)] on integers: [a + randbelow(b - a + 1)],
    a [ValueError] on an empty range. *)
Definition randint_Z (a b : Z) (r : rng) : result (Z * rng) :=
  if (b <? a)%Z then raise ValueError "empty range for randrange()"
  else let (c, r') := draw r in
       Ok ((a + Z.of_N c mod (b - a + 1))%Z, r').

(** [random.randint(a, b)] on stored bounds is [randrange(a, b + 1)]:
    when [b] is the string ["*"], [b + 1] is a [TypeError]; when only [a]
    is, [randrange] raises a [ValueError] or a [TypeError], depending on
    the version of Python. *)
Definition randint (a b : bound) (r : rng) : result (bound * rng) :=
  match b with
  | BStar =>
      raise TypeError ("can only concatenate str (not " ++ quoted "int" ++ ") to str")
  | BInt y =>
      match a with
      | BInt x => bind (randint_Z x y r) (fun '(n, r') => Ok (BInt n, r'))
      | BStar => Unmodelled "randrange from a str"
      end
  end.

(** [random.choice(seq)]: [seq[randbelow(len(seq))]]. *)
Definition choice {A} (seq : list A) (r : rng) : result (A * rng) :=
  match seq with
  | [] => raise IndexError "Cannot choose from an empty sequence"
  | x :: _ =>
      let (c, r') := draw r in
      Ok (nth (N.to_nat (c mod N.of_nat (List.length seq))) seq x, r')
  end.

End Py.
Import Py.

Declare Scope py_scope.
Delimit Scope py_scope with py.
Notation "x <- m ;; k" := (bind m (fun x => k))
  (at level 61, m at next level, right associativity) : py_scope.
Notation "' p <- m ;; k" := (bind m (fun p => k))
  (at level 61, p pattern, m at next level, right associativity) : py_scope.
Local Open Scope py_scope.

(** ** Python string methods and the [re] engine *)

Module Str.

Definition dq : ascii := ascii_of_nat 34.
Definition nl : ascii := ascii_of_nat 10.
Definition of_char (c : ascii) : string := String c EmptyString.

(** [str.isspace] on one ASCII character, also the class [\s]. *)
Definition isspace (c : ascii) : bool :=
  let n := nat_of_ascii c in
  ((9 <=? n) && (n <=? 13)) || ((28 <=? n) && (n <=? 32)).

Definition isdigit (c : ascii) : bool :=
  let n := nat_of_ascii c in (48 <=? n) && (n <=? 57).

(** The class [\w] on ASCII. *)
Definition isword (c : ascii) : bool :=
  let n := nat_of_ascii c in
  isdigit c || ((65 <=? n) && (n <=? 90)) || ((97 <=? n) && (n <=? 122))
  || (n =? 95).

Fixpoint elem (c : ascii) (s : string) : bool :=
  match s with
  | EmptyString => false
  | String d s' => Ascii.eqb c d || elem c s'
  end.

(** [s[n:]] and [s[:n]] for [0 <= n]. *)
Fixpoint drop (n : nat) (s : string) : string :=
  match n, s with
  | S n', String _ s' => drop n' s'
  | _, _ => s
  end.

Fixpoint take (n : nat) (s : string) : string :=
  match n, s with
  | S n', String c s' => String c (take n' s')
  | _, _ => EmptyString
  end.

(** [s[:-1]]. *)
Definition chop (s : string) : string := take (String.length s - 1) s.

Fixpoint startswith (p s : string) : bool :=
  match p, s with
  | EmptyString, _ => true
  | String a p', String b s' => Ascii.eqb a b && startswith p' s'
  | _, _ => false
  end.

(** [s.find(p)], [None] for -1. *)
Fixpoint find (p s : string) : option nat :=
  if startswith p s then Some 0
  else match s with
       | EmptyString => None
       | String _ s' => option_map S (find p s')
       end.

(** [p in s]. *)
Definition contains (p s : string) : bool :=
  match find p s with Some _ => true | None => false end.

(** [s.split(".", 1)]: the parts around the first dot, if there is one. *)
Definition split_dot (s : string) : option (string * string) :=
  match find "." s with
  | Some i => Some (take i s, drop (S i) s)
  | None => None
  end.

Fixpoint lstrip (s : string) : string :=
  match s with
  | String c s' => if isspace c then lstrip s' else s
  | EmptyString => s
  end.

Fixpoint rev_acc (s acc : string) : string :=
  match s with
  | EmptyString => acc
  | String c s' => rev_acc s' (String c acc)
  end.
Definition rev (s : string) : string := rev_acc s EmptyString.

Definition rstrip (s : string) : string := rev (lstrip (rev s)).
Definition strip (s : string) : string := rstrip (lstrip s).

(** The whitespace [int] and [float] skip around a number: that of C,
    which leaves out the four separators from 28 to 31. *)
Definition isspace_c (c : ascii) : bool :=
  let n := nat_of_ascii c in ((9 <=? n) && (n <=? 13)) || (n =? 32).

Fixpoint lstrip_c (s : string) : string :=
  match s with
  | String c s' => if isspace_c c then lstrip_c s' else s
  | EmptyString => s
  end.

Definition strip_c (s : string) : string := rev (lstrip_c (rev (lstrip_c s))).

Definition join (l : list string) : string := String.concat "" l.

Definition chars (s : string) : list ascii := list_ascii_of_string s.

(** The lines of a text as iterating a [StringIO] yields them: each one
    keeps its newline, the last one may lack it. *)
Fixpoint lines_acc (s : string) (cur : string) : list string :=
  match s with
  | EmptyString => match cur with EmptyString => [] | _ => [rev cur] end
  | String c s' =>
      if Ascii.eqb c nl then rev (String c cur) :: lines_acc s' EmptyString
      else lines_acc s' (String c cur)
  end.
Definition lines (s : string) : list string := lines_acc s EmptyString.

(** [int(s)] on a string of ASCII decimal digits. *)
Fixpoint digits_acc (s : string) (acc : N) : option N :=
  match s with
  | EmptyString => Some acc
  | String c s' =>
      if isdigit c
      then digits_acc s' (acc * 10 + N.of_nat (nat_of_ascii c - 48))
      else None
  end.
Definition digits (s : string) : option N :=
  match s with EmptyString => None | _ => digits_acc s 0 end.

(** The digits of [int(s)], which may be grouped by single underscores. *)
Fixpoint grouped_digits (s : string) (after_digit : bool) (acc : N) : option N :=
  match s with
  | EmptyString => if after_digit then Some acc else None
  | String c s' =>
      if isdigit c
      then grouped_digits s' true (acc * 10 + N.of_nat (nat_of_ascii c - 48))
      else if Ascii.eqb c "_" && after_digit
           then match s' with
                | String d _ => if isdigit d then grouped_digits s' false acc else None
                | EmptyString => None
                end
           else None
  end.

(** [int(s)] for a string: surrounding whitespace, a sign, decimal
    digits; [None] for a [ValueError]. *)
Definition parse_int (s : string) : option Z :=
  match strip_c s with
  | String "-" s' => option_map (fun n => (- Z.of_N n)%Z) (grouped_digits s' false 0)
  | String "+" s' => option_map Z.of_N (grouped_digits s' false 0)
  | s' => option_map Z.of_N (grouped_digits s' false 0)
  end.

Definition lower_char (c : ascii) : ascii :=
  let n := nat_of_ascii c in
  if (65 <=? n) && (n <=? 90) then ascii_of_nat (n + 32) else c.

Fixpoint lower (s : string) : string :=
  match s with
  | EmptyString => EmptyString
  | String c s' => String (lower_char c) (lower s')
  end.

(** The binary64 nearest to an integer, ties to even: [float(n)], and
    [float(s)] for a string of digits. *)
Definition float_of_Z (z : Z) : float := SF2Prim (binary_normalize prec emax z 0 false).

(** The binary64 nearest to [n / d], for a sign. *)
Definition nearest (neg : bool) (n d : positive) : spec_float :=
  let '(mz, ez, lz) := SFdiv_core_binary prec emax (Zpos n) 0 (Zpos d) 0 in
  binary_round_aux prec emax neg mz ez lz.

(** The rational a finite binary64 denotes. *)
Definition Q_of_finite (s : bool) (m : positive) (e : Z) : Q :=
  let z := if s then Zneg m else Zpos m in
  if (0 <=? e)%Z then inject_Z (z * 2 ^ e) else Qmake z (Z.to_pos (2 ^ (- e))).

(** [float(s)] on the literals an identifier can spell: a sign, decimal
    digits and an exponent. The value is the rational the literal writes,
    when that rational is a binary64. [FOther] stands for the literals this
    embedding has no number for: infinities, NaN, a decimal point, a
    negative zero, and the literals [float] has to round. *)
Inductive float_parse := FValue (q : Q) | FError | FOther.

Definition split_exp (s : string) : option (string * string) :=
  match find "e" (lower s) with
  | Some i => Some (take i s, drop (S i) s)
  | None => None
  end.

Definition exact (neg : bool) (q : Q) : float_parse :=
  match Qnum q with
  | Z0 => if neg then FOther else FValue q
  | Zpos n | Zneg n =>
      match nearest neg n (Qden q) with
      | S754_finite s m e => if Qeq_bool (Q_of_finite s m e) q then FValue q else FOther
      | _ => FOther
      end
  end.

Definition parse_float (s : string) : float_parse :=
  let s := strip_c s in
  let '(neg, body) :=
    match s with
    | String "-" s' => (true, s')
    | String "+" s' => (false, s')
    | _ => (false, s)
    end in
  let l := lower body in
  if String.eqb l "inf" || String.eqb l "infinity" || String.eqb l "nan"
     || contains "." body
  then FOther
  else
    let '(mant, expo) :=
      match split_exp body with
      | Some (m, e) => (m, Some e)
      | None => (body, None)
      end in
    match grouped_digits mant false 0 with
    | None => FError
    | Some m =>
        let m := if neg then (- Z.of_N m)%Z else Z.of_N m in
        match expo with
        | None => exact neg (inject_Z m)
        | Some es =>
            match parse_int es with
            | None => FError
            | Some e =>
                if negb (String.eqb (strip_c es) es)
                then FError
                else if (0 <=? e)%Z then exact neg (inject_Z (m * 10 ^ e))
                else exact neg (Qmake m (Z.to_pos (10 ^ (- e))))
            end
        end
    end.

End Str.

Module Re.

(** Regular expressions as [re] compiles them: greedy repetition, ordered
    alternation, backtracking, named groups. *)
Inductive regex :=
| Eps
| Chr (p : ascii -> bool)
| Seq (a b : regex)
| Alt (a b : regex)
| Star (a : regex)
| Group (name : string) (a : regex)
| Eol.

Definition captures := list (string * string).

Record match_ := Match {
  group0 : string;      (* [match.group(0)] *)
  rest : string;        (* the input from [match.end(0)] on *)
  groups : captures
}.

Section Engine.
Context {A : Type}.

Fixpoint go (r : regex) (s : string) (caps : captures)
  (k : string -> captures -> option A) {struct r} : option A :=
  match r with
  | Eps => k s caps
  | Chr p =>
      match s with
      | String c s' => if p c then k s' caps else None
      | EmptyString => None
      end
  | Seq a b => go a s caps (fun s' caps' => go b s' caps' k)
  | Alt a b =>
      match go a s caps k with
      | Some x => Some x
      | None => go b s caps k
      end
  | Star a =>
      (fix star (n : nat) (s : string) (caps : captures) {struct n} : option A :=
         match n with
         | O => k s caps
         | S n' =>
             match go a s caps
                     (fun s' caps' =>
                        if String.length s' <? String.length s
                        then star n' s' caps' else None) with
             | Some x => Some x
             | None => k s caps
             end
         end) (String.length s) s caps
  | Group name a =>
      go a s caps
         (fun s' caps' =>
            k s' ((name, Str.take (String.length s - String.length s') s) :: caps'))
  | Eol =>
      match s with
      | EmptyString => k s caps
      | String c EmptyString => if Ascii.eqb c Str.nl then k s caps else None
      | _ => None
      end
  end.
End Engine.

(** [pattern.match(s)]. *)
Definition match_at (r : regex) (s : string) : option match_ :=
  go r s []
     (fun s' caps =>
        Some (Match (Str.take (String.length s - String.length s') s) s' caps)).

(** [match.group(name)]: [None] when the group did not take part. *)
Fixpoint group (name : string) (caps : captures) : option string :=
  match caps with
  | [] => None
  | (n, v) :: caps' => if String.eqb n name then Some v else group name caps'
  end.

(** A group that matched a non-empty text (the truth value of
    [match.group(name)]). *)
Definition has (name : string) (m : match_) : bool :=
  match group name (groups m) with
  | Some (String _ _) => true
  | _ => false
  end.

Definition is_not_none (name : string) (m : match_) : bool :=
  match group name (groups m) with Some _ => true | None => false end.

Definition get (name : string) (m : match_) : string :=
  match group name (groups m) with Some v => v | None => "" end.

(** [pattern.search(s)]: the leftmost match and the text before it. *)
Fixpoint search (r : regex) (s : string) : option (string * match_) :=
  match match_at r s with
  | Some m => Some (EmptyString, m)
  | None =>
      match s with
      | EmptyString => None
      | String c s' =>
          match search r s' with
          | Some (pre, m) => Some (String c pre, m)
          | None => None
          end
      end
  end.

(** Pattern syntax. *)
Definition lit (c : string) : regex :=
  fold_right (fun ch r => Seq (Chr (Ascii.eqb ch)) r) Eps (Str.chars c).
Definition set (cs : string) : regex := Chr (fun c => Str.elem c cs).
Definition dot : regex := Chr (fun c => negb (Ascii.eqb c Str.nl)).
Definition s_ : regex := Chr Str.isspace.
Definition d_ : regex := Chr Str.isdigit.
Definition w_ : regex := Chr Str.isword.
(** [[\w-]] and [[\w:-]]. *)
Definition w_dash : regex := Chr (fun c => Str.isword c || Str.elem c "-").
Definition w_colon_dash : regex := Chr (fun c => Str.isword c || Str.elem c ":-").
Definition plus (a : regex) : regex := Seq a (Star a).
Definition opt (a : regex) : regex := Alt a Eps.
Definition seq (l : list regex) : regex := fold_right Seq Eps l.
Definition alt (l : list regex) : regex :=
  match l with
  | [] => Chr (fun _ => false)
  | a :: l' => fold_left Alt l' a
  end.

End Re.
(** ** [_WeightedChoice] *)

Module WeightedChoice.

(** A weight is a [float] or the sentinel ['+']. *)
Inductive weight := WNum (w : float) | WPlus.

Record t (V : Type) := Make {
  total : float;
  values : list V;
  weights : list weight
}.
Arguments Make {V} total values weights.

Section Ops.
Context {V : Type}.

Definition empty : t V := Make 0%float [] [].

Definition append (self : t V) (value : V) (w : weight) : t V :=
  Make (match w with WNum q => (total self + q)%float | WPlus => total self end)
       (values self ++ [value])
       (weights self ++ [w]).

Definition extend (self : t V) (iterable : list (V * weight)) : t V :=
  fold_left (fun s vw => append s (fst vw) (snd vw)) iterable self.

Definition too_much : exn :=
  Exn AssertionError "Too much total weight?" Nowhere.

(** The [for weight, value in zip(weights, values)] walk of [choice]:
    the first value at which the running target goes negative. *)
Fixpoint walk (target : float) (ws : list weight) (vs : list V)
  : result (option V) :=
  match ws, vs with
  | w :: ws', v :: vs' =>
      match w with
      | WPlus => raise TypeError "unsupported operand type(s) for -=: 'float' and 'str'"
      | WNum q =>
          let target := (target - q)%float in
          if (target <? 0)%float then Ok (Some v) else walk target ws' vs'
      end
  | _, _ => Ok None
  end.

Definition choice (self : t V) (r : rng) : result (V * rng) :=
  let (target, r') := uniform 0 (total self) r in
  o <- walk target (weights self) (values self) ;;
  match o with
  | Some v => Ok (v, r')
  | None => Raise too_much
  end.

(** The walk of [sample]: the picked value and its weight, and both
    lists with position [i] deleted. *)
Fixpoint pick (target : float) (ws : list weight) (vs : list V)
  : result (option (V * float * list weight * list V)) :=
  match ws, vs with
  | w :: ws', v :: vs' =>
      match w with
      | WPlus => raise TypeError "unsupported operand type(s) for -=: 'float' and 'str'"
      | WNum q =>
          let target := (target - q)%float in
          if (target <? 0)%float then Ok (Some (v, q, ws', vs'))
          else
            o <- pick target ws' vs' ;;
            match o with
            | Some (v', q', ws'', vs'') => Ok (Some (v', q', w :: ws'', v :: vs''))
            | None => Ok None
            end
      end
  | _, _ => Ok None
  end.

(** [k -= 1]. *)
Definition decr (k : bound) : result bound :=
  match k with
  | BInt n => Ok (BInt (n - 1))
  | BStar => raise TypeError "unsupported operand type(s) for -=: 'str' and 'int'"
  end.

(** The [while k and total] loop, a float being true unless it is a
    zero; every turn deletes one alternative or raises, so
    [S (length weights)] turns are enough. *)
Fixpoint sample_loop (fuel : nat) (ws : list weight) (vs : list V)
  (tot : float) (k : bound) (acc : list V) (r : rng) : result (list V * rng) :=
  if truthy k && negb (tot =? 0)%float then
    match fuel with
    | O => OutOfFuel
    | S fuel' =>
        let (target, r') := uniform 0 tot r in
        o <- pick target ws vs ;;
        match o with
        | Some (v, q, ws', vs') =>
            k' <- decr k ;;
            sample_loop fuel' ws' vs' (tot - q)%float k' (acc ++ [v]) r'
        | None => Raise too_much
        end
    end
  else Ok (acc, r).

Definition sample (self : t V) (k : bound) (r : rng) : result (list V * rng) :=
  sample_loop (S (List.length (weights self)))%nat
              (weights self) (values self) (total self) k [] r.

End Ops.

(** The alternatives whose weight is not a zero. *)
Definition nonzero (w : weight) : bool :=
  match w with WNum q => negb (q =? 0)%float | WPlus => true end.

Definition count_nonzero (ws : list weight) : nat :=
  List.length (filter nonzero ws).

(** A weight that is not negative, as [float] reads one from digits. *)
Definition not_negative (w : weight) : bool :=
  match w with WNum q => negb (q <? 0)%float | WPlus => true end.

(** What [total += weight] makes of a total over the weights of a list,
    from left to right: every addition rounds, and a ['+'] adds nothing. *)
Definition added (tot : float) (ws : list weight) : float :=
  fold_left (fun t w => match w with WNum q => (t + q)%float | WPlus => t end) ws tot.

(** What resolving the ['+'] of a list of weights adds to a total: the
    number that took the place of each ['+'], from left to right, each
    addition rounded. *)
Fixpoint resolved (tot : float) (before after : list weight) : float :=
  match before, after with
  | WPlus :: before', WNum q :: after' => resolved (tot + q)%float before' after'
  | _ :: before', _ :: after' => resolved tot before' after'
  | _, _ => tot
  end.

(** What [total -= weight] leaves of a total after the weights picked. *)
Definition left_of (tot : float) (qs : list float) : float :=
  fold_left PrimFloat.sub qs tot.

End WeightedChoice.
(** ** The data model *)

(** A [dict] keyed by names, in insertion order. *)
Module Dict.

Definition t (V : Type) := list (string * V).

Section Ops.
Context {V : Type}.

Fixpoint get (k : string) (d : t V) : option V :=
  match d with
  | [] => None
  | (k', v) :: d' => if String.eqb k' k then Some v else get k d'
  end.

Definition mem (k : string) (d : t V) : bool :=
  match get k d with Some _ => true | None => false end.

(** [d[k] = v]: an existing key keeps its position. *)
Fixpoint set (k : string) (v : V) (d : t V) : t V :=
  match d with
  | [] => [(k, v)]
  | (k', v') :: d' =>
      if String.eqb k' k then (k, v) :: d' else (k', v') :: set k v d'
  end.

(** [del d[k]]. *)
Fixpoint del (k : string) (d : t V) : t V :=
  match d with
  | [] => []
  | (k', v') :: d' => if String.eqb k' k then d' else (k', v') :: del k d'
  end.

Definition keys (d : t V) : list string := map fst d.
Definition values (d : t V) : list V := map snd d.

(** [d[k]], a [KeyError] when absent. *)
Definition lookup (k : string) (d : t V) : result V :=
  match get k d with
  | Some v => Ok v
  | None => raise KeyError k
  end.
End Ops.

End Dict.

(** A [set] of names. *)
Module NameSet.
Definition t := list string.
Definition mem (k : string) (s : t) : bool := existsb (String.eqb k) s.
Definition add (k : string) (s : t) : t := if mem k s then s else s ++ [k].
Definition union (a b : t) : t := fold_left (fun s k => add k s) b a.
Definition diff (a b : t) : t := filter (fun k => negb (mem k b)) a.
End NameSet.

(** What is appended to the output: a [str] or a [bytes]. *)
Inductive value := VStr (s : string) | VBytes (b : list Byte.byte).

Definition same_type (a b : value) : bool :=
  match a, b with
  | VStr _, VStr _ | VBytes _, VBytes _ => true
  | _, _ => false
  end.

Definition type_name (v : value) : string :=
  match v with VStr _ => "str" | VBytes _ => "bytes" end.

(** [len(value)]. *)
Definition len (v : value) : nat :=
  match v with VStr s => String.length s | VBytes b => List.length b end.

(** A numeric literal among the arguments of a function. *)
Inductive number := NInt (z : Z) | NFloat (q : Q).

Inductive arg := ANum (n : number) | ASym (name : string).

(** What a callable receives: a number as it is, or the generated value of
    a symbol. *)
Inductive argval := AVNum (n : number) | AVVal (v : value).

(** The symbol classes. [Regex], [Repeat] and [RepeatSample] are
    subclasses of [Concat] (a list of child names); [TextChoice] is a
    subclass of [Text]. *)
Inductive kind :=
| Abstract
| Bin (value : list Byte.byte)
| Choice (wc : WeightedChoice.t (list string)) (choices_terminate : list (option bool))
| Concat (children : list string)
| Func (fname : string) (args : list arg)
| Ref (ref : string)
| Regex (children : list string)
| Repeat (children : list string) (min_ max_ : bound)
| RepeatSample (children : list string) (min_ max_ : bound) (sample_idx : option nat)
| Text (value : string)
| TextChoice (value : string).

Module Symbol.

Record t := Make {
  name : string;
  line_no : nat;
  can_terminate : option bool;
  kind_ : kind
}.

Definition set_name (n : string) (s : t) : t :=
  Make n (line_no s) (can_terminate s) (kind_ s).
Definition set_line_no (l : nat) (s : t) : t :=
  Make (name s) l (can_terminate s) (kind_ s).
Definition set_can_terminate (c : option bool) (s : t) : t :=
  Make (name s) (line_no s) c (kind_ s).
Definition set_kind (k : kind) (s : t) : t :=
  Make (name s) (line_no s) (can_terminate s) k.

End Symbol.
Import Symbol.
Abbreviation symbol := Symbol.t.

(** Truth value of [can_terminate] and of the entries of
    [_choices_terminate]: [None] is false. *)
Definition is_true (o : option bool) : bool :=
  match o with Some b => b | None => false end.

(** [isinstance] tests. *)
Definition is_abstract (k : kind) : bool := match k with Abstract => true | _ => false end.
Definition is_ref (k : kind) : bool := match k with Ref _ => true | _ => false end.
Definition is_choice (k : kind) : bool := match k with Choice _ _ => true | _ => false end.
Definition is_func (k : kind) : bool := match k with Func _ _ => true | _ => false end.
Definition is_repeat (k : kind) : bool :=
  match k with Repeat _ _ _ | RepeatSample _ _ _ _ => true | _ => false end.
Definition is_text_or_bin (k : kind) : bool :=
  match k with Text _ | TextChoice _ | Bin _ => true | _ => false end.

(** The list a [ConcatSymbol] (or a subclass) is. *)
Definition as_list (k : kind) : option (list string) :=
  match k with
  | Concat c | Regex c | Repeat c _ _ | RepeatSample c _ _ _ => Some c
  | _ => None
  end.

(** The same symbol with another list of children. *)
Definition with_list (c : list string) (k : kind) : kind :=
  match k with
  | Concat _ => Concat c
  | Regex _ => Regex c
  | Repeat _ a b => Repeat c a b
  | RepeatSample _ a b i => RepeatSample c a b i
  | other => other
  end.

Definition class_name (k : kind) : string :=
  match k with
  | Abstract => "_AbstractSymbol" | Bin _ => "BinSymbol" | Choice _ _ => "ChoiceSymbol"
  | Concat _ => "ConcatSymbol" | Func _ _ => "FuncSymbol" | Ref _ => "RefSymbol"
  | Regex _ => "RegexSymbol" | Repeat _ _ _ => "RepeatSymbol"
  | RepeatSample _ _ _ _ => "RepeatSampleSymbol" | Text _ => "TextSymbol"
  | TextChoice _ => "_TextChoiceSymbol"
  end.

(** [sym.children()], a set of names. *)
Definition children (s : symbol) : list string :=
  match kind_ s with
  | Choice wc _ => fold_left NameSet.union (WeightedChoice.values wc) []
  | Concat c | Regex c | Repeat c _ _ | RepeatSample c _ _ _ => NameSet.union [] c
  | Func _ args =>
      NameSet.union []
        (flat_map (fun a => match a with ASym n => [n] | ANum _ => [] end) args)
  | Ref r => [r]
  | _ => []
  end.

(** A callable of the grammar: the three built-in ones draw from [random];
    a registered one is a function of its arguments. *)
Inductive callable :=
| Rndint | Rndpow2 | Rndflt
| User (f : list argval -> result value).

Record grammar := MkGrammar {
  limit : option Z;
  symtab : Dict.t symbol;
  tracked : NameSet.t;
  funcs : Dict.t callable
}.

Definition set_symtab (t : Dict.t symbol) (g : grammar) : grammar :=
  MkGrammar (limit g) t (tracked g) (funcs g).
Definition set_tracked (t : NameSet.t) (g : grammar) : grammar :=
  MkGrammar (limit g) (symtab g) t (funcs g).

(** [Grammar.is_limit_exceeded]. *)
Definition is_limit_exceeded (g : grammar) (length : nat) : bool :=
  match limit g with
  | Some l => (l <=? Z.of_nat length)%Z
  | None => false
  end.

Definition DEFAULT_LIMIT : Z := 100 * 1024.

(** What the host decides and the program does not: the order in which a
    [set] of characters is iterated ([set_iter l] for [set(l)],
    [set_diff_iter a b] for [set(a) - set(b)]); the first six hexadecimal
    digits of the SHA-512 digest of a text; the text of a file as
    [open(path)] reads it, [None] for an [IOError];
    [os.path.join(os.path.dirname(file), path)]; and how deep imports may
    nest before the recursion of [Grammar.parse] exhausts the stack. *)
Record host := Host {
  set_iter : list ascii -> list ascii;
  set_diff_iter : list ascii -> list ascii -> list ascii;
  sha512_6 : string -> string;
  open_ : string -> option string;
  sibling : string -> string -> string;
  import_depth : nat
}.
(** ** Generation state, the built-in callables *)

(** An entry of [symstack]: a symbol name, or one of the tuples
    [('unwind', name)] and [('untrack', name)]. *)
Inductive item :=
| ISym (name : string)
| IUnwind (name : string)
| IUntrack (name : string).

Module GenState.

(** [symstack] is kept top first: [symstack.pop()] takes the head, and
    [symstack.extend(reversed(l))] puts [l] in front. *)
Record t := Make {
  symstack : list item;
  instances : Dict.t (list string);
  output : list value;
  length : nat
}.

(** [_GenState(grmr)]. *)
Definition init : t := Make [] [] [] 0.

Definition set_symstack (s : list item) (g : t) : t :=
  Make s (instances g) (output g) (length g).
Definition set_instances (i : Dict.t (list string)) (g : t) : t :=
  Make (symstack g) i (output g) (length g).
Definition push (l : list string) (g : t) : t :=
  set_symstack (map ISym l ++ symstack g) g.

Definition backtrace (g : t) : list string :=
  flat_map (fun i => match i with IUnwind n => [n] | _ => [] end)
           (rev (symstack g)).

Definition append (self : t) (v : value) : result t :=
  match output self with
  | first :: _ =>
      if negb (same_type v first)
      then raise_at GenerationError
             ("Wrong value type generated, expecting " ++ type_name first
              ++ ", got " ++ type_name v)%string
             (AtGen (backtrace self))
      else Ok (Make (symstack self) (instances self) (output self ++ [v])
                    (length self + len v))
  | [] =>
      Ok (Make (symstack self) (instances self) (output self ++ [v])
               (length self + len v))
  end.

End GenState.

(** [int(a)] as the built-in callables apply it to an argument. *)
Definition int_of_number (n : number) : Z :=
  match n with
  | NInt z => z
  | NFloat q => Z.quot (Qnum q) (Zpos (Qden q))
  end.

Definition py_int (a : argval) : result Z :=
  match a with
  | AVNum n => Ok (int_of_number n)
  | AVVal (VStr s) =>
      match Str.parse_int s with
      | Some z => Ok z
      | None => raise ValueError "invalid literal for int() with base 10"
      end
  | AVVal (VBytes b) =>
      match Str.parse_int (string_of_list_byte b) with
      | Some z => Ok z
      | None => raise ValueError "invalid literal for int() with base 10"
      end
  end.

(** [rndint = lambda a, b: str(random.randint(int(a), int(b)))]. *)
Definition rndint (a b : argval) (r : rng) : result (value * rng) :=
  x <- py_int a ;;
  y <- py_int b ;;
  '(n, r') <- randint_Z x y r ;;
  Ok (VStr (str_int n), r').

(** [rndpow2 = lambda a, b:
      str(2 ** random.randint(0, int(a)) + random.randint(-int(b), int(b)))]. *)
Definition rndpow2 (a b : argval) (r : rng) : result (value * rng) :=
  x <- py_int a ;;
  '(k, r1) <- randint_Z 0 x r ;;
  y <- py_int b ;;
  '(j, r2) <- randint_Z (- y) y r1 ;;
  Ok (VStr (str_int (2 ^ k + j)), r2).

(** Calling [funcs[fname]] on the evaluated arguments. *)
Definition call (c : callable) (args : list argval) (r : rng) : result (value * rng) :=
  match c with
  | Rndint =>
      match args with
      | [a; b] => rndint a b r
      | _ => raise TypeError "<lambda>() takes 2 positional arguments"
      end
  | Rndpow2 =>
      match args with
      | [a; b] => rndpow2 a b r
      | _ => raise TypeError "<lambda>() takes 2 positional arguments"
      end
  | Rndflt => Unmodelled "str(float)"
  | User f => v <- f args ;; Ok (v, r)
  end.

(** ["".join(l)] on a list of values: a [TypeError] on a [bytes]. *)
Fixpoint join_str (l : list value) : result string :=
  match l with
  | [] => Ok ""
  | VStr s :: l' => t <- join_str l' ;; Ok (s ++ t)%string
  | VBytes _ :: _ => raise TypeError "sequence item: expected str instance, bytes found"
  end.

Fixpoint join_bytes (l : list value) : result (list Byte.byte) :=
  match l with
  | [] => Ok []
  | VBytes b :: l' => t <- join_bytes l' ;; Ok (b ++ t)
  | VStr _ :: _ => raise TypeError "sequence item: expected a bytes-like object, str found"
  end.

(** [try: return "".join(output) except TypeError: return b"".join(output)]. *)
Definition join_output (l : list value) : result value :=
  match join_str l with
  | Ok s => Ok (VStr s)
  | Raise (Exn TypeError _ _) => b <- join_bytes l ;; Ok (VBytes b)
  | other => s <- other ;; Ok (VStr s)
  end.

(** [except AssertionError as err: raise GenerationError(err, gstate)]. *)
Definition assertion_to_generation {A} (st : GenState.t) (m : result A) : result A :=
  match m with
  | Raise (Exn AssertionError m _) =>
      raise_at GenerationError m (AtGen (GenState.backtrace st))
  | other => other
  end.

(** A buffer whose values all have one type. *)
Definition homogeneous (l : list value) : Prop :=
  forall a b, In a l -> In b l -> same_type a b = true.

(** A result that is not an artefact of the fuel of the embedding. *)
Definition finished {A} (m : result A) : Prop := m <> OutOfFuel.

(** What [symbol.generate] may do to the state: append to the buffer, and
    put symbol names on the stack. *)
Definition grows (st st' : GenState.t) : Prop :=
  (homogeneous (GenState.output st) -> homogeneous (GenState.output st'))
  /\ exists l, GenState.symstack st' = map ISym l ++ GenState.symstack st.
(** ** Parsing *)

Module ParseState.

Record t := Make {
  prefix : string;
  imports : Dict.t (string * nat);   (* friendly name -> (grammar hash, import line_no) *)
  imports_used : NameSet.t;
  line_no : nat;
  n_implicit : Z;
  grmr : grammar;
  name : option string
}.

Definition init (prefix : string) (grmr : grammar) (filename : option string) : t :=
  Make prefix [] [] 0 (-1) grmr filename.

Definition set_grmr (g : grammar) (ps : t) : t :=
  Make (prefix ps) (imports ps) (imports_used ps) (line_no ps) (n_implicit ps) g (name ps).
Definition set_symtab (st : Dict.t symbol) (ps : t) : t :=
  set_grmr (set_symtab st (grmr ps)) ps.
Definition tab (ps : t) : Dict.t symbol := symtab (grmr ps).
Definition next_line (ps : t) : t :=
  Make (prefix ps) (imports ps) (imports_used ps) (S (line_no ps)) (-1) (grmr ps) (name ps).

Definition here (ps : t) : place := AtParse (name ps) (line_no ps).

Definition error {A} (m : string) (ps : t) : result A :=
  raise_at ParseError m (here ps).

Definition implicit (ps : t) : Z * t :=
  let n := (n_implicit ps + 1)%Z in
  (n, Make (prefix ps) (imports ps) (imports_used ps) (line_no ps) n (grmr ps) (name ps)).

Definition get_prefixed (symprefix : option string) (sym : string) (ps : t)
  : result (string * t) :=
  match symprefix with
  | Some (String _ _ as p) =>
      let p := Str.chop p in
      match Dict.get p (imports ps) with
      | Some (newprefix, _) =>
          Ok ((newprefix ++ "." ++ sym)%string,
              Make (prefix ps) (imports ps) (NameSet.add p (imports_used ps))
                   (line_no ps) (n_implicit ps) (grmr ps) (name ps))
      | None => error ("Attempt to use symbol from unknown prefix: " ++ p) ps
      end
  | _ => Ok ((prefix ps ++ "." ++ sym)%string, ps)
  end.

Definition add_import (friendly grammar_hash : string) (ps : t) : t :=
  Make (prefix ps) (Dict.set friendly (grammar_hash, line_no ps) (imports ps))
       (imports_used ps) (line_no ps) (n_implicit ps) (grmr ps) (name ps).

Definition sanity_check (ps : t) : result unit :=
  match NameSet.diff (Dict.keys (imports ps)) (imports_used ps) with
  | [] => Ok tt
  | _ => raise_at IntegrityError "Unused import" (here ps)
  end.

End ParseState.

(** The name of an implicit symbol, [[kind (line %d #%d)]]. *)
Definition implicit_name (what : string) (line_no : nat) (n : Z) : string :=
  ("[" ++ what ++ " (line " ++ str_nat line_no ++ " #" ++ str_int n ++ ")]")%string.

Module Symbol_.
Import ParseState.

(** [_Symbol.__init__]; the attributes a subclass sets right after it
    ([can_terminate] and its own fields) are passed along. *)
Definition init (sname : string) (no_add : bool) (ct : option bool) (k : kind)
  (ps : ParseState.t) : result ParseState.t :=
  if String.eqb sname (prefix ps ++ ".import") then
    error "'import' is a reserved name" ps
  else
    match Str.split_dot sname with
    | None => raise IndexError "list index out of range"
    | Some (_, unprefixed) =>
        match Dict.get unprefixed (imports ps) with
        | Some (_, l) =>
            error ("Redefinition of symbol " ++ unprefixed
                   ++ " previously declared on line " ++ str_nat l) ps
        | None =>
            let self := Symbol.Make sname (line_no ps) ct k in
            if no_add then Ok ps
            else
              match Dict.get sname (tab ps) with
              | Some old =>
                  if negb (is_abstract (kind_ old) || is_ref (kind_ old)) then
                    error ("Redefinition of symbol " ++ unprefixed
                           ++ " previously declared on line "
                           ++ str_nat (Symbol.line_no old)) ps
                  else Ok (set_symtab (Dict.set sname self (tab ps)) ps)
              | None => Ok (set_symtab (Dict.set sname self (tab ps)) ps)
              end
        end
    end.

(** A mutation of the symbol object registered under [sname]. *)
Definition update (sname : string) (f : kind -> kind) (ps : ParseState.t)
  : result ParseState.t :=
  s <- Dict.lookup sname (tab ps) ;;
  Ok (set_symtab (Dict.set sname (set_kind (f (kind_ s)) s) (tab ps)) ps).

End Symbol_.

Module AbstractSymbol.
Definition new (sname : string) (ps : ParseState.t) : result ParseState.t :=
  Symbol_.init sname false None Abstract ps.

(** [_Symbol.generate], which no concrete class inherits. *)
Definition generate (self : symbol) (st : GenState.t) (r : rng)
  : result (GenState.t * rng) :=
  raise_at GenerationError
    ("Can't generate symbol " ++ Symbol.name self ++ " of type " ++ class_name (kind_ self))
    (AtGen (GenState.backtrace st)).
End AbstractSymbol.

Module TextSymbol.
Import ParseState.

(** [ESCAPES.get(c, c)]. *)
Definition escape (c : ascii) : ascii :=
  if Ascii.eqb c "f" then ascii_of_nat 12
  else if Ascii.eqb c "n" then ascii_of_nat 10
  else if Ascii.eqb c "r" then ascii_of_nat 13
  else if Ascii.eqb c "t" then ascii_of_nat 9
  else if Ascii.eqb c "v" then ascii_of_nat 11
  else c.

Definition is_quote (c : ascii) : bool := Ascii.eqb c Str.dq || Ascii.eqb c "'".

(** A quote character as group [end], or a backslash and any character
    as group [esc]. *)
Definition RE_QUOTE : Re.regex :=
  Re.Alt (Re.Group "end" (Re.Chr is_quote))
         (Re.Seq (Re.lit "\") (Re.Group "esc" Re.dot)).

(** [TextSymbol.__init__]; returns the name of the symbol. *)
Definition new (sname : option string) (value : string) (no_prefix no_add : bool)
  (text_choice : bool) (ps : ParseState.t) : result (string * ParseState.t) :=
  let '(sname, ps) :=
    match sname with
    | Some n => (n, ps)
    | None =>
        if no_add then (implicit_name "text" (line_no ps) (-1), ps)
        else let (n, ps') := implicit ps in
             (implicit_name "text" (line_no ps) n, ps')
    end in
  let sname := if no_prefix then sname else (prefix ps ++ "." ++ sname)%string in
  ps' <- Symbol_.init sname no_add (Some true)
           (if text_choice then TextChoice value else Text value) ps ;;
  Ok (sname, ps').

(** The [for match in _RE_QUOTE.finditer(defn)] loop: the text up to the
    closing quote and what follows it; [None] when the loop runs out. *)
Fixpoint scan (fuel : nat) (qchar : ascii) (defn : string) (out : string)
  : result (option (string * string)) :=
  match fuel with
  | O => OutOfFuel
  | S fuel' =>
      match Re.search RE_QUOTE defn with
      | None => Ok None
      | Some (before, m) =>
          let out := (out ++ before)%string in
          match Re.group "end" (Re.groups m) with
          | Some e =>
              if String.eqb e (Str.of_char qchar) then Ok (Some (out, Re.rest m))
              else scan fuel' qchar (Re.rest m) (out ++ e)
          | None =>
              match Re.get "esc" m with
              | String c _ => scan fuel' qchar (Re.rest m) (out ++ Str.of_char (escape c))
              | EmptyString => scan fuel' qchar (Re.rest m) out
              end
          end
      end
  end.

Definition parse (defn : string) (no_add : bool) (ps : ParseState.t)
  : result (string * string * string * ParseState.t) :=
  match defn with
  | EmptyString => raise IndexError "string index out of range"
  | String qchar defn =>
      if negb (is_quote qchar) then
        error ("Error parsing string, expected " ++ Str.of_char Str.dq ++ " or ' at: "
               ++ String qchar defn) ps
      else
        o <- scan (S (String.length defn)) qchar defn "" ;;
        match o with
        | None => error "Unterminated string literal!" ps
        | Some (out, defn) =>
            '(sname, ps') <- new None out false no_add false ps ;;
            Ok (sname, out, defn, ps')
        end
  end.

Definition generate (value : string) (st : GenState.t) (r : rng)
  : result (GenState.t * rng) :=
  st' <- GenState.append st (VStr value) ;; Ok (st', r).

End TextSymbol.

Module TextChoiceSymbol.

(** [gstate.append(random.choice(self.value))]. *)
Definition generate (value : string) (st : GenState.t) (r : rng)
  : result (GenState.t * rng) :=
  '(c, r') <- Py.choice (Str.chars value) r ;;
  st' <- GenState.append st (VStr (Str.of_char c)) ;;
  Ok (st', r').

End TextChoiceSymbol.

Module BinSymbol.
Import ParseState.

Definition hex_digit (c : ascii) : option nat :=
  let n := nat_of_ascii c in
  if Str.isdigit c then Some (n - 48)
  else if (65 <=? n) && (n <=? 70) then Some (n - 55)
  else if (97 <=? n) && (n <=? 102) then Some (n - 87)
  else None.

(** [binascii.unhexlify] on an ASCII string of even length. *)
Fixpoint unhexlify (s : string) : option (list Byte.byte) :=
  match s with
  | EmptyString => Some []
  | String a (String b s') =>
      match hex_digit a, hex_digit b, unhexlify s' with
      | Some x, Some y, Some l =>
          match Byte.of_nat (16 * x + y) with
          | Some byte => Some (byte :: l)
          | None => None
          end
      | _, _, _ => None
      end
  | String _ EmptyString => None
  end.

Definition is_ascii (s : string) : bool :=
  forallb (fun c => nat_of_ascii c <? 128) (Str.chars s).

(** [BinSymbol.__init__]: the symbol is registered before the value is
    decoded; only [UnicodeEncodeError] and [TypeError] become a
    [ParseError], and [unhexlify] raises neither on an ASCII string. *)
Definition new (value : string) (ps : ParseState.t) : result (string * ParseState.t) :=
  let (n, ps) := implicit ps in
  let sname := (prefix ps ++ "." ++ implicit_name "bin" (line_no ps) n)%string in
  let decoded := unhexlify value in
  ps <- Symbol_.init sname false (Some true)
          (Bin (match decoded with Some b => b | None => [] end)) ps ;;
  if negb (is_ascii value) then
    error "Invalid hex string: 'ascii' codec can't encode character" ps
  else if Nat.odd (String.length value) then
    raise BinasciiError "Odd-length string"
  else
    match decoded with
    | None => raise BinasciiError "Non-hexadecimal digit found"
    | Some _ => Ok (sname, ps)
    end.

Definition parse (defn : string) (ps : ParseState.t)
  : result (string * string * ParseState.t) :=
  match defn with
  | String start (String qchar defn) =>
      if negb (Ascii.eqb start "x") then
        error ("Error parsing binary string at: " ++ String start (String qchar defn)) ps
      else if negb (TextSymbol.is_quote qchar) then
        error ("Error parsing binary string at: " ++ String qchar defn) ps
      else
        match Str.find (Str.of_char qchar) defn with
        | None => error "Unterminated bin literal!" ps
        | Some enquo =>
            '(sname, ps') <- new (Str.take enquo defn) ps ;;
            Ok (sname, Str.drop (S enquo) defn, ps')
        end
  | _ => raise IndexError "string index out of range"
  end.

Definition generate (value : list Byte.byte) (st : GenState.t) (r : rng)
  : result (GenState.t * rng) :=
  st' <- GenState.append st (VBytes value) ;; Ok (st', r).

End BinSymbol.

Module ConcatSymbol.
Import ParseState.

(** [ConcatSymbol.__init__], also reached from the constructors of its
    subclasses, which give the kind; returns the full name. *)
Definition new (sname : string) (no_prefix : bool) (ct : option bool) (k : kind)
  (ps : ParseState.t) : result (string * ParseState.t) :=
  let sname := if no_prefix then sname else (prefix ps ++ "." ++ sname)%string in
  ps' <- Symbol_.init sname false ct k ps ;;
  Ok (sname, ps').

(** [self.extend(l)] on the registered object. *)
Definition extend (sname : string) (l : list string) (ps : ParseState.t)
  : result ParseState.t :=
  s <- Dict.lookup sname (tab ps) ;;
  match as_list (kind_ s) with
  | Some c => Ok (set_symtab (Dict.set sname (set_kind (with_list (c ++ l) (kind_ s)) s) (tab ps)) ps)
  | None => raise AttributeError "object has no attribute 'extend'"
  end.

(** [gstate.symstack.extend(reversed(self))]. *)
Definition generate (c : list string) (st : GenState.t) (r : rng)
  : result (GenState.t * rng) :=
  Ok (GenState.push c st, r).

End ConcatSymbol.

Module RepeatSymbol.
Import ParseState.

(** [RepeatSymbol.__init__] and [RepeatSampleSymbol.__init__]. *)
Definition new (sample : bool) (sname : string) (min_ max_ : bound) (no_prefix : bool)
  (ps : ParseState.t) : result (string * ParseState.t) :=
  let sname := if no_prefix then sname else (prefix ps ++ "." ++ sname)%string in
  ConcatSymbol.new sname true None
    (if sample then RepeatSample [] min_ max_ None else Repeat [] min_ max_) ps.

(** [reps * tuple(reversed(self))], already in stack order. The count is
    converted to a [Py_ssize_t], which is an [OverflowError] when it does
    not fit; a count below one gives the empty tuple; a tuple whose items
    alone would not fit the address space is a [MemoryError], and just
    below that the versions of the interpreter differ. With the string
    ["*"] on the left it is the string that is asked to repeat itself, a
    tuple of times. *)
Definition repeated (reps : bound) (c : list string) : result (list string) :=
  match reps with
  | BInt n =>
      if (n <? - SSIZE_MAX - 1)%Z || (SSIZE_MAX <? n)%Z then
        raise OverflowError "cannot fit 'int' into an index-sized integer"
      else if (SSIZE_MAX / 8 <? n * Z.of_nat (List.length c))%Z then
        raise MemoryError ""
      else if (TUPLE_MAX <? n * Z.of_nat (List.length c))%Z then
        Unmodelled "a tuple at the limit of the interpreter"
      else Ok (List.concat (repeat c (Z.to_nat n)))
  | BStar => raise TypeError "can't multiply sequence by non-int of type 'tuple'"
  end.

(** The first lines of [generate], the same in [RepeatSymbol] and in
    [RepeatSampleSymbol]: the number of repetitions, [None] when the
    output is chopped. *)
Definition repetitions (g : grammar) (ct : option bool) (min_ max_ : bound)
  (st : GenState.t) (r : rng) : result (option bound * rng) :=
  if is_limit_exceeded g (GenState.length st) then
    if negb (is_true ct) then Ok (None, r)
    else Ok (Some min_, r)
  else
    '(hi, r1) <- randint min_ max_ r ;;
    '(reps, r2) <- randint min_ hi r1 ;;
    Ok (Some reps, r2).

Definition generate (g : grammar) (ct : option bool) (c : list string)
  (min_ max_ : bound) (st : GenState.t) (r : rng) : result (GenState.t * rng) :=
  '(reps, r') <- repetitions g ct min_ max_ st r ;;
  match reps with
  | None => Ok (st, r')
  | Some reps =>
      l <- repeated reps c ;;
      Ok (GenState.push l st, r')
  end.

End RepeatSymbol.

Module RepeatSampleSymbol.

(** The [try] block of [generate]: [reps] alternatives sampled from the
    choice at [sample_idx], each between the children before and after
    it. *)
Definition expand (g : grammar) (c : list string) (sample_idx : option nat)
  (reps : bound) (st : GenState.t) (r : rng) : result (GenState.t * rng) :=
  assertion_to_generation st
    (match sample_idx with
     | None => raise TypeError "unsupported operand type(s) for +: 'NoneType' and 'int'"
     | Some idx =>
         let pre := firstn idx c in
         let post := skipn (S idx) c in
         match nth_error c idx with
         | None => raise IndexError "list index out of range"
         | Some chosen =>
             target <- Dict.lookup chosen (symtab g) ;;
             match kind_ target with
             | Choice wc _ =>
                 '(sel, r') <- WeightedChoice.sample wc reps r ;;
                 Ok (GenState.push (flat_map (fun s => pre ++ s ++ post) sel) st, r')
             | _ => raise AttributeError "object has no attribute 'sample'"
             end
         end
     end).

Definition generate (g : grammar) (ct : option bool) (c : list string)
  (min_ max_ : bound) (sample_idx : option nat) (st : GenState.t) (r : rng)
  : result (GenState.t * rng) :=
  '(reps, r') <- RepeatSymbol.repetitions g ct min_ max_ st r ;;
  match reps with
  | None => Ok (st, r')
  | Some reps => expand g c sample_idx reps st r'
  end.

End RepeatSampleSymbol.

Module RegexSymbol.
Import ParseState.

Definition REGEX_ALPHABET : string :=
  ("ABCDEFGHIJKLMNOPQRSTUVWXYZ"
   ++ "abcdefghijklmnopqrstuvwxyz"
   ++ "0123456789"
   ++ ",./<>?;':" ++ Str.of_char Str.dq ++ "[]\{}|=_+`~!@#$%^&*() -")%string.

(** The pattern [_RE_PARSE]: group [repeat] is a braced count or a
    question mark, [set] an opening bracket with an optional caret, [esc]
    a backslash and a character, [dot] a period, [done] a slash. *)
Definition RE_PARSE : Re.regex :=
  Re.alt
    [ Re.Group "repeat"
        (Re.Alt
           (Re.seq [ Re.lit "{"; Re.Star Re.s_; Re.Group "a" (Re.plus Re.d_); Re.Star Re.s_;
                     Re.opt (Re.seq [ Re.lit ","; Re.Star Re.s_;
                                      Re.Group "b" (Re.plus Re.d_); Re.Star Re.s_ ]);
                     Re.lit "}" ])
           (Re.lit "?"));
      Re.Group "set" (Re.Seq (Re.lit "[") (Re.opt (Re.lit "^")));
      Re.Group "esc" (Re.Seq (Re.lit "\") Re.dot);
      Re.Group "dot" (Re.lit ".");
      Re.Group "done" (Re.lit "/") ].

(** The pattern [_RE_SET]: a closing bracket, a dash, or a character with
    an optional backslash before it. *)
Definition RE_SET : Re.regex :=
  Re.alt [ Re.lit "]"; Re.lit "-"; Re.Seq (Re.opt (Re.lit "\")) Re.dot ].

Definition impl_name (self_name : string) (n : nat) : string :=
  (Str.chop self_name ++ "." ++ str_nat n ++ "]")%string.

(** The state of one [RegexSymbol.parse]: the name and the children of
    the regex symbol and the counter [n_implicit]. *)
Record st := St { self_name : string; kids : list string; n_impl : nat }.

Definition new_text (value : string) (text_choice : bool) (s : st) (ps : ParseState.t)
  : result (st * ParseState.t) :=
  '(n, ps') <- TextSymbol.new (Some (impl_name (self_name s) (n_impl s))) value
                 true false text_choice ps ;;
  Ok (St (self_name s) (kids s ++ [n]) (S (n_impl s)), ps').

Definition add_repeat (min_ max_ : bound) (s : st) (ps : ParseState.t)
  : result (st * ParseState.t) :=
  '(rep, ps') <- RepeatSymbol.new false (impl_name (self_name s) (n_impl s))
                   min_ max_ true ps ;;
  match List.rev (kids s) with
  | [] => raise IndexError "pop from empty list"
  | last :: others =>
      ps'' <- ConcatSymbol.extend rep [last] ps' ;;
      Ok (St (self_name s) (List.rev others ++ [rep]) (S (n_impl s)), ps'')
  end.

(** The loop over a character set, from after the opening bracket: the
    characters collected and the rest of the definition. *)
Fixpoint set_loop (fuel : nat) (defn : string) (alpha : list ascii) (in_range : bool)
  (ps : ParseState.t) : result (list ascii * string) :=
  match fuel with
  | O => OutOfFuel
  | S fuel' =>
      match defn with
      | EmptyString => error "Unterminated set in regex" ps
      | _ =>
          match Re.match_at RE_SET defn with
          | None => raise AttributeError "'NoneType' object has no attribute 'group'"
          | Some m =>
              let g0 := Re.group0 m in
              if String.eqb g0 "]" then
                Ok (if in_range then alpha ++ ["-"%char] else alpha, Re.rest m)
              else if String.eqb g0 "-" then
                if in_range || match alpha with [] => true | _ => false end then
                  error ("Parse error in regex at: " ++ defn) ps
                else set_loop fuel' (Re.rest m) alpha true ps
              else
                c <- match g0 with
                     | String "\" (String c _) => Ok (TextSymbol.escape c)
                     | String "\" EmptyString => raise IndexError "string index out of range"
                     | String c _ => Ok c
                     | EmptyString => raise IndexError "string index out of range"
                     end ;;
                let alpha := alpha ++ [c] in
                if in_range then
                  match List.rev alpha with
                  | last :: before :: _ =>
                      let start := nat_of_ascii before in
                      let end_ := nat_of_ascii last + 1 in
                      if end_ <=? start then
                        error ("Empty range in regex at: " ++ defn) ps
                      else
                        set_loop fuel' (Re.rest m)
                                 (alpha ++ map ascii_of_nat (List.seq start (end_ - start)))
                                 false ps
                  | _ => raise IndexError "list index out of range"
                  end
                else set_loop fuel' (Re.rest m) alpha false ps
          end
      end
  end.

Section Parse.
Variable h : host.

Fixpoint parse_loop (fuel : nat) (defn : string) (s : st) (ps : ParseState.t)
  : result (string * string * ParseState.t) :=
  match fuel with
  | O => OutOfFuel
  | S fuel' =>
      match defn with
      | EmptyString => error "Unterminated regular expression" ps
      | String c0 defn' =>
          match Re.match_at RE_PARSE defn with
          | None =>
              '(s, ps) <- new_text (Str.of_char c0) false s ps ;;
              parse_loop fuel' defn' s ps
          | Some m =>
              if Re.has "set" m then
                let inverse := String.length (Re.get "set" m) =? 2 in
                '(alpha, defn) <- set_loop (S (String.length (Re.rest m))) (Re.rest m)
                                    [] false ps ;;
                let alpha :=
                  if inverse then set_diff_iter h (Str.chars REGEX_ALPHABET) alpha
                  else set_iter h alpha in
                '(s, ps) <- new_text (string_of_list_ascii alpha) true s ps ;;
                parse_loop fuel' defn s ps
              else if Re.has "done" m then
                ps <- Symbol_.update (self_name s) (with_list (kids s)) ps ;;
                Ok (self_name s, Re.rest m, ps)
              else if Re.has "dot" m then
                ps <- match Dict.get "[regex alpha]" (tab ps) with
                      | Some _ => Ok ps
                      | None =>
                          '(n, ps) <- TextSymbol.new (Some "[regex alpha]") REGEX_ALPHABET
                                        true false true ps ;;
                          sym <- Dict.lookup n (tab ps) ;;
                          Ok (set_symtab (Dict.set n (set_line_no 0 sym) (tab ps)) ps)
                      end ;;
                parse_loop fuel' (Re.rest m)
                           (St (self_name s) (kids s ++ ["[regex alpha]"]) (n_impl s)) ps
              else if Re.has "esc" m then
                match Re.group0 m with
                | String _ (String c _) =>
                    '(s, ps) <- new_text (Str.of_char (TextSymbol.escape c)) false s ps ;;
                    parse_loop fuel' (Re.rest m) s ps
                | _ => raise IndexError "string index out of range"
                end
              else
                match List.rev (kids s) with
                | [] =>
                    error ("Error parsing regex, unexpected repeat at: " ++ defn) ps
                | last :: _ =>
                    prev <- Dict.lookup last (tab ps) ;;
                    if is_repeat (kind_ prev) then
                      error ("Error parsing regex, unexpected repeat at: " ++ defn) ps
                    else
                      let '(min_, max_) :=
                        if Re.has "a" m then
                          let a := Z.of_N (match Str.digits (Re.get "a" m) with
                                           | Some n => n | None => 0%N end) in
                          (a, if Re.has "b" m
                              then Z.of_N (match Str.digits (Re.get "b" m) with
                                           | Some n => n | None => 0%N end)
                              else a)
                        else (0%Z, 1%Z) in
                      '(s, ps) <- add_repeat (BInt min_) (BInt max_) s ps ;;
                      parse_loop fuel' (Re.rest m) s ps
                end
          end
      end
  end.

Definition parse (defn : string) (ps : ParseState.t)
  : result (string * string * ParseState.t) :=
  let (n, ps) := implicit ps in
  let sname := (prefix ps ++ "." ++ implicit_name "regex" (line_no ps) n)%string in
  '(sname, ps) <- ConcatSymbol.new sname true (Some true) (Regex []) ps ;;
  match defn with
  | String "/" defn => parse_loop (S (String.length defn)) defn (St sname [] 0) ps
  | String _ _ => error "Regex definitions must begin with /" ps
  | EmptyString => raise IndexError "string index out of range"
  end.
End Parse.

End RegexSymbol.

Module RefSymbol.
Import ParseState.

(** [RefSymbol.__init__]; returns the name of the reference symbol. *)
Definition new (ref : string) (ps : ParseState.t) : result (string * ParseState.t) :=
  let sname := ("@" ++ ref)%string in
  ps <- Symbol_.init sname false None (Ref ref) ps ;;
  ps <- (if Dict.mem ref (tab ps) then Ok ps else AbstractSymbol.new ref ps) ;;
  Ok (sname, set_grmr (set_tracked (NameSet.add ref (tracked (grmr ps))) (grmr ps)) ps).

(** [RefSymbol.generate]; [dispatch] is the method [generate] of the
    symbol it is given. *)
Definition generate (g : grammar)
  (dispatch : symbol -> GenState.t -> rng -> result (GenState.t * rng))
  (ref : string) (st : GenState.t) (r : rng) : result (GenState.t * rng) :=
  inst <- Dict.lookup ref (GenState.instances st) ;;
  match inst with
  | _ :: _ =>
      '(v, r') <- Py.choice inst r ;;
      st' <- GenState.append st (VStr v) ;;
      Ok (st', r')
  | [] =>
      target <- Dict.lookup ref (symtab g) ;;
      dispatch target st r
  end.

End RefSymbol.

Module ChoiceSymbol.
Import ParseState.

Definition new (sname : string) (ps : ParseState.t) : result (string * ParseState.t) :=
  let sname := (prefix ps ++ "." ++ sname)%string in
  ps' <- Symbol_.init sname false None (Choice WeightedChoice.empty []) ps ;;
  Ok (sname, ps').

(** [sym.append(value, weight)] on the registered object. *)
Definition append (sname : string) (value : list string) (w : WeightedChoice.weight)
  (ps : ParseState.t) : result ParseState.t :=
  s <- Dict.lookup sname (tab ps) ;;
  match kind_ s with
  | Choice wc ct =>
      Ok (set_symtab
            (Dict.set sname
               (set_kind (Choice (WeightedChoice.append wc value w) (ct ++ [None])) s)
               (tab ps)) ps)
  | _ => raise AttributeError "object has no attribute 'append'"
  end.

(** The alternatives known to terminate, collected by the loop
    [for i in range(len(self.values))] from position [i] on. *)
Fixpoint terminators (n : nat) (i : nat) (values : list (list string))
  (weights : list WeightedChoice.weight) (ct : list (option bool))
  (acc : WeightedChoice.t (list string)) : result (WeightedChoice.t (list string)) :=
  match n with
  | O => Ok acc
  | S n' =>
      match nth_error ct i with
      | None => raise IndexError "list index out of range"
      | Some c =>
          if is_true c then
            match nth_error values i, nth_error weights i with
            | Some v, Some w =>
                terminators n' (S i) values weights ct (WeightedChoice.append acc v w)
            | _, _ => raise IndexError "list index out of range"
            end
          else terminators n' (S i) values weights ct acc
      end
  end.

Definition generate (g : grammar) (can_terminate : option bool)
  (wc : WeightedChoice.t (list string)) (ct : list (option bool))
  (st : GenState.t) (r : rng) : result (GenState.t * rng) :=
  assertion_to_generation st
    (if is_limit_exceeded g (GenState.length st) && is_true can_terminate then
       t <- terminators (List.length (WeightedChoice.values wc)) 0
              (WeightedChoice.values wc) (WeightedChoice.weights wc) ct
              WeightedChoice.empty ;;
       '(v, r') <- WeightedChoice.choice t r ;;
       Ok (GenState.push v st, r')
     else
       '(v, r') <- WeightedChoice.choice wc r ;;
       Ok (GenState.push v st, r')).

End ChoiceSymbol.

Module FuncSymbol.

(** [FuncSymbol.generate]; [nested] is [Grammar.generate] on a state. An
    argument that is a symbol is generated in a state of its own, which
    shares [instances] with the state of the caller. *)
Fixpoint generate (g : grammar)
  (nested : GenState.t -> rng -> result (value * GenState.t * rng))
  (fname : string) (args : list arg) (acc : list argval)
  (st : GenState.t) (r : rng) : result (GenState.t * rng) :=
  match args with
  | [] =>
      f <- Dict.lookup fname (funcs g) ;;
      '(v, r') <- call f acc r ;;
      st' <- GenState.append st v ;;
      Ok (st', r')
  | ANum n :: args' => generate g nested fname args' (acc ++ [AVNum n]) st r
  | ASym a :: args' =>
      let astate := GenState.Make [ISym a] (GenState.instances st) [] 0 in
      '(v, astate', r') <- nested astate r ;;
      generate g nested fname args' (acc ++ [AVVal v])
               (GenState.set_instances (GenState.instances astate') st) r'
  end.

End FuncSymbol.

Module Defn.
Import ParseState.

(** The pattern [_Symbol._RE_DEFN], one alternative per line of the
    source. *)
Definition RE_DEFN : Re.regex :=
  let bound := Re.Alt (Re.plus Re.d_) (Re.lit "*") in
  Re.alt
    [ Re.Group "quote" (Re.Chr TextSymbol.is_quote);
      Re.Group "hexstr" (Re.Seq (Re.lit "x") (Re.Chr TextSymbol.is_quote));
      Re.Group "regex" (Re.lit "/");
      Re.Group "implconcat" (Re.lit "(");
      Re.Group "infunc" (Re.set ",)");
      Re.Seq (Re.Group "comment" (Re.lit "#")) (Re.Star Re.dot);
      Re.Seq (Re.Group "func" (Re.plus Re.w_)) (Re.lit "(");
      Re.Group "maybe" (Re.lit "?");
      Re.Group "repeat"
        (Re.seq [ Re.set "{<"; Re.Star Re.s_; Re.Group "a" bound; Re.Star Re.s_;
                  Re.opt (Re.seq [ Re.lit ","; Re.Star Re.s_; Re.Group "b" bound;
                                   Re.Star Re.s_ ]);
                  Re.set "}>" ]);
      Re.seq [ Re.lit "@";
               Re.opt (Re.Group "refprefix" (Re.Seq (Re.plus Re.w_dash) (Re.lit ".")));
               Re.Group "ref" (Re.plus Re.w_colon_dash) ];
      Re.seq [ Re.opt (Re.Group "symprefix" (Re.Seq (Re.plus Re.w_dash) (Re.lit ".")));
               Re.Group "sym" (Re.plus Re.w_colon_dash) ];
      Re.Group "ws" (Re.plus Re.s_) ].

(** A repeat bound as the parser stores it:
    ["*" if g == "*" else int(g)]. *)
Definition bound_of (g : string) : bound :=
  if String.eqb g "*" then BStar
  else BInt (Z.of_N (match Str.digits g with Some n => n | None => 0%N end)).

Definition last_char (s : string) : option ascii :=
  match Str.rev s with String c _ => Some c | EmptyString => None end.

(** One argument of a function, after it was parsed into [names]: a
    numeric literal replaces its forward declaration, anything else
    becomes an implicit concatenation. *)
Definition func_arg (sname : string) (names : list string) (args : list arg)
  (ps : ParseState.t) : result (list arg * ParseState.t) :=
  numeric <-
    match names with
    | [a] =>
        s <- Dict.lookup a (tab ps) ;;
        if is_abstract (kind_ s) then
          match Str.split_dot a with
          | None => raise IndexError "list index out of range"
          | Some (_, arg0) =>
              match Str.parse_int arg0 with
              | Some z => Ok (Some (NInt z))
              | None =>
                  match Str.parse_float arg0 with
                  | Str.FValue q => Ok (Some (NFloat q))
                  | Str.FError => Ok None
                  | Str.FOther => Unmodelled "float literal"
                  end
              end
          end
        else Ok None
    | _ => Ok None
    end ;;
  match numeric, names with
  | Some n, [a] => Ok (args ++ [ANum n], set_symtab (Dict.del a (tab ps)) ps)
  | _, _ =>
      '(c, ps) <- ConcatSymbol.new
                    (Str.chop sname ++ "." ++ str_nat (List.length args) ++ "]")
                    true None (Concat []) ps ;;
      ps <- ConcatSymbol.extend c names ps ;;
      Ok (args ++ [ASym c], ps)
  end.

Section Parse.
Variable h : host.

(** [_Symbol._parse], and the argument loop of [FuncSymbol.parse] it
    calls and is called by. *)
Fixpoint parse_ (fuel : nat) (defn : string) (in_func in_concat : bool)
  (result_ : list string) (ps : ParseState.t) {struct fuel}
  : result (list string * string * ParseState.t) :=
  match fuel with
  | O => OutOfFuel
  | S fuel' =>
      match defn with
      | EmptyString => Ok (result_, defn, ps)
      | _ =>
          match Re.match_at RE_DEFN defn with
          | None => error ("Failed to parse definition at: " ++ defn) ps
          | Some m =>
              let after := Re.rest m in
              if Re.is_not_none "ws" m then
                parse_ fuel' after in_func in_concat result_ ps
              else if Re.has "quote" m then
                '(n, _, defn, ps) <- TextSymbol.parse defn false ps ;;
                parse_ fuel' defn in_func in_concat (result_ ++ [n]) ps
              else if Re.has "hexstr" m then
                '(n, defn, ps) <- BinSymbol.parse defn ps ;;
                parse_ fuel' defn in_func in_concat (result_ ++ [n]) ps
              else if Re.has "regex" m then
                '(n, defn, ps) <- RegexSymbol.parse h defn ps ;;
                parse_ fuel' defn in_func in_concat (result_ ++ [n]) ps
              else if Re.has "func" m then
                let fname := Re.get "func" m in
                if String.eqb fname "import" then
                  error "'import' is a reserved function name" ps
                else
                  let (n, ps) := implicit ps in
                  let sname :=
                    (prefix ps ++ "." ++ implicit_name fname (line_no ps) n)%string in
                  ps <- Symbol_.init sname false None (Func fname []) ps ;;
                  '(defn, ps) <- func_loop fuel' sname after [] ps ;;
                  parse_ fuel' defn in_func in_concat (result_ ++ [sname]) ps
              else if Re.has "ref" m then
                '(ref, ps) <- get_prefixed (Re.group "refprefix" (Re.groups m))
                                (Re.get "ref" m) ps ;;
                '(n, ps) <- RefSymbol.new ref ps ;;
                parse_ fuel' after in_func in_concat (result_ ++ [n]) ps
              else if Re.has "sym" m then
                '(sym_name, ps) <- get_prefixed (Re.group "symprefix" (Re.groups m))
                                     (Re.get "sym" m) ps ;;
                '(n, ps) <- match Dict.get sym_name (tab ps) with
                            | Some s => Ok (Symbol.name s, ps)
                            | None =>
                                ps <- AbstractSymbol.new sym_name ps ;;
                                Ok (sym_name, ps)
                            end ;;
                parse_ fuel' after in_func in_concat (result_ ++ [n]) ps
              else if Re.has "comment" m then Ok (result_, "", ps)
              else if Re.has "infunc" m then
                if in_func || (in_concat && String.eqb (Re.get "infunc" m) ")") then
                  Ok (result_, defn, ps)
                else error ("Unexpected token in definition: " ++ defn) ps
              else if Re.has "implconcat" m then
                '(parts, defn, ps) <- parse_ fuel' after false true [] ps ;;
                if negb (Str.startswith ")" defn) then
                  error ("Expecting ) at: " ++ defn) ps
                else
                  let (n, ps) := implicit ps in
                  '(c, ps) <- ConcatSymbol.new (implicit_name "concat" (line_no ps) n)
                                false None (Concat []) ps ;;
                  ps <- ConcatSymbol.extend c parts ps ;;
                  parse_ fuel' (Str.drop 1 defn) in_func in_concat (result_ ++ [c]) ps
              else if Re.has "maybe" m || Re.has "repeat" m then
                match List.rev result_ with
                | [] => error ("Unexpected token in definition: " ++ defn) ps
                | parts :: others =>
                    let g0 := Re.group0 m in
                    bounds <-
                      (if Re.has "maybe" m then Ok (false, BInt 0, BInt 1)
                       else
                         match g0, last_char g0 with
                         | String open _, Some close =>
                             if negb (Ascii.eqb close (if Ascii.eqb open "{" then "}" else ">"))
                             then error ("Repeat symbol mismatch at: " ++ defn) ps
                             else
                               let min_ := bound_of (Re.get "a" m) in
                               Ok (Ascii.eqb open "<", min_,
                                   if Re.has "b" m then bound_of (Re.get "b" m) else min_)
                         | _, _ => raise IndexError "string index out of range"
                         end) ;;
                    let '(sample, min_, max_) := bounds in
                    let (n, ps) := implicit ps in
                    '(rep, ps) <- RepeatSymbol.new sample
                                    (implicit_name "repeat" (line_no ps) n)
                                    min_ max_ false ps ;;
                    inner <- Dict.lookup parts (tab ps) ;;
                    ps <- (if Str.contains "[concat" (Symbol.name inner) then
                             match as_list (kind_ inner) with
                             | Some c =>
                                 ps <- ConcatSymbol.extend rep c ps ;;
                                 Ok (set_symtab (Dict.del parts (tab ps)) ps)
                             | None => raise TypeError "object is not iterable"
                             end
                           else ConcatSymbol.extend rep [parts] ps) ;;
                    parse_ fuel' after in_func in_concat (List.rev others ++ [rep]) ps
                end
              else Unmodelled "no alternative of _RE_DEFN"
          end
      end
  end

with func_loop (fuel : nat) (sname : string) (defn : string) (args : list arg)
  (ps : ParseState.t) {struct fuel} : result (string * ParseState.t) :=
  match fuel with
  | O => OutOfFuel
  | S fuel' =>
      '(names, defn, ps) <- parse_ fuel' defn true false [] ps ;;
      match defn with
      | EmptyString => raise IndexError "string index out of range"
      | String c defn' =>
          if negb (Str.elem c ",)") then
            error ("Expected , or ) parsing function args at: " ++ defn) ps
          else
            let done := Ascii.eqb c ")" in
            '(args, ps) <-
              (if match names with [] => false | _ => true end || negb done
               then func_arg sname names args ps
               else Ok (args, ps)) ;;
            if done then
              ps <- Symbol_.update sname
                      (fun k => match k with Func f _ => Func f args | other => other end)
                      ps ;;
              Ok (defn', ps)
            else func_loop fuel' sname defn' args ps
      end
  end.

(** [_Symbol.parse]. *)
Definition parse (defn : string) (ps : ParseState.t)
  : result (list string * ParseState.t) :=
  '(res, remain, ps) <- parse_ (2 * String.length defn + 2) defn false false [] ps ;;
  match remain with
  | EmptyString => Ok (res, ps)
  | _ => error ("Unexpected token in definition: " ++ remain) ps
  end.

(** [ConcatSymbol.parse]. *)
Definition concat_parse (sname : string) (defn : string) (ps : ParseState.t)
  : result (string * ParseState.t) :=
  '(c, ps) <- ConcatSymbol.new sname false None (Concat []) ps ;;
  '(res, ps) <- parse defn ps ;;
  ps <- ConcatSymbol.extend c res ps ;;
  Ok (c, ps).

End Parse.

End Defn.

(** ** [Grammar]: construction *)

Module GrammarParse.
Import ParseState.

(** The pattern [Grammar._RE_LINE]. *)
Definition RE_LINE : Re.regex :=
  Re.Seq
    (Re.alt
       [ Re.Seq (Re.Group "broken" (Re.Star Re.dot)) (Re.lit "\");
         Re.seq [ Re.Star Re.s_; Re.Group "comment" (Re.lit "#"); Re.Star Re.dot ];
         Re.Group "nothing" (Re.Star Re.s_);
         Re.seq [ Re.Group "name" (Re.plus Re.w_colon_dash);
                  Re.Group "type"
                    (Re.Alt
                       (Re.alt [ Re.Group "weight"
                                   (Re.seq [ Re.plus Re.s_; Re.plus Re.d_; Re.plus Re.s_ ]);
                                 Re.seq [ Re.Star Re.s_; Re.lit "+"; Re.Star Re.s_ ];
                                 Re.seq [ Re.plus Re.s_; Re.lit "import("; Re.Star Re.s_ ] ])
                       (Re.plus Re.s_));
                  Re.Group "def" (Re.plus Re.dot) ];
         Re.seq [ Re.plus Re.s_;
                  Re.Alt (Re.lit "+") (Re.Group "contweight" (Re.plus Re.d_));
                  Re.Star Re.s_;
                  Re.Group "cont" (Re.plus Re.dot) ] ])
    Re.Eol.

(** [float(g)] on a group of digits and whitespace: the binary64 nearest
    to the number; [float] skips the whitespace of C only, and a separator
    that [\s] matched is a [ValueError]. *)
Definition weight_of (g : string) : result WeightedChoice.weight :=
  match Str.digits (Str.strip_c g) with
  | Some n => Ok (WeightedChoice.WNum (Str.float_of_Z (Z.of_N n)))
  | None => raise ValueError "could not convert string to float"
  end.

Section Parse.
Variable h : host.

(** [Grammar.parse] on the text of a grammar, [filename] being the name of
    the file it was read from, if any; [imports] maps a grammar hash to
    its friendly prefix. Returns the grammar hash. The loop
    [for line in grammar] is [parse_lines], where [sym] is the name under
    which the symbol of the last definition is registered. *)
Fixpoint parse (fuel : nat) (g : grammar) (text : string) (filename : option string)
  (imports : Dict.t string) (prefix : string) {struct fuel}
  : result (string * grammar * Dict.t string) :=
  match fuel with
  | O => OutOfFuel
  | S fuel' =>
      let grammar_hash := sha512_6 h text in
      if Dict.mem grammar_hash imports then Ok (grammar_hash, g, imports)
      else
        let imports := Dict.set grammar_hash prefix imports in
        '(ps, imports) <-
          (fix parse_lines (lines : list string) (ljoin : string) (sym : option string)
             (ps : ParseState.t) (imports : Dict.t string) {struct lines}
             : result (ParseState.t * Dict.t string) :=
             match lines with
             | [] => Ok (ps, imports)
             | line :: rest =>
                 let ps := next_line ps in
                 match Re.match_at RE_LINE (ljoin ++ line) with
                 | None =>
                     error ("Failed to parse definition at: " ++ ljoin ++ Str.rstrip line) ps
                 | Some m =>
                     if Re.is_not_none "broken" m then
                       parse_lines rest (Re.get "broken" m) sym ps imports
                     else if Re.has "comment" m || Re.is_not_none "nothing" m then
                       parse_lines rest "" sym ps imports
                     else if Re.has "name" m then
                       let sym_name := Re.get "name" m in
                       let sym_type := Str.lstrip (Re.get "type" m) in
                       let sym_def := Re.get "def" m in
                       if Str.startswith "+" sym_type || Re.has "weight" m then
                         weight <-
                           (if Re.has "weight" m then weight_of (Re.get "weight" m)
                            else Ok WeightedChoice.WPlus) ;;
                         '(c, ps) <- ChoiceSymbol.new sym_name ps ;;
                         '(res, ps) <- Defn.parse h sym_def ps ;;
                         ps <- ChoiceSymbol.append c res weight ps ;;
                         parse_lines rest "" (Some c) ps imports
                       else if Str.startswith "import(" sym_type then
                         match Dict.get (grammar_hash ++ "." ++ sym_name) (tab ps) with
                         | Some old =>
                             error ("Redefinition of symbol " ++ sym_name
                                    ++ " previously declared on line "
                                    ++ str_nat (Symbol.line_no old)) ps
                         | None =>
                             '(text_name, value, defn, ps) <- TextSymbol.parse sym_def true ps ;;
                             let defn := Str.strip defn in
                             if negb (Str.startswith ")" defn) then
                               error ("Expected ')' parsing import at: " ++ defn) ps
                             else
                               let defn := Str.lstrip (Str.drop 1 defn) in
                               match defn with
                               | String _ _ =>
                                   error ("Unexpected input following import: " ++ defn) ps
                               | EmptyString =>
                                   let import_paths :=
                                     match filename with
                                     | Some fn => [sibling h fn value; value]
                                     | None => [value]
                                     end in
                                   '(ps, imports) <-
                                     (fix try_open (paths : list string)
                                        : result (ParseState.t * Dict.t string) :=
                                        match paths with
                                        | [] =>
                                            raise_at IntegrityError
                                              ("Could not find imported grammar: " ++ value)
                                              (here ps)
                                        | import_fn :: paths' =>
                                            match open_ h import_fn with
                                            | None => try_open paths'
                                            | Some import_text =>
                                                '(imported, g', imports) <-
                                                  parse fuel' (grmr ps) import_text
                                                        (Some import_fn) imports sym_name ;;
                                                Ok (add_import sym_name imported (set_grmr g' ps),
                                                    imports)
                                            end
                                        end) import_paths ;;
                                   parse_lines rest "" (Some text_name) ps imports
                               end
                         end
                       else
                         '(c, ps) <- Defn.concat_parse h sym_name sym_def ps ;;
                         parse_lines rest "" (Some c) ps imports
                     else
                       match sym with
                       | None => error "Unexpected continuation of choice symbol" ps
                       | Some c =>
                           if match Dict.get c (tab ps) with
                              | Some s => is_choice (kind_ s)
                              | None => false
                              end
                           then
                             weight <-
                               (if Re.has "contweight" m
                                then weight_of (Re.get "contweight" m)
                                else Ok WeightedChoice.WPlus) ;;
                             '(res, ps) <- Defn.parse h (Re.get "cont" m) ps ;;
                             ps <- ChoiceSymbol.append c res weight ps ;;
                             parse_lines rest "" sym ps imports
                           else error "Unexpected continuation of choice symbol" ps
                       end
                 end
             end) (Str.lines text) "" None (ParseState.init grammar_hash g filename) imports ;;
        _ <- ParseState.sanity_check ps ;;
        Ok (grammar_hash, grmr ps, imports)
  end.
End Parse.

End GrammarParse.

Module Normalize.

(** The [get_prefixed] of [Grammar.normalize]. *)
Definition get_prefixed (imports : Dict.t string) (symname : string) : result string :=
  match Str.split_dot symname with
  | None => Ok symname
  | Some (prefix, name) =>
      let ref := Str.startswith "@" prefix in
      let prefix := if ref then Str.drop 1 prefix else prefix in
      match Dict.get prefix imports with
      | None =>
          raise ParseError
            ("Failed to reassign " ++ symname ++ " to proper namespace after parsing")
      | Some newprefix =>
          Ok ((if ref then "@" else "") ++ newprefix
              ++ (match newprefix with EmptyString => "" | _ => "." end) ++ name)%string
      end
  end.

Fixpoint mapM {A B} (f : A -> result B) (l : list A) : result (list B) :=
  match l with
  | [] => Ok []
  | x :: l' => y <- f x ;; ys <- mapM f l' ;; Ok (y :: ys)
  end.

(** [sym.map(fcn)]. *)
Definition map_kind (f : string -> result string) (k : kind) : result kind :=
  match k with
  | Choice wc ct =>
      vs <- mapM (mapM f) (WeightedChoice.values wc) ;;
      Ok (Choice (WeightedChoice.Make (WeightedChoice.total wc) vs (WeightedChoice.weights wc)) ct)
  | Concat c => c' <- mapM f c ;; Ok (Concat c')
  | Regex c => c' <- mapM f c ;; Ok (Regex c')
  | Repeat c a b => c' <- mapM f c ;; Ok (Repeat c' a b)
  | RepeatSample c a b i => c' <- mapM f c ;; Ok (RepeatSample c' a b i)
  | Func fname args =>
      args' <- mapM (fun a => match a with
                              | ANum n => Ok (ANum n)
                              | ASym s => s' <- f s ;; Ok (ASym s')
                              end) args ;;
      Ok (Func fname args')
  | Ref r => r' <- f r ;; Ok (Ref r')
  | other => Ok other
  end.

(** The renaming loop over [list(self.symtab)]. *)
Fixpoint rename (imports : Dict.t string) (names : list string) (tab : Dict.t symbol)
  : result (Dict.t symbol) :=
  match names with
  | [] => Ok tab
  | oldname :: rest =>
      sym <- Dict.lookup oldname tab ;;
      if negb (String.eqb oldname (name sym)) then raise AssertionError ""
      else
        newname <- get_prefixed imports oldname ;;
        k <- map_kind (get_prefixed imports) (kind_ sym) ;;
        if negb (String.eqb oldname newname) then
          let sym := set_kind k (set_name newname sym) in
          rename imports rest (Dict.del oldname (Dict.set newname sym tab))
        else
          rename imports rest (Dict.set oldname (set_kind k sym) tab)
  end.

Definition has_plus (ws : list WeightedChoice.weight) : bool :=
  existsb (fun w => match w with WeightedChoice.WPlus => true | _ => false end) ws.

(** [ChoiceSymbol.normalize] on the symbol registered as [key]; the loop
    runs over the positions [i, i+1, ...] of its alternatives. *)
Fixpoint choice_normalize (fuel : nat) (key : string) (tab : Dict.t symbol)
  {struct fuel} : result (Dict.t symbol) :=
  match fuel with
  | O => OutOfFuel
  | S fuel' =>
      (fix each (n i : nat) (tab : Dict.t symbol) {struct n} : result (Dict.t symbol) :=
         match n with
         | O => Ok tab
         | S n' =>
             self <- Dict.lookup key tab ;;
             match kind_ self with
             | Choice wc ct =>
                 match nth_error (WeightedChoice.values wc) i,
                       nth_error (WeightedChoice.weights wc) i with
                 | Some value, Some WeightedChoice.WPlus =>
                     match value with
                     | [v0] =>
                         target <- Dict.lookup v0 tab ;;
                         match kind_ target with
                         | Choice twc _ =>
                             tab <- (if has_plus (WeightedChoice.weights twc)
                                     then choice_normalize fuel' v0 tab else Ok tab) ;;
                             target <- Dict.lookup v0 tab ;;
                             self <- Dict.lookup key tab ;;
                             match kind_ target, kind_ self with
                             | Choice twc _, Choice wc ct =>
                                 let w := WeightedChoice.total twc in
                                 let wc' :=
                                   WeightedChoice.Make
                                     (WeightedChoice.total wc + w)%float
                                     (WeightedChoice.values wc)
                                     (firstn i (WeightedChoice.weights wc)
                                      ++ WeightedChoice.WNum w
                                      :: skipn (S i) (WeightedChoice.weights wc)) in
                                 each n' (S i)
                                      (Dict.set key (set_kind (Choice wc' ct) self) tab)
                             | _, _ => raise AttributeError "object has no attribute 'total'"
                             end
                         | _ =>
                             raise_at IntegrityError
                               ("Invalid use of '+' on non-ChoiceSymbol in " ++ name self)
                               (AtLine (line_no self))
                         end
                     | _ =>
                         raise_at IntegrityError
                           ("Invalid use of '+' on non-ChoiceSymbol in " ++ name self)
                           (AtLine (line_no self))
                     end
                 | Some _, Some _ => each n' (S i) tab
                 | _, _ => Ok tab
                 end
             | _ => raise AttributeError "object has no attribute 'values'"
             end
         end) 
        (match Dict.get key tab with
         | Some (Symbol.Make _ _ _ (Choice wc _)) => List.length (WeightedChoice.values wc)
         | _ => 1
         end) 0 tab
  end.

(** [RepeatSampleSymbol.normalize]: the index of the last choice among
    the children and how many there are. *)
Fixpoint sample_scan (self : symbol) (tab : Dict.t symbol) (l : list string) (i : nat)
  (num_choices : nat) (idx : option nat) : result (nat * option nat) :=
  match l with
  | [] => Ok (num_choices, idx)
  | child :: l' =>
      c <- Dict.lookup child tab ;;
      if is_choice (kind_ c) then sample_scan self tab l' (S i) (S num_choices) (Some i)
      else if is_text_or_bin (kind_ c) then sample_scan self tab l' (S i) num_choices idx
      else
        raise_at IntegrityError
          ("RepeatSampleSymbol " ++ name self ++ " has invalid child type: "
           ++ class_name (kind_ c) ++ "(" ++ child ++ ")")
          (AtLine (line_no self))
  end.

(** [sym.normalize(grmr)] for every class. *)
Fixpoint normalize_symbol (fuel : nat) (self : symbol) (tab : Dict.t symbol)
  {struct fuel} : result (Dict.t symbol) :=
  match fuel with
  | O => OutOfFuel
  | S fuel' =>
      match kind_ self with
      | Concat c | Regex c =>
          match c with
          | [child_name] =>
              if Str.contains "[" child_name then
                child <- Dict.lookup child_name tab ;;
                let child := set_line_no (line_no self) (set_name (name self) child) in
                let tab := Dict.del child_name (Dict.set (name self) child tab) in
                normalize_symbol fuel' child tab
              else Ok tab
          | _ => Ok tab
          end
      | Choice _ _ => choice_normalize fuel' (name self) tab
      | RepeatSample c a b old =>
          '(num_choices, idx) <- sample_scan self tab c 0 0 old ;;
          if negb (num_choices =? 1) then
            raise_at IntegrityError
              ("RepeatSampleSymbol " ++ name self
               ++ " must have one ChoiceSymbol in its children, got " ++ str_nat num_choices)
              (AtLine (line_no self))
          else Ok (Dict.set (name self) (set_kind (RepeatSample c a b idx) self) tab)
      | _ => Ok tab
      end
  end.

(** The pass over [list(self.symtab)]. *)
Fixpoint pass (fuel : nat) (names : list string) (tab : Dict.t symbol)
  : result (Dict.t symbol) :=
  match names with
  | [] => Ok tab
  | n :: rest =>
      match Dict.get n tab with
      | None => pass fuel rest tab
      | Some sym => tab <- normalize_symbol fuel sym tab ;; pass fuel rest tab
      end
  end.

(** [Grammar.normalize]. *)
Definition normalize (imports : Dict.t string) (g : grammar) : result grammar :=
  tab <- rename imports (Dict.keys (symtab g)) (symtab g) ;;
  tracked' <- mapM (get_prefixed imports) (tracked g) ;;
  let tracked' := NameSet.union [] tracked' in
  tab <- pass (S (S (List.length tab))) (Dict.keys tab) tab ;;
  Ok (MkGrammar (limit g) tab tracked' (funcs g)).

End Normalize.

(** ** [Grammar.generate] *)

Module Generate.
Import GenState.

Section Generate.
Variable g : grammar.

(** [self.symtab[this].generate(gstate)]: the method of the class of
    the symbol; and the loop of [Grammar.generate] on a state, with its
    local list [tracking] (top first). *)
Fixpoint symbol_generate (fuel : nat) (s : symbol) (st : GenState.t) (r : rng)
  {struct fuel} : result (GenState.t * rng) :=
  match fuel with
  | O => OutOfFuel
  | S fuel' =>
      match kind_ s with
      | Abstract => AbstractSymbol.generate s st r
      | Bin v => BinSymbol.generate v st r
      | Text v => TextSymbol.generate v st r
      | TextChoice v => TextChoiceSymbol.generate v st r
      | Concat c | Regex c => ConcatSymbol.generate c st r
      | Choice wc ct => ChoiceSymbol.generate g (can_terminate s) wc ct st r
      | Repeat c min_ max_ => RepeatSymbol.generate g (can_terminate s) c min_ max_ st r
      | RepeatSample c min_ max_ idx =>
          RepeatSampleSymbol.generate g (can_terminate s) c min_ max_ idx st r
      | Func fname args =>
          FuncSymbol.generate g (generate_state fuel') fname args [] st r
      | Ref ref => RefSymbol.generate g (symbol_generate fuel') ref st r
      end
  end

with loop (fuel : nat) (st : GenState.t) (tracking : list (string * nat)) (r : rng)
  {struct fuel} : result (GenState.t * rng) :=
  match fuel with
  | O => OutOfFuel
  | S fuel' =>
      match symstack st with
      | [] => Ok (st, r)
      | IUnwind _ :: rest => loop fuel' (set_symstack rest st) tracking r
      | IUntrack n :: rest =>
          let st := set_symstack rest st in
          match tracking with
          | [] => raise IndexError "pop from empty list"
          | (tn, start) :: tracking' =>
              if negb (String.eqb n tn)
              then raise AssertionError
                     ("Tracking mismatch: expected '" ++ tn ++ "', got '" ++ n ++ "'")
              else
                instance <- join_str (skipn start (output st)) ;;
                l <- Dict.lookup n (instances st) ;;
                loop fuel'
                     (set_instances (Dict.set n (l ++ [instance]) (instances st)) st)
                     tracking' r
          end
      | ISym this :: rest =>
          let st := set_symstack rest st in
          let is_tracked := NameSet.mem this (tracked g) in
          let st :=
            if is_tracked then set_symstack (IUntrack this :: symstack st) st else st in
          let tracking :=
            if is_tracked then (this, List.length (output st)) :: tracking else tracking in
          let st := set_symstack (IUnwind this :: symstack st) st in
          s <- Dict.lookup this (symtab g) ;;
          '(st', r') <- symbol_generate fuel' s st r ;;
          loop fuel' st' tracking r'
      end
  end

with generate_state (fuel : nat) (st : GenState.t) (r : rng)
  {struct fuel} : result (value * GenState.t * rng) :=
  match fuel with
  | O => OutOfFuel
  | S fuel' =>
      '(st', r') <- loop fuel' st [] r ;;
      v <- join_output (output st') ;;
      Ok (v, st', r')
  end.

(** [Grammar.generate(start)] for a symbol name. *)
Definition generate (fuel : nat) (start : string) (r : rng)
  : result (value * GenState.t * rng) :=
  generate_state fuel
    (GenState.Make [ISym start] (map (fun s => (s, [])) (tracked g)) [] 0) r.

End Generate.

End Generate.

Module Sanity.

(** [all(grmr.symtab[c].can_terminate for c in l)]. *)
Fixpoint all_terminate (tab : Dict.t symbol) (l : list string) : result bool :=
  match l with
  | [] => Ok true
  | c :: l' =>
      s <- Dict.lookup c tab ;;
      if is_true (can_terminate s) then all_terminate tab l' else Ok false
  end.

(** [any(grmr.symtab[c].can_terminate for c in l)]. *)
Fixpoint any_terminate (tab : Dict.t symbol) (l : list string) : result bool :=
  match l with
  | [] => Ok false
  | c :: l' =>
      s <- Dict.lookup c tab ;;
      if is_true (can_terminate s) then Ok true else any_terminate tab l'
  end.

(** The loop of [ChoiceSymbol.update_can_terminate] over the
    alternatives, from position [i]. *)
Fixpoint mark_choices (tab : Dict.t symbol) (values : list (list string)) (i : nat)
  (ct : list (option bool)) : result (list (option bool)) :=
  match values with
  | [] => Ok ct
  | choice :: values' =>
      b <- all_terminate tab choice ;;
      if b then
        if i <? List.length ct
        then mark_choices tab values' (S i) (firstn i ct ++ Some true :: skipn (S i) ct)
        else raise IndexError "list assignment index out of range"
      else mark_choices tab values' (S i) ct
  end.

(** [sym.update_can_terminate(grmr)]: the symbol after the call and the
    value returned. *)
Definition update_can_terminate (tab : Dict.t symbol) (self : symbol)
  : result (symbol * bool) :=
  match kind_ self with
  | Choice wc ct =>
      ct' <- mark_choices tab (WeightedChoice.values wc) 0 ct ;;
      let self := set_kind (Choice wc ct') self in
      if existsb is_true ct' then Ok (set_can_terminate (Some true) self, true)
      else Ok (self, false)
  | _ =>
      b <- all_terminate tab (children self) ;;
      if b then Ok (set_can_terminate (Some true) self, true) else Ok (self, false)
  end.

(** One [for sym in self.symtab.values()] pass of the marking loop, over
    the keys still to visit; returns [do_over]. *)
Fixpoint mark_pass (keys : list string) (tab : Dict.t symbol) (do_over : bool)
  : result (Dict.t symbol * bool) :=
  match keys with
  | [] => Ok (tab, do_over)
  | k :: keys' =>
      sym <- Dict.lookup k tab ;;
      match can_terminate sym with
      | None =>
          '(sym', changed) <- update_can_terminate tab sym ;;
          mark_pass keys' (Dict.set k sym' tab) (changed || do_over)
      | Some _ => mark_pass keys' tab do_over
      end
  end.

(** The [while do_over] loop. *)
Fixpoint mark_loop (fuel : nat) (tab : Dict.t symbol) : result (Dict.t symbol) :=
  match fuel with
  | O => OutOfFuel
  | S fuel' =>
      '(tab', do_over) <- mark_pass (Dict.keys tab) tab false ;;
      if do_over then mark_loop fuel' tab' else Ok tab'
  end.

(** The final loop: the first symbol that cannot terminate and has no
    child that can. *)
Fixpoint check_paths (tab : Dict.t symbol) (syms : list symbol) : result unit :=
  match syms with
  | [] => Ok tt
  | sym :: syms' =>
      ok <- (if is_true (can_terminate sym) then Ok true
             else any_terminate tab (children sym)) ;;
      if negb ok then
        raise_at IntegrityError
          ("Symbol has no paths to termination (infinite recursion?): " ++ name sym)
          (AtLine (line_no sym))
      else check_paths tab syms'
  end.

(** [sym.sanity_check(grmr)] for every symbol, collecting the function
    names in use. *)
Fixpoint check_symbols (g : grammar) (syms : list symbol) (funcs_used : NameSet.t)
  : result NameSet.t :=
  match syms with
  | [] => Ok funcs_used
  | sym :: syms' =>
      match kind_ sym with
      | Abstract =>
          raise_at IntegrityError ("Symbol " ++ name sym ++ " used but not defined")
                   (AtLine (line_no sym))
      | Func fname _ =>
          if negb (Dict.mem fname (funcs g)) then
            raise_at IntegrityError ("Function " ++ fname ++ " used but not defined")
                     (AtLine (line_no sym))
          else check_symbols g syms' (NameSet.add fname funcs_used)
      | _ => check_symbols g syms' funcs_used
      end
  end.

(** The reachability loop: [to_check.pop()] takes the first name. *)
Fixpoint reach (fuel : nat) (tab : Dict.t symbol) (to_check checked syms_used : NameSet.t)
  : result NameSet.t :=
  match to_check with
  | [] => Ok syms_used
  | k :: to_check' =>
      match fuel with
      | O => OutOfFuel
      | S fuel' =>
          sym <- Dict.lookup k tab ;;
          let checked := NameSet.add (name sym) checked in
          let kids := children sym in
          reach fuel' tab (NameSet.union to_check' (NameSet.diff kids checked))
                checked (NameSet.union syms_used kids)
      end
  end.

(** [re.search(r"[.\[]", s)]. *)
Definition ignored (s : string) : bool := Str.contains "." s || Str.contains "[" s.

Definition same_set (a b : NameSet.t) : bool :=
  forallb (fun k => NameSet.mem k b) a && forallb (fun k => NameSet.mem k a) b.

(** [Grammar.sanity_check]. *)
Definition sanity_check (g : grammar) : result grammar :=
  funcs_used <- check_symbols g (Dict.values (symtab g)) ["rndflt"; "rndint"; "rndpow2"] ;;
  if negb (same_set (Dict.keys (funcs g)) funcs_used) then
    raise IntegrityError "Unused keyword argument"
  else if negb (Dict.mem "root" (symtab g)) then
    raise IntegrityError "Missing required start symbol: root"
  else
    syms_used <- reach (S (List.length (symtab g))) (symtab g) ["root"] [] ["root"] ;;
    let unused :=
      NameSet.diff (NameSet.diff (Dict.keys (symtab g)) syms_used)
                   (filter ignored (Dict.keys (symtab g))) in
    match unused with
    | _ :: _ => raise IntegrityError "Unused symbol"
    | [] =>
        tab <- mark_loop (S (List.length (symtab g))) (symtab g) ;;
        _ <- check_paths tab (Dict.values tab) ;;
        Ok (set_symtab tab g)
    end.

(** *** What the marking computes *)

(** The classes whose constructor sets [can_terminate = True]. *)
Definition initially_true (k : kind) : bool :=
  match k with
  | Text _ | TextChoice _ | Bin _ | Regex _ => true
  | _ => false
  end.

(** [symtab[c].can_terminate] is true. *)
Definition marked (tab : Dict.t symbol) (c : string) : bool :=
  match Dict.get c tab with
  | Some s => is_true (can_terminate s)
  | None => false
  end.

(** The rule of the termination analysis for one symbol, read in a table:
    a choice needs one alternative whose children are all marked, any
    other symbol that does not start out as true needs all its children
    marked. *)
Definition rule (tab : Dict.t symbol) (s : symbol) : bool :=
  match kind_ s with
  | Choice wc _ => existsb (forallb (marked tab)) (WeightedChoice.values wc)
  | k => initially_true k || forallb (marked tab) (children s)
  end.

(** The condition of the final loop for one symbol. *)
Definition has_path (tab : Dict.t symbol) (s : symbol) : bool :=
  is_true (can_terminate s) || existsb (marked tab) (children s).

(** The names a symbol refers to. *)
Definition references (s : symbol) : list string :=
  children s
  ++ match kind_ s with
     | Choice wc _ => List.concat (WeightedChoice.values wc)
     | _ => []
     end.

(** A symbol table as parsing and normalization hand it over: the keys
    are distinct, every name referred to is a key, [can_terminate] is
    [True] on the classes that set it in their constructor and [None]
    elsewhere, and [_choices_terminate] holds one [None] per
    alternative. *)
Fixpoint distinct (l : list string) : bool :=
  match l with
  | [] => true
  | k :: l' => negb (NameSet.mem k l') && distinct l'
  end.

Definition closed (tab : Dict.t symbol) : bool :=
  forallb (fun s => forallb (fun c => Dict.mem c tab) (references s)) (Dict.values tab).

Definition unmarked (s : symbol) : bool :=
  match can_terminate s with
  | None => negb (initially_true (kind_ s))
  | Some b => b && initially_true (kind_ s)
  end
  && match kind_ s with
     | Choice wc ct =>
         (List.length ct =? List.length (WeightedChoice.values wc))
         && negb (existsb is_true ct)
     | _ => true
     end.

Definition ready (tab : Dict.t symbol) : bool :=
  distinct (Dict.keys tab) && closed tab && forallb unmarked (Dict.values tab).

(** The same symbol but for its marks. *)
Definition unmark (k : kind) : kind :=
  match k with
  | Choice wc _ => Choice wc []
  | other => other
  end.

Definition same_symbol (s s' : symbol) : Prop :=
  name s = name s' /\ line_no s = line_no s' /\ unmark (kind_ s) = unmark (kind_ s').

(** A table with at least the marks of another. *)
Definition more_marked (t t' : Dict.t symbol) : Prop :=
  Dict.keys t' = Dict.keys t
  /\ forall k s, Dict.get k t = Some s ->
       exists s', Dict.get k t' = Some s' /\ same_symbol s s'
                  /\ (is_true (can_terminate s) = true -> is_true (can_terminate s') = true).

(** Every mark of the table is justified by the rule. *)
Definition sound (t : Dict.t symbol) : Prop :=
  forall k s, Dict.get k t = Some s ->
    (forall c, In c (references s) -> Dict.mem c t = true)
    /\ can_terminate s <> Some false
    /\ (initially_true (kind_ s) = true -> can_terminate s = Some true)
    /\ (is_true (can_terminate s) = true -> rule t s = true)
    /\ match kind_ s with
       | Choice wc ct =>
           List.length ct = List.length (WeightedChoice.values wc)
           /\ (can_terminate s = None -> existsb is_true ct = false)
       | _ => True
       end.

(** No symbol left unmarked could be marked by the rule. *)
Definition stable (t : Dict.t symbol) : Prop :=
  forall k s, Dict.get k t = Some s ->
    is_true (can_terminate s) = false -> rule t s = false.

(** The number of symbols not marked yet. *)
Definition pending (tab : Dict.t symbol) : nat :=
  List.length (filter (fun s => negb (is_true (can_terminate s))) (Dict.values tab)).

End Sanity.

Module Construct.

(** [Grammar.__init__] on a text, a limit and the keyword arguments. *)
Definition init (h : host) (text : string) (limit : option Z) (kwargs : Dict.t callable)
  : result grammar :=
  let funcs := kwargs in
  let funcs := if Dict.mem "rndint" funcs then funcs else Dict.set "rndint" Rndint funcs in
  let funcs := if Dict.mem "rndpow2" funcs then funcs else Dict.set "rndpow2" Rndpow2 funcs in
  let funcs := if Dict.mem "rndflt" funcs then funcs else Dict.set "rndflt" Rndflt funcs in
  if Dict.mem "import" funcs then
    raise IntegrityError "'import' is a reserved function name"
  else
    '(_, g, imports) <-
      GrammarParse.parse h (S (import_depth h)) (MkGrammar limit [] [] funcs) text None
                         [] "" ;;
    g <- Normalize.normalize imports g ;;
    Sanity.sanity_check g.

(** The pipeline: construction, then [generate()] from [root]. *)
Definition run (h : host) (fuel : nat) (text : string) (limit : option Z)
  (kwargs : Dict.t callable) (r : rng) : result value :=
  g <- init h text limit kwargs ;;
  '(v, _, _) <- Generate.generate g fuel "root" r ;;
  Ok v.

End Construct.


(** ** Example grammars *)

(** A host for the examples: a set of characters is iterated in the order
    of first insertion, every text has the given digest, and there is no
    file to open. *)
Definition example_host (digest : string) : host :=
  Host (fun l => nodup ascii_dec l)
       (fun a b => nodup ascii_dec (filter (fun c => negb (existsb (Ascii.eqb c) b)) a))
       (fun _ => digest)
       (fun _ => None)
       (fun _ path => path)
       0.

(** Random sources: every draw is 0; the n-th draw is n. *)
Definition zero_tape : rng := Rng (fun _ => 0%N) 0.
Definition counting_tape : rng := Rng N.of_nat 0.

Definition newline : string := Str.of_char Str.nl.

(** Each text with the first six digits of its SHA-512 digest. *)
Definition recursive_text : string := ("root A" ++ newline ++ "A A")%string.
Definition recursive_host : host := example_host "e4cbff".

Definition star_bound_text : string := ("root " ++ quoted "x" ++ "{*}")%string.
Definition star_bound_host : host := example_host "f300b7".

Definition mixed_text : string := "root x'41' 'a'".
Definition mixed_host : host := example_host "250d23".

Definition regex_star_text : string := "root /a*/".
Definition regex_star_host : host := example_host "649801".
Definition regex_plus_text : string := "root /a+/".
Definition regex_plus_host : host := example_host "01c43c".
Definition regex_braces_text : string := "root /a{0,5}/".
Definition regex_braces_host : host := example_host "98d42e".

Definition leading_dash_text : string := "root /[-a]/".
Definition leading_dash_host : host := example_host "648f71".
Definition trailing_dash_text : string := "root /[a-]/".
Definition trailing_dash_host : host := example_host "4dad07".

(** A host that iterates a set of characters from the last inserted to
    the first, as another hash seed can make the interpreter do, and a
    regular expression with a character set. *)
Definition backward (h : host) : host :=
  Host (fun l => List.rev (set_iter h l))
       (fun a b => List.rev (set_diff_iter h a b))
       (sha512_6 h) (open_ h) (sibling h) (import_depth h).

Definition one_of_ab_text : string := "root /[ab]/".
Definition one_of_ab_host : host := example_host "b64b89".

Definition two_refs_text : string := ("root @A @A" ++ newline ++ "A /[ab]/")%string.
Definition two_refs_host : host := example_host "eec85b".

(** The symbol table of [root 1 A], [+ 1 "x"] (a choice between [A] and a
    text) with [A A "x"], as normalization leaves it. *)
Definition marking_table : Dict.t symbol :=
  [ ("root", Symbol.Make "root" 1 None
               (Choice (WeightedChoice.Make 2 [["A"]; ["[text (line 2 #0)]"]]
                          [WeightedChoice.WNum 1; WeightedChoice.WNum 1])
                       [None; None]));
    ("A", Symbol.Make "A" 3 None (Concat ["A"; "[text (line 3 #0)]"]));
    ("[text (line 2 #0)]", Symbol.Make "[text (line 2 #0)]" 2 (Some true) (Text "x"));
    ("[text (line 3 #0)]", Symbol.Make "[text (line 3 #0)]" 3 (Some true) (Text "x")) ].

(** A grammar whose limit every length exceeds, a repeat that can
    terminate, and a random source whose draws are all 3. *)
Definition no_room : grammar := MkGrammar (Some 0%Z) [] [] [].
Definition twice_to_five : symbol :=
  Symbol.Make "r" 1 (Some true) (Repeat ["x"] (BInt 2) (BInt 5)).
Definition threes : rng := Rng (fun _ => 3%N) 0.

(** A reference to a text, with no instance of the text captured yet. *)
Definition ref_symbol : symbol := Symbol.Make "@A" 1 (Some true) (Ref "A").
Definition ref_target : symbol := Symbol.Make "A" 2 (Some true) (Text "x").
Definition ref_grammar : grammar :=
  MkGrammar None [("@A", ref_symbol); ("A", ref_target)] ["A"] [].
Definition no_instances : GenState.t := GenState.Make [] [("A", [])] [] 0.

(** A buffer that holds bytes, and a text to expand next. *)
Definition text_grammar : grammar :=
  MkGrammar None [("t", Symbol.Make "t" 1 (Some true) (Text "a"))] [] [].
Definition after_bytes : GenState.t :=
  GenState.Make [ISym "t"] [] [VBytes [Byte.x41]] 1.

(** One alternative of weight 1. *)
Definition single_choice : WeightedChoice.t string :=
  WeightedChoice.Make 1 ["a"] [WeightedChoice.WNum 1].

(** ** Auxiliary predicates and further examples *)

(** Two alternatives, of weights 2 and 1, and a random source whose
    draws are all one half of 2^53. *)
Definition two_to_one : WeightedChoice.t string :=
  WeightedChoice.Make 3 ["a"; "b"] [WeightedChoice.WNum 2; WeightedChoice.WNum 1].
Definition halves : rng := Rng (fun _ => (2 ^ 52)%N) 0.

(** Two alternatives of weight 1 and one of weight 2^53, whose total
    rounds to 2^53 once an alternative of weight 1 is gone; and a random
    source whose first draw is 0 and whose other draws are one half of
    2^53. *)
Definition two_small_one_large : WeightedChoice.t string :=
  WeightedChoice.extend WeightedChoice.empty
    [("a", WeightedChoice.WNum 1); ("b", WeightedChoice.WNum 1);
     ("c", WeightedChoice.WNum 0x1p53)].
Definition zero_then_halves : rng :=
  Rng (fun n => match n with O => 0%N | S _ => (2 ^ 52)%N end) 0.

(** Four alternatives of weight 1 and one of weight 2^53 + 2, and a
    random source whose draws are all the largest there is. *)
Definition four_small_one_large : WeightedChoice.t string :=
  WeightedChoice.extend WeightedChoice.empty
    [("a", WeightedChoice.WNum 1); ("b", WeightedChoice.WNum 1);
     ("c", WeightedChoice.WNum 1); ("d", WeightedChoice.WNum 1);
     ("e", WeightedChoice.WNum 9007199254740994)].
Definition largest_draws : rng := Rng (fun _ => (2 ^ 53 - 1)%N) 0.

(** [sum(len(v) for v in output)]. *)
Definition total_len (l : list value) : nat :=
  fold_right (fun v n => len v + n) 0 l.

(** A state whose counter [length] is the length of what its buffer
    holds. *)
Definition counted (st : GenState.t) : Prop :=
  GenState.length st = total_len (GenState.output st).

(** What generation may do to the buffer and to the counter: append
    values and count them. *)
Definition extends (st st' : GenState.t) : Prop :=
  exists vs,
    GenState.output st' = GenState.output st ++ vs
    /\ GenState.length st' = GenState.length st + total_len vs.

(** Two instances of [A] captured so far. *)
Definition two_instances : GenState.t := GenState.Make [] [("A", ["x"; "y"])] [] 0.

(** A choice between an alternative that does not terminate and one that
    does. *)
Definition loop_or_stop : WeightedChoice.t (list string) :=
  WeightedChoice.Make 2 [["again"]; ["stop"]]
    [WeightedChoice.WNum 1; WeightedChoice.WNum 1].

(** The parse state at the start of a grammar of the given hash, and the
    same after one symbol was registered. *)
Definition fresh_state (grammar_hash : string) : ParseState.t :=
  ParseState.init grammar_hash (MkGrammar None [] [] []) None.

Definition registered_once (sname : string) (k : kind) : ParseState.t :=
  match Symbol_.init sname false (Some true) k (fresh_state "h") with
  | Ok ps => ps
  | _ => fresh_state "h"
  end.

(** A character that a quoted literal closed by [q] takes as it is:
    neither [q] nor a backslash. *)
Definition literal_char (q c : ascii) : bool :=
  negb (Ascii.eqb c q) && negb (Ascii.eqb c "\").

(** [all(p(c) for c in s)]. *)
Definition all_chars (p : ascii -> bool) (s : string) : bool :=
  forallb p (Str.chars s).

(** A character that stands for itself inside a character set: not a
    closing bracket, a dash, a backslash or a newline. *)
Definition set_char (c : ascii) : bool :=
  negb (Str.elem c "]-\") && negb (Ascii.eqb c Str.nl).

(** A unique repeat over a text and a choice, before normalization. *)
Definition unique_repeat : symbol :=
  Symbol.Make "r" 1 None (RepeatSample ["t"; "c"] (BInt 1) (BInt 2) None).
Definition unique_table : Dict.t symbol :=
  [ ("r", unique_repeat);
    ("t", Symbol.Make "t" 1 (Some true) (Text "a"));
    ("c", Symbol.Make "c" 2 None (Choice loop_or_stop [None; None])) ].

(** The table holds the name, with a symbol of a class among [p]. *)
Definition is_kind (tab : Dict.t symbol) (p : kind -> bool) (child : string) : Prop :=
  exists c, Dict.get child tab = Some c /\ p (kind_ c) = true.

(** A name reached from [start] by following [children()]. *)
Inductive reachable (tab : Dict.t symbol) (start : string) : string -> Prop :=
| reach_start : reachable tab start start
| reach_child (k : string) (s : symbol) (c : string) :
    reachable tab start k -> Dict.get k tab = Some s -> In c (children s) ->
    reachable tab start c.

(** The grammar [root num "!"], [num rndint(1,9)], as normalization
    leaves it. *)
Definition checked_example : grammar :=
  MkGrammar (Some DEFAULT_LIMIT)
    [ ("root", Symbol.Make "root" 1 None (Concat ["num"; "[text (line 1 #0)]"]));
      ("num", Symbol.Make "num" 2 None (Func "rndint" [ANum (NInt 1); ANum (NInt 9)]));
      ("[text (line 1 #0)]", Symbol.Make "[text (line 1 #0)]" 1 (Some true) (Text "!")) ]
    []
    [("rndint", Rndint); ("rndpow2", Rndpow2); ("rndflt", Rndflt)].

(** The table of [g] holds [n] as a text symbol of value [v] that no
    reference tracks. *)
Definition text_symbol (g : grammar) (n v : string) : Prop :=
  exists s, Dict.get n (symtab g) = Some s /\ kind_ s = Text v
            /\ NameSet.mem n (tracked g) = false.

(** A buffer that takes a [str]: it is empty or starts with one. *)
Definition takes_str (l : list value) : Prop :=
  match l with
  | [] | VStr _ :: _ => True
  | VBytes _ :: _ => False
  end.

(** A concatenation of two texts. *)
Definition ab_grammar : grammar :=
  MkGrammar None
    [ ("root", Symbol.Make "root" 1 None (Concat ["x"; "y"]));
      ("x", Symbol.Make "x" 1 (Some true) (Text "a"));
      ("y", Symbol.Make "y" 1 (Some true) (Text "b")) ]
    [] [].

(** A choice between a text, of weight 1, and the alternatives of
    another choice, of weight [+], before normalization. *)
Definition plus_choice : WeightedChoice.t (list string) :=
  WeightedChoice.Make 1 [["t"]; ["c"]] [WeightedChoice.WNum 1; WeightedChoice.WPlus].
Definition plus_root : symbol := Symbol.Make "root" 1 None (Choice plus_choice [None; None]).
Definition plus_table : Dict.t symbol :=
  [ ("root", plus_root);
    ("t", Symbol.Make "t" 1 (Some true) (Text "a"));
    ("c", Symbol.Make "c" 2 None (Choice loop_or_stop [None; None])) ].

(** A text with no opening bracket: no regular expression in it has a
    character set. *)
Definition no_set (s : string) : bool := negb (Str.elem "[" s).

(** Two hosts with the same digests and the same files, and two hosts
    that iterate their sets in the same order. *)
Definition same_files (h1 h2 : host) : Prop :=
  (forall text, sha512_6 h1 text = sha512_6 h2 text)
  /\ (forall path, open_ h1 path = open_ h2 path)
  /\ (forall file path, sibling h1 file path = sibling h2 file path)
  /\ import_depth h1 = import_depth h2.

Definition same_sets (h1 h2 : host) : Prop :=
  (forall l, set_iter h1 l = set_iter h2 l)
  /\ (forall a b, set_diff_iter h1 a b = set_diff_iter h2 a b).

(** A run that came to its end within the embedding: a value or an
    exception of the program. *)
Definition ended {A} (m : result A) : Prop :=
  match m with Ok _ | Raise _ => True | OutOfFuel | Unmodelled _ => False end.

(** ** Classes of binary64 values

    What the walks of [_WeightedChoice] distinguish in a number: a zero, a
    zero or not a number, a negative number, a positive one. *)

Module Binary64.

Definition is_zero (x : spec_float) : bool :=
  match x with S754_zero _ => true | _ => false end.

Definition zero_or_nan (x : spec_float) : bool :=
  match x with S754_zero _ | S754_nan => true | _ => false end.

Definition negative (x : spec_float) : bool :=
  match x with S754_infinity s | S754_finite s _ _ => s | _ => false end.

Definition positive (x : spec_float) : bool :=
  match x with S754_infinity s | S754_finite s _ _ => negb s | _ => false end.

End Binary64.

(** ** The characters of a text *)

Module Chars.

(** The characters of [s] are among those of [t]. *)
Definition sub (s t : string) : Prop :=
  forall c, Str.elem c s = true -> Str.elem c t = true.

(** The captures of a match are made of characters of [t]. *)
Definition caps_sub (caps : Re.captures) (t : string) : Prop :=
  Forall (fun nv => sub (snd nv) t) caps.

(** The names of the groups of a pattern. *)
Fixpoint names (r : Re.regex) : list string :=
  match r with
  | Re.Group n a => n :: names a
  | Re.Seq a b | Re.Alt a b => names a ++ names b
  | Re.Star a => names a
  | _ => []
  end.

End Chars.

(** Two computations with the same result, which satisfies [P] when it
    is a value. *)
Definition agree {A} (P : A -> Prop) (m1 m2 : result A) : Prop :=
  m1 = m2 /\ forall a, m1 = Ok a -> P a.

(** What a parser leaves of a definition is made of its characters. *)
Definition rem3 {A B} (defn : string) (a : A * string * B) : Prop :=
  Chars.sub (snd (fst a)) defn.
Definition rem2 {B} (defn : string) (a : string * B) : Prop := Chars.sub (fst a) defn.

(** A text two hosts read alike: they iterate their sets in the same
    order, or the text has no set. *)
Definition read_alike (h1 h2 : host) (s : string) : Prop :=
  same_sets h1 h2 \/ no_set s = true.

(** * Properties *)

(** ** Results *)

Lemma raises_raise_at {A} c m p : raises (@raise_at A c m p) c.
Proof. eexists; split; reflexivity. Qed.

Lemma bind_Ok {A B} (m : result A) (f : A -> result B) b :
  bind m f = Ok b -> exists a, m = Ok a /\ f a = Ok b.
Proof. destruct m; simpl; try discriminate. eauto. Qed.

(** ** Binary64 arithmetic: signs and zeros

    What the walks of [_WeightedChoice] need of the arithmetic is read off
    the specification of the operations: which results are zeros, and
    which are negative. *)

Module FloatFacts.
Import Binary64.

Lemma eqb_zero x : (x =? 0)%float = is_zero (Prim2SF x).
Proof.
rewrite FloatAxioms.eqb_spec. change (Prim2SF 0) with (S754_zero false).
destruct (Prim2SF x) as [s|s| |s m e]; try reflexivity; destruct s; reflexivity.
Qed.

Lemma ltb_zero x : (x <? 0)%float = negative (Prim2SF x).
Proof.
rewrite FloatAxioms.ltb_spec. change (Prim2SF 0) with (S754_zero false).
destruct (Prim2SF x) as [s|s| |s m e]; try reflexivity; destruct s; reflexivity.
Qed.

Lemma zero_ltb x : (0 <? x)%float = positive (Prim2SF x).
Proof.
rewrite FloatAxioms.ltb_spec. change (Prim2SF 0) with (S754_zero false).
destruct (Prim2SF x) as [s|s| |s m e]; try reflexivity; destruct s; reflexivity.
Qed.

(** Rounding keeps the sign it is given. *)
Lemma round_aux_sign sx m e l :
negative (binary_round_aux prec emax sx m e l) = true -> sx = true.
Proof.
unfold binary_round_aux.
destruct (shr_fexp prec emax m e l) as [mrs' e'].
destruct (shr_fexp prec emax _ e' loc_Exact) as [mrs'' e''].
destruct (shr_m mrs''); [discriminate| |discriminate].
destruct (e'' <=? emax - prec)%Z; simpl; auto.
Qed.

Lemma round_sign sx m e :
negative (binary_round prec emax sx m e) = true -> sx = true.
Proof.
unfold binary_round. destruct (shl_align m e _) as [mz ez]. apply round_aux_sign.
Qed.

Lemma normalize_sign z e :
negative (binary_normalize prec emax z e false) = true -> (z < 0)%Z.
Proof.
destruct z as [|p|p]; simpl; intros H; [discriminate| |lia].
apply round_sign in H. discriminate.
Qed.

Lemma zero_or_nan_not_negative x : zero_or_nan x = true -> negative x = false.
Proof. destruct x; simpl; congruence. Qed.

Lemma is_zero_zero_or_nan x : is_zero x = true -> zero_or_nan x = true.
Proof. destruct x; simpl; congruence. Qed.

Lemma SFadd_zero x y :
is_zero x = true -> is_zero y = true -> is_zero (SFadd prec emax x y) = true.
Proof.
destruct x as [[]| | |]; try discriminate; destruct y as [[]| | |]; try discriminate;
  reflexivity.
Qed.

Lemma SFadd_zero_l x y :
is_zero x = true -> zero_or_nan y = true -> zero_or_nan (SFadd prec emax x y) = true.
Proof.
destruct x as [[]| | |]; try discriminate; destruct y as [[]| | |]; try discriminate;
  reflexivity.
Qed.

Lemma SFsub_zero x y :
zero_or_nan x = true -> is_zero y = true -> zero_or_nan (SFsub prec emax x y) = true.
Proof.
destruct x as [[]| | |]; try discriminate; destruct y as [[]| | |]; try discriminate;
  reflexivity.
Qed.

Lemma SFmul_zero x y :
is_zero x = true -> zero_or_nan (SFmul prec emax x y) = true.
Proof.
destruct x as [[]| | |]; try discriminate; destruct y as [[]|[]| |[]]; reflexivity.
Qed.

(** A difference is negative only when something positive was taken
    away from what was not negative. *)
Lemma SFsub_negative x y :
negative x = false -> negative (SFsub prec emax x y) = true -> positive y = true.
Proof.
destruct x as [[]|[]| |[] mx ex]; destruct y as [[]|[]| |[] my ey]; simpl;
  intros Hx H; try discriminate; try reflexivity.
apply round_sign in H. discriminate.
Qed.

Lemma SFadd_not_negative x y :
negative x = false -> negative y = false -> negative (SFadd prec emax x y) = false.
Proof.
destruct x as [[]|[]| |[] mx ex]; destruct y as [[]|[]| |[] my ey]; simpl;
  intros Hx Hy; try discriminate; try reflexivity.
destruct (negative _) eqn:E; [|reflexivity].
apply round_sign in E. discriminate.
Qed.

Lemma SFmul_not_negative x y :
negative x = false -> negative y = false -> negative (SFmul prec emax x y) = false.
Proof.
destruct x as [[]|[]| |[] mx ex]; destruct y as [[]|[]| |[] my ey]; simpl;
  intros Hx Hy; try discriminate; try reflexivity.
destruct (negative _) eqn:E; [|reflexivity].
apply round_aux_sign in E. discriminate.
Qed.

Lemma SFsub_zero_r x : negative (SFsub prec emax x (S754_zero false)) = negative x.
Proof. destruct x as [[]|[]| |[]]; reflexivity. Qed.

(** The draws of [random.random] are not negative. *)
Lemma random_not_negative r : negative (Prim2SF (fst (random r))) = false.
Proof.
unfold random, draw. cbn [fst]. rewrite mul_spec. apply SFmul_not_negative.
- rewrite of_uint63_spec.
  destruct (negative _) eqn:E; [|reflexivity].
  apply normalize_sign in E.
  pose proof (Uint63.to_Z_bounded (Uint63.of_Z (Z.of_N (tape r (cursor r) mod 2 ^ 53)))).
  lia.
- reflexivity.
Qed.

Section Uniform.
Variables (tot : float) (r : rng).

(** [uniform(0, total)] is not negative when the total is not. *)
Lemma uniform_not_negative :
(tot <? 0)%float = false -> (fst (uniform 0 tot r) <? 0)%float = false.
Proof.
rewrite !ltb_zero. intros Ht. unfold uniform.
pose proof (random_not_negative r) as Hu.
destruct (random r) as [u r']. cbn [fst] in *.
rewrite add_spec. apply SFadd_not_negative; [reflexivity|].
rewrite mul_spec. apply SFmul_not_negative; [|exact Hu].
rewrite sub_spec. change (Prim2SF 0) with (S754_zero false).
rewrite SFsub_zero_r. exact Ht.
Qed.

(** On a total of zero it is a zero, or not a number. *)
Lemma uniform_zero :
(tot =? 0)%float = true -> zero_or_nan (Prim2SF (fst (uniform 0 tot r))) = true.
Proof.
rewrite eqb_zero. intros Ht. unfold uniform.
destruct (random r) as [u r']. cbn [fst].
rewrite add_spec. apply SFadd_zero_l; [reflexivity|].
rewrite mul_spec. apply SFmul_zero.
rewrite sub_spec. change (Prim2SF 0) with (S754_zero false).
destruct (Prim2SF tot) as [[]| | |]; try discriminate; reflexivity.
Qed.

End Uniform.

Lemma sub_negative t q :
(t <? 0)%float = false -> (t - q <? 0)%float = true -> (0 <? q)%float = true.
Proof.
rewrite !ltb_zero, zero_ltb, sub_spec. apply SFsub_negative.
Qed.

Lemma sub_zero t q :
zero_or_nan (Prim2SF t) = true -> (q =? 0)%float = true ->
zero_or_nan (Prim2SF (t - q)) = true /\ (t - q <? 0)%float = false.
Proof.
rewrite eqb_zero, ltb_zero, sub_spec. intros Ht Hq.
pose proof (SFsub_zero _ _ Ht Hq) as H. split; [exact H|].
apply zero_or_nan_not_negative. exact H.
Qed.

Lemma add_not_negative t q :
(t <? 0)%float = false -> (q <? 0)%float = false -> (t + q <? 0)%float = false.
Proof. rewrite !ltb_zero, add_spec. apply SFadd_not_negative. Qed.

Lemma add_zero t q :
(t =? 0)%float = true -> (q =? 0)%float = true -> (t + q =? 0)%float = true.
Proof. rewrite !eqb_zero, add_spec. apply SFadd_zero. Qed.

End FloatFacts.

(** ** Weighted choice *)

Module WeightedChoiceFacts.
Import WeightedChoice Binary64 FloatFacts.

Lemma added_zero ws : forall tot,
  count_nonzero ws = 0%nat -> (tot =? 0)%float = true -> (added tot ws =? 0)%float = true.
Proof.
  unfold count_nonzero, added.
  induction ws as [|w ws IH]; intros tot Hz Ht; simpl in *; [exact Ht|].
  destruct w as [q|]; simpl in Hz; [|discriminate].
  destruct (q =? 0)%float eqn:Eq; simpl in Hz; [|discriminate].
  apply IH; [exact Hz|]. apply add_zero; assumption.
Qed.

Lemma added_not_negative ws : forall tot,
  forallb not_negative ws = true -> (tot <? 0)%float = false ->
  (added tot ws <? 0)%float = false.
Proof.
  unfold added.
  induction ws as [|w ws IH]; intros tot Hws Ht; simpl in *; [exact Ht|].
  apply andb_true_iff in Hws. destruct Hws as [Hw Hws].
  apply IH; [exact Hws|].
  destruct w as [q|]; [|exact Ht].
  simpl in Hw. apply negb_true_iff in Hw. apply add_not_negative; assumption.
Qed.

Section Walks.
Context {V : Type}.

Lemma extend_spec (l : list (V * weight)) : forall wc : t V,
  values (extend wc l) = values wc ++ map fst l
  /\ weights (extend wc l) = weights wc ++ map snd l
  /\ total (extend wc l) = added (total wc) (map snd l).
Proof.
  unfold extend, added.
  induction l as [|[v w] l IH]; intros wc; simpl.
  - rewrite !app_nil_r. repeat split; reflexivity.
  - destruct (IH (append wc v w)) as (Hv & Hw & Ht).
    rewrite Hv, Hw, Ht. simpl. rewrite <- !app_assoc. simpl.
    repeat split; try reflexivity.
Qed.

(** With no weight but zeros, the walk of [choice] falls through: the
    target stays a zero, or not a number, and neither is negative. *)
Lemma walk_all_zero (ws : list weight) : forall (vs : list V) target,
  count_nonzero ws = 0%nat -> zero_or_nan (Prim2SF target) = true ->
  walk target ws vs = Ok None.
Proof.
  unfold count_nonzero.
  induction ws as [|w ws IH]; intros vs target Hz Ht; simpl.
  - reflexivity.
  - destruct vs as [|v vs]; [reflexivity|].
    simpl in Hz. destruct w as [q|]; simpl in Hz; [|discriminate].
    destruct (q =? 0)%float eqn:Eq; simpl in Hz; [|discriminate].
    destruct (@sub_zero target q Ht Eq) as [Hzn Hlt].
    rewrite Hlt. apply IH; assumption.
Qed.

(** The walk stops at a weight that is positive, when the target it
    starts from is not negative. *)
Lemma walk_positive (ws : list weight) : forall (vs : list V) target v,
  (target <? 0)%float = false -> walk target ws vs = Ok (Some v) ->
  exists i q,
    nth_error vs i = Some v /\ nth_error ws i = Some (WNum q) /\ (0 <? q)%float = true.
Proof.
  induction ws as [|w ws IH]; intros vs target v Ht H; simpl in H; [discriminate|].
  destruct vs as [|v0 vs]; [discriminate|].
  destruct w as [q|]; [|discriminate].
  destruct (target - q <? 0)%float eqn:E.
  - injection H as <-. exists 0%nat, q. repeat split.
    apply (@sub_negative target q Ht E).
  - destruct (IH vs _ v E H) as (i & q' & Hv & Hw & Hq).
    exists (S i), q'. repeat split; assumption.
Qed.

(** What [pick] takes out is one of the values, at the place of one of
    the weights, and what it leaves is the rest of them. *)
Lemma pick_spec (ws : list weight) : forall (vs : list V) target v q ws' vs',
  pick target ws vs = Ok (Some (v, q, ws', vs')) ->
  Permutation (v :: vs') vs /\ In (WNum q) ws /\ incl ws' ws.
Proof.
  induction ws as [|w ws IH]; intros vs target v q ws' vs' H; simpl in H.
  - discriminate.
  - destruct vs as [|v0 vs]; [discriminate|].
    destruct w as [q0|]; [|discriminate].
    destruct (target - q0 <? 0)%float.
    + injection H as <- <- <- <-. split; [apply Permutation_refl|].
      split; [left; reflexivity|apply incl_tl, incl_refl].
    + destruct (pick (target - q0) ws vs) as [[[[[v1 q1] ws1] vs1]|]| | |] eqn:E;
        simpl in H; try discriminate.
      injection H as <- <- <- <-.
      destruct (IH _ _ _ _ _ _ E) as (Hp & Hin & Hincl).
      split; [|split].
      * apply Permutation_trans with (v0 :: v1 :: vs1); [apply perm_swap|].
        apply perm_skip. exact Hp.
      * right. exact Hin.
      * intros x [<-|Hx]; [left; reflexivity|right; apply Hincl; exact Hx].
Qed.

Lemma sample_loop_permutation fuel : forall (ws : list weight) (vs : list V) tot k acc r l r',
  sample_loop fuel ws vs tot k acc r = Ok (l, r') ->
  exists picked rest, l = acc ++ picked /\ Permutation (picked ++ rest) vs.
Proof.
  induction fuel as [|fuel IH]; intros ws vs tot k acc r l r' H; cbn [sample_loop] in H.
  - destruct (truthy k && negb (tot =? 0)%float)%bool; [discriminate|].
    injection H as <- _. exists [], vs. rewrite app_nil_r. split; [reflexivity|apply Permutation_refl].
  - destruct (truthy k && negb (tot =? 0)%float)%bool.
    + destruct (uniform 0 tot r) as [target r1].
      destruct (pick target ws vs) as [[[[[v q] ws1] vs1]|]| | |] eqn:E;
        cbn [bind] in H; try discriminate.
      destruct (decr k) as [k'| | |]; cbn [bind] in H; try discriminate.
      apply IH in H. destruct H as (picked & rest & -> & Hp).
      exists (v :: picked), rest. split; [rewrite <- app_assoc; reflexivity|].
      apply pick_spec in E. destruct E as (E & _).
      apply Permutation_trans with (v :: vs1); [|exact E].
      simpl. apply perm_skip.
      exact Hp.
    + injection H as <- _. exists [], vs. rewrite app_nil_r.
      split; [reflexivity|apply Permutation_refl].
Qed.

(** The loop of [sample] stops at [k] picks, or earlier when the running
    total has become a zero. *)
Lemma sample_loop_stops fuel : forall (ws : list weight) (vs : list V) tot k acc r l r',
  sample_loop fuel ws vs tot (BInt k) acc r = Ok (l, r') -> (0 <= k)%Z ->
  exists qs,
    List.length l = (List.length acc + List.length qs)%nat
    /\ (Z.of_nat (List.length qs) <= k)%Z
    /\ incl (map WNum qs) ws
    /\ ((Z.of_nat (List.length qs) < k)%Z -> (left_of tot qs =? 0)%float = true).
Proof.
  induction fuel as [|fuel IH]; intros ws vs tot k acc r l r' H Hk;
    cbn [sample_loop truthy] in H.
  - destruct (negb (k =? 0)%Z && negb (tot =? 0)%float)%bool eqn:G; [discriminate|].
    injection H as <- _. exists []. simpl. rewrite Nat.add_0_r.
    repeat split; [lia|apply incl_nil_l|].
    intros Hlt. apply andb_false_iff in G. destruct G as [G|G].
    + apply negb_false_iff, Z.eqb_eq in G. lia.
    + apply negb_false_iff in G. exact G.
  - destruct (negb (k =? 0)%Z && negb (tot =? 0)%float)%bool eqn:G.
    + apply andb_true_iff in G. destruct G as [G _].
      apply negb_true_iff, Z.eqb_neq in G.
      destruct (uniform 0 tot r) as [target r1].
      destruct (pick target ws vs) as [[[[[v q] ws1] vs1]|]| | |] eqn:E;
        cbn [bind decr] in H; try discriminate.
      apply IH in H; [|lia]. destruct H as (qs & Hl & Hle & Hin & Hz).
      apply pick_spec in E. destruct E as (_ & Hq & Hincl).
      exists (q :: qs). rewrite Hl, length_app. simpl. repeat split; try lia.
      * intros x [<-|Hx]; [exact Hq|apply Hincl, Hin, Hx].
      * intros Hlt. apply Hz. lia.
    + injection H as <- _. exists []. simpl. rewrite Nat.add_0_r.
      repeat split; [lia|apply incl_nil_l|].
      intros Hlt. apply andb_false_iff in G. destruct G as [G|G].
      * apply negb_false_iff, Z.eqb_eq in G. lia.
      * apply negb_false_iff in G. exact G.
Qed.
End Walks.

End WeightedChoiceFacts.

Import WeightedChoice WeightedChoiceFacts.


(** Rounding can end the loop of [sample] while alternatives of non-zero
    weight are left: with weights 1, 1 and 2^53 the total is 2^53 + 2;
    taking out a 1 leaves 2^53, the nearest binary64 to 2^53 + 1, and
    taking out 2^53 then leaves 0.0. *)
Lemma sample_can_stop_before_the_weights_run_out :
count_nonzero (weights two_small_one_large) = 3%nat
/\ fmap fst (sample two_small_one_large (BInt 3) zero_then_halves) = Ok ["a"; "c"].
Proof. split; vm_compute; reflexivity. Qed.



(** ** The built-in callable [rndint] *)

Lemma randint_Z_range a b r :
(a <= b)%Z ->
exists n r', randint_Z a b r = Ok (n, r') /\ (a <= n <= b)%Z.
Proof.
intros Hab. unfold randint_Z.
destruct (b <? a)%Z eqn:E; [apply Z.ltb_lt in E; lia|].
unfold draw. eexists _, _. split; [reflexivity|].
pose proof (Z.mod_pos_bound (Z.of_N (tape r (cursor r))) (b - a + 1)) as H.
lia.
Qed.

Lemma randint_Z_empty a b r : (b < a)%Z -> raises (randint_Z a b r) ValueError.
Proof.
intros Hab. unfold randint_Z.
apply Z.ltb_lt in Hab. rewrite Hab. eexists; split; reflexivity.
Qed.

(** Every integer of the interval is drawn from some state of the random
    source. *)
Lemma randint_Z_covers a b n :
(a <= n <= b)%Z ->
exists r r', randint_Z a b r = Ok (n, r').
Proof.
intros Hn. exists (Rng (fun _ => Z.to_N (n - a)) 0). unfold randint_Z.
destruct (b <? a)%Z eqn:E; [apply Z.ltb_lt in E; lia|].
unfold draw. cbn [tape cursor]. eexists. do 2 f_equal.
rewrite Z2N.id by lia. rewrite Z.mod_small by lia. lia.
Qed.

(** [int(x)] on a float rounds toward zero. *)
Lemma int_of_float_truncates q :
int_of_number (NFloat q) = if Qle_bool 0 q then Qfloor q else Qceiling q.
Proof.
destruct q as [n d]. unfold int_of_number, Qle_bool, Qceiling, Qfloor, Qopp.
cbn [Qnum Qden]. rewrite Z.mul_1_r.
destruct (0 * Z.pos d <=? n)%Z eqn:E.
- apply Z.leb_le in E. apply Z.quot_div_nonneg; lia.
- apply Z.leb_gt in E.
  rewrite <- (Z.opp_involutive n) at 1. rewrite Z.quot_opp_l by lia.
  rewrite Z.quot_div_nonneg by lia. reflexivity.
Qed.

(** C5, as stated, fails: on the float -1.5 for both arguments, which the
    grammar spells [rndint(-15e-1, -15e-1)], the interval of the claim is
    [-2, -2], and [rndint] returns "-1" whatever the random source does. *)
Lemma rndint_rounds_toward_zero :
Qfloor (-3 # 2) = (-2)%Z
/\ Str.parse_float "-15e-1" = Str.FValue (-15 # 10)
/\ forall r, fmap fst (rndint (AVNum (NFloat (-15 # 10))) (AVNum (NFloat (-15 # 10))) r)
             = Ok (VStr "-1").
Proof.
split; [reflexivity|]. split; [vm_compute; reflexivity|].
intros r. unfold rndint, py_int, int_of_number, randint_Z, draw, fmap. cbn.
rewrite Z.mod_1_r. reflexivity.
Qed.

(** C5, amended: [rndint(a, b)] returns the decimal representation of an
    integer of the closed interval [int(a), int(b)], where [int] rounds a
    float toward zero (the floor only for an argument that is not
    negative); every integer of the interval is returned for some state of
    the random source; an empty interval is a [ValueError]. *)
Theorem rndint_draws_between_truncations :
forall (a b : argval) (lo hi : Z) (r : rng),
  py_int a = Ok lo -> py_int b = Ok hi ->
  ((lo <= hi)%Z ->
   exists n r', rndint a b r = Ok (VStr (str_int n), r') /\ (lo <= n <= hi)%Z)
  /\ (forall n, (lo <= n <= hi)%Z ->
      exists r0 r', rndint a b r0 = Ok (VStr (str_int n), r'))
  /\ ((hi < lo)%Z -> raises (rndint a b r) ValueError)
  /\ (forall q, py_int (AVNum (NFloat q))
                = Ok (if Qle_bool 0 q then Qfloor q else Qceiling q)).
Proof.
intros a b lo hi r Ha Hb. unfold rndint. rewrite Ha, Hb. cbn [bind].
repeat split.
- intros Hle. destruct (randint_Z_range r Hle) as (n & r' & E & Hn).
  rewrite E. cbn. eauto.
- intros n Hn. destruct (randint_Z_covers Hn) as (r0 & r' & E).
  exists r0, r'. rewrite E. reflexivity.
- intros Hlt. destruct (randint_Z_empty r Hlt) as (e & E & He).
  rewrite E. exists e. split; [reflexivity|assumption].
- intros q. cbn [py_int]. rewrite int_of_float_truncates. reflexivity.
Qed.

Lemma rndint_draws_between_truncations_witness :
exists n r',
  rndint (AVNum (NFloat (-15 # 10))) (AVNum (NInt 3)) zero_tape = Ok (VStr (str_int n), r')
  /\ (-1 <= n <= 3)%Z.
Proof.
apply (rndint_draws_between_truncations
         (AVNum (NFloat (-15 # 10))) (AVNum (NInt 3)) zero_tape
         (lo := (-1)%Z) (hi := 3%Z)); [reflexivity|reflexivity|lia].
Defined.

(** ** Repetitions *)

Lemma randint_range a b r :
(a <= b)%Z ->
exists n r', randint (BInt a) (BInt b) r = Ok (BInt n, r') /\ (a <= n <= b)%Z.
Proof.
intros Hab. destruct (randint_Z_range r Hab) as (n & r' & E & Hn).
exists n, r'. cbn. rewrite E. split; [reflexivity|assumption].
Qed.

(** C3, as stated, fails: past the length limit, a repeat that can
    terminate is expanded [min] times and the random source is not
    consulted, where the claim has [uniform_int(min, uniform_int(min,
    max))], which the same random source makes 5. *)
Lemma repeat_past_limit_takes_min :
is_limit_exceeded no_room (GenState.length GenState.init) = true
/\ is_true (can_terminate twice_to_five) = true
/\ Generate.symbol_generate no_room 1 twice_to_five GenState.init threes
   = Ok (GenState.push ["x"; "x"] GenState.init, threes)
/\ fmap fst ('(hi, r1) <- randint (BInt 2) (BInt 5) threes ;; randint (BInt 2) hi r1)
   = Ok (BInt 5).
Proof. repeat split. Qed.

(** C3, amended: a Repeat or RepeatSample expanded past the length limit
    emits nothing when it cannot terminate and takes [n = min], with no
    random draw, when it can; below the limit [n] is
    [randint(min, randint(min, max))], which lies between [min] and [max].
    A Repeat then puts [n] copies of its children on the stack, a
    RepeatSample [n] sampled alternatives. *)
Theorem repeat_count :
forall (g : grammar) (fuel : nat) (nm : string) (ln : nat) (ct : option bool)
       (c : list string) (mn mx : bound) (idx : option nat) (st : GenState.t) (r : rng),
  Generate.symbol_generate g (S fuel) (Symbol.Make nm ln ct (Repeat c mn mx)) st r
  = (if is_limit_exceeded g (GenState.length st) then
       if is_true ct then l <- RepeatSymbol.repeated mn c ;; Ok (GenState.push l st, r)
       else Ok (st, r)
     else
       '(hi, r1) <- randint mn mx r ;;
       '(n, r2) <- randint mn hi r1 ;;
       l <- RepeatSymbol.repeated n c ;;
       Ok (GenState.push l st, r2))
  /\ Generate.symbol_generate g (S fuel) (Symbol.Make nm ln ct (RepeatSample c mn mx idx)) st r
     = (if is_limit_exceeded g (GenState.length st) then
          if is_true ct then RepeatSampleSymbol.expand g c idx mn st r
          else Ok (st, r)
        else
          '(hi, r1) <- randint mn mx r ;;
          '(n, r2) <- randint mn hi r1 ;;
          RepeatSampleSymbol.expand g c idx n st r2)
  /\ forall a b : Z, mn = BInt a -> mx = BInt b -> (a <= b)%Z ->
       exists hi n r1 r2,
         randint mn mx r = Ok (BInt hi, r1)
         /\ randint mn (BInt hi) r1 = Ok (BInt n, r2)
         /\ (a <= n <= hi)%Z /\ (hi <= b)%Z.
Proof.
intros. cbn [Generate.symbol_generate kind_ can_terminate].
unfold RepeatSymbol.generate, RepeatSampleSymbol.generate, RepeatSymbol.repetitions.
repeat split.
- destruct (is_limit_exceeded g (GenState.length st)).
  + destruct (is_true ct); reflexivity.
  + destruct (randint mn mx r) as [[hi r1]| | |]; cbn; try reflexivity.
    destruct (randint mn hi r1) as [[n r2]| | |]; cbn; reflexivity.
- destruct (is_limit_exceeded g (GenState.length st)).
  + destruct (is_true ct); reflexivity.
  + destruct (randint mn mx r) as [[hi r1]| | |]; cbn; try reflexivity.
    destruct (randint mn hi r1) as [[n r2]| | |]; cbn; reflexivity.
- intros a b -> -> Hab.
  destruct (randint_range r Hab) as (hi & r1 & E1 & H1).
  destruct (@randint_range a hi r1) as (n & r2 & E2 & H2); [lia|].
  exists hi, n, r1, r2. repeat split; try assumption; lia.
Qed.

Lemma repeat_count_witness :
exists hi n r1 r2,
  randint (BInt 2) (BInt 5) threes = Ok (BInt hi, r1)
  /\ randint (BInt 2) (BInt hi) r1 = Ok (BInt n, r2)
  /\ (2 <= n <= hi)%Z /\ (hi <= 5)%Z.
Proof.
apply (repeat_count no_room 0 "r" 1 (Some true) ["x"] (BInt 2) (BInt 5) None
         GenState.init threes);
  [reflexivity|reflexivity|lia].
Defined.

(** ** The output buffer *)

Ltac inv_bind H :=
  repeat match type of H with
         | bind ?m _ = Ok _ =>
             let E := fresh "E" in
             destruct m as [?| | |] eqn:E; cbn [bind] in H; try discriminate H
         | (let '(_, _) := ?p in _) = Ok _ => destruct p
         end.

Lemma same_type_sym a b : same_type a b = same_type b a.
Proof. destruct a, b; reflexivity. Qed.

Lemma same_type_trans a b c :
same_type a b = true -> same_type b c = true -> same_type a c = true.
Proof. destruct a, b, c; simpl; congruence. Qed.

Lemma append_Ok st v st' :
GenState.append st v = Ok st' ->
GenState.output st' = GenState.output st ++ [v]
/\ GenState.symstack st' = GenState.symstack st
/\ GenState.instances st' = GenState.instances st
/\ GenState.length st' = GenState.length st + len v
/\ match GenState.output st with
   | first :: _ => same_type v first = true
   | [] => True
   end.
Proof.
unfold GenState.append. destruct (GenState.output st) as [|first rest] eqn:E.
- intros H. injection H as <-. simpl. auto.
- destruct (same_type v first) eqn:Et; simpl; [|discriminate].
  intros H. injection H as <-. simpl. auto.
Qed.

Lemma append_homogeneous st v st' :
GenState.append st v = Ok st' ->
homogeneous (GenState.output st) -> homogeneous (GenState.output st').
Proof.
intros H Hh. apply append_Ok in H as (Ho & _ & _ & _ & Hf). rewrite Ho.
destruct (GenState.output st) as [|first rest] eqn:E.
- intros a b [<-|[]] [<-|[]]. destruct v; reflexivity.
- assert (Hv : forall x, In x (first :: rest) -> same_type v x = true).
  { intros x Hx. apply same_type_trans with first; [assumption|].
    apply Hh; [left; reflexivity|assumption]. }
  intros a b Ha Hb. apply in_app_or in Ha, Hb.
  destruct Ha as [Ha|[<-|[]]], Hb as [Hb|[<-|[]]].
  + apply Hh; assumption.
  + rewrite same_type_sym. apply Hv; assumption.
  + apply Hv; assumption.
  + destruct v; reflexivity.
Qed.

Lemma append_mismatch st v first rest :
GenState.output st = first :: rest -> same_type v first = false ->
raises (GenState.append st v) GenerationError.
Proof.
intros E Ht. unfold GenState.append. rewrite E, Ht. simpl.
apply raises_raise_at.
Qed.

Lemma assertion_to_generation_Ok {A} st (m : result A) a :
assertion_to_generation st m = Ok a -> m = Ok a.
Proof.
destruct m as [?|[[] ? ?]| |]; simpl; intros H; try discriminate H; assumption.
Qed.

(** What [symbol.generate] does to the state: it leaves the buffer alone
    or appends to it, and it puts only symbol names on the stack. *)
Section SymbolGenerate.
Variable g : grammar.

Lemma grows_refl st : grows st st.
Proof. split; [auto|exists []; reflexivity]. Qed.

Lemma grows_trans a b c : grows a b -> grows b c -> grows a c.
Proof.
intros [H1 [l1 E1]] [H2 [l2 E2]]. split; [auto|].
exists (l2 ++ l1). rewrite E2, E1, map_app, app_assoc. reflexivity.
Qed.

Lemma grows_push l st : grows st (GenState.push l st).
Proof. split; [auto|exists l; reflexivity]. Qed.

Lemma grows_append st v st' : GenState.append st v = Ok st' -> grows st st'.
Proof.
intros H. split; [eapply append_homogeneous; eassumption|].
apply append_Ok in H as (_ & Hs & _). exists []. rewrite Hs. reflexivity.
Qed.

Lemma grows_set_instances i st : grows st (GenState.set_instances i st).
Proof. split; [auto|exists []; reflexivity]. Qed.

Ltac grows_done H :=
  inv_bind H; try discriminate H;
  try (injection H as <- <-);
  first [ apply grows_push | apply grows_refl | eapply grows_append; eassumption ].

Lemma func_generate_grows nested fname args : forall acc st r st' r',
FuncSymbol.generate g nested fname args acc st r = Ok (st', r') -> grows st st'.
Proof.
induction args as [|a args IH]; intros acc st r st' r' H; cbn [FuncSymbol.generate] in H.
- grows_done H.
- destruct a as [n|a].
  + eapply IH; eassumption.
  + inv_bind H. apply IH in H.
    eapply grows_trans; [apply grows_set_instances|exact H].
Qed.

Lemma symbol_generate_grows fuel : forall s st r st' r',
Generate.symbol_generate g fuel s st r = Ok (st', r') -> grows st st'.
Proof.
induction fuel as [|fuel IH]; intros s st r st' r' H; [discriminate|].
cbn [Generate.symbol_generate] in H.
destruct (kind_ s) as [|v|wc ct|c|fname args|ref|c|c mn mx|c mn mx idx|v|v].
- discriminate.
- unfold BinSymbol.generate in H. grows_done H.
- unfold ChoiceSymbol.generate in H. apply assertion_to_generation_Ok in H.
  destruct (is_limit_exceeded g (GenState.length st) && is_true (can_terminate s));
    grows_done H.
- grows_done H.
- eapply func_generate_grows; eassumption.
- unfold RefSymbol.generate in H. inv_bind H.
  match type of H with match ?l with _ => _ end = _ => destruct l end.
  + inv_bind H. eapply IH; eassumption.
  + grows_done H.
- grows_done H.
- unfold RepeatSymbol.generate in H. inv_bind H.
  match type of H with match ?o with _ => _ end = _ => destruct o end; grows_done H.
- unfold RepeatSampleSymbol.generate in H. inv_bind H.
  match type of H with match ?o with _ => _ end = _ => destruct o end;
    [|grows_done H].
  unfold RepeatSampleSymbol.expand in H. apply assertion_to_generation_Ok in H.
  destruct idx as [idx|]; [|discriminate].
  destruct (nth_error c idx); [|discriminate].
  inv_bind H.
  match type of H with match kind_ ?t with _ => _ end = _ => destruct (kind_ t) end;
    try discriminate.
  grows_done H.
- unfold TextSymbol.generate in H. grows_done H.
- unfold TextChoiceSymbol.generate in H. grows_done H.
Qed.

End SymbolGenerate.

Lemma lookup_Some {V} k (d : Dict.t V) v : Dict.get k d = Some v -> Dict.lookup k d = Ok v.
Proof. unfold Dict.lookup. intros ->. reflexivity. Qed.

Lemma loop_homogeneous g fuel : forall st tr r st' r',
homogeneous (GenState.output st) ->
Generate.loop g fuel st tr r = Ok (st', r') ->
homogeneous (GenState.output st').
Proof.
induction fuel as [|fuel IH]; intros st tr r st' r' Hh H; [discriminate|].
cbn [Generate.loop] in H.
destruct (GenState.symstack st) as [|[this|n|n] rest].
- injection H as <- <-. assumption.
- inv_bind H.
  match goal with E : Generate.symbol_generate _ _ _ _ _ = Ok _ |- _ =>
    apply symbol_generate_grows in E as [Hg _] end.
  eapply IH; [|eassumption]. apply Hg.
  destruct (NameSet.mem this (tracked g)); exact Hh.
- eapply IH; [|eassumption]. exact Hh.
- destruct tr as [|[tn start] tr]; [discriminate|].
  destruct (negb (n =? tn)%string); [discriminate|].
  inv_bind H. eapply IH; [|eassumption]. exact Hh.
Qed.

(** Expanding a Text or Bin symbol when the buffer starts with a value of
    the other type is a [GenerationError]. *)
Lemma loop_mixing g fuel this rest insts first out len_ tr r s v :
Dict.get this (symtab g) = Some s ->
kind_ s = match v with VStr t => Text t | VBytes b => Bin b end ->
same_type v first = false ->
raises (Generate.loop g (S (S fuel))
          (GenState.Make (ISym this :: rest) insts (first :: out) len_) tr r)
       GenerationError.
Proof.
intros Hs Hk Ht. cbn [Generate.loop GenState.symstack].
rewrite (lookup_Some _ _ Hs). cbn [bind Generate.symbol_generate]. rewrite Hk.
destruct v as [t|b];
  unfold TextSymbol.generate, BinSymbol.generate;
  match goal with |- context [GenState.append ?st ?v] =>
    destruct (@append_mismatch st v first out) as (e & E & He);
      [destruct (NameSet.mem this (tracked g)); reflexivity|assumption|];
    rewrite E; exists e; split; [reflexivity|assumption]
  end.
Qed.

(** C7: every append checks the type of the value against the first value
    of the buffer and raises a [GenerationError] on a mismatch, a [str]
    after a [bytes] or a [bytes] after a [str]; so the buffer of a
    generation run holds values of one type, and expanding a Text symbol
    after Bin output, or a Bin symbol after Text output, fails the run with
    a [GenerationError]. *)
Theorem output_type_invariant :
forall (g : grammar),
  (forall st v,
      match GenState.output st with
      | [] => returns (GenState.append st v)
      | first :: _ =>
          if same_type v first then returns (GenState.append st v)
          else raises (GenState.append st v) GenerationError
      end)
  /\ (forall st s b, GenState.output st <> [] ->
        (hd (VStr s) (GenState.output st) = VBytes b ->
         raises (GenState.append st (VStr s)) GenerationError)
        /\ (hd (VBytes b) (GenState.output st) = VStr s ->
            raises (GenState.append st (VBytes b)) GenerationError))
  /\ (forall st v st', GenState.append st v = Ok st' ->
        GenState.output st' = GenState.output st ++ [v])
  /\ (forall fuel st tr r st' r',
        homogeneous (GenState.output st) ->
        Generate.loop g fuel st tr r = Ok (st', r') ->
        homogeneous (GenState.output st'))
  /\ (forall fuel this rest insts first out len_ tr r s v,
        Dict.get this (symtab g) = Some s ->
        kind_ s = match v with VStr t => Text t | VBytes b => Bin b end ->
        same_type v first = false ->
        raises (Generate.loop g (S (S fuel))
                  (GenState.Make (ISym this :: rest) insts (first :: out) len_) tr r)
               GenerationError).
Proof.
intros g. repeat split.
- intros st v. unfold GenState.append.
  destruct (GenState.output st) as [|first rest].
  + eexists; reflexivity.
  + destruct (same_type v first); simpl.
    * eexists; reflexivity.
    * apply raises_raise_at.
- intros Hb. destruct (GenState.output st) as [|first rest] eqn:E; [contradiction|].
  simpl in Hb. subst first. eapply append_mismatch; [eassumption|reflexivity].
- intros Hb. destruct (GenState.output st) as [|first rest] eqn:E; [contradiction|].
  simpl in Hb. subst first. eapply append_mismatch; [eassumption|reflexivity].
- intros st v st' H. apply append_Ok in H. apply H.
- intros. eapply loop_homogeneous; eassumption.
- intros. eapply loop_mixing; eassumption.
Qed.

Lemma output_type_invariant_witness :
raises (Generate.loop text_grammar 2 after_bytes [] zero_tape) GenerationError.
Proof.
apply (output_type_invariant text_grammar)
  with (s := Symbol.Make "t" 1 (Some true) (Text "a")) (v := VStr "a");
  reflexivity.
Defined.

(** The grammar [root x'41' 'a'] is constructed, and generating from it
    fails when the text follows the bytes. *)
Example mixed_grammar_fails :
returns (Construct.init mixed_host mixed_text (Some DEFAULT_LIMIT) [])
/\ forall r, raises (Construct.run mixed_host 20 mixed_text (Some DEFAULT_LIMIT) [] r)
                    GenerationError.
Proof.
split; [eexists; vm_compute; reflexivity|].
intros r. eexists. split; [vm_compute; reflexivity|reflexivity].
Qed.

(** ** References *)

(** Outside [FuncSymbol] and [RefSymbol], [generate] does not touch
    [instances]. *)
Lemma symbol_generate_instances g fuel s st r st' r' :
Generate.symbol_generate g fuel s st r = Ok (st', r') ->
is_func (kind_ s) = false -> is_ref (kind_ s) = false ->
GenState.instances st' = GenState.instances st.
Proof.
destruct fuel as [|fuel]; [discriminate|].
cbn [Generate.symbol_generate]. intros H Hf Hr.
assert (Happ : forall a v b, GenState.append a v = Ok b ->
                             GenState.instances b = GenState.instances a)
  by (intros a v b Ha; apply append_Ok in Ha; apply Ha).
destruct (kind_ s) as [|v|wc ct|c|fname args|ref|c|c mn mx|c mn mx idx|v|v];
  try discriminate.
- unfold BinSymbol.generate in H. inv_bind H. injection H as <- <-. eauto.
- unfold ChoiceSymbol.generate in H. apply assertion_to_generation_Ok in H.
  destruct (is_limit_exceeded g (GenState.length st) && is_true (can_terminate s));
    inv_bind H; injection H as <- <-; reflexivity.
- injection H as <- <-. reflexivity.
- injection H as <- <-. reflexivity.
- unfold RepeatSymbol.generate in H. inv_bind H.
  match type of H with match ?o with _ => _ end = _ => destruct o end;
    inv_bind H; injection H as <- <-; reflexivity.
- unfold RepeatSampleSymbol.generate in H. inv_bind H.
  match type of H with match ?o with _ => _ end = _ => destruct o end;
    [|injection H as <- <-; reflexivity].
  unfold RepeatSampleSymbol.expand in H. apply assertion_to_generation_Ok in H.
  destruct idx as [idx|]; [|discriminate].
  destruct (nth_error c idx); [|discriminate].
  inv_bind H.
  match type of H with match kind_ ?t with _ => _ end = _ => destruct (kind_ t) end;
    try discriminate.
  inv_bind H. injection H as <- <-. reflexivity.
- unfold TextSymbol.generate in H. inv_bind H. injection H as <- <-. eauto.
- unfold TextChoiceSymbol.generate in H. inv_bind H. injection H as <- <-. eauto.
Qed.

(** C1, as stated, fails: in the grammar [root @A @A], [A /[ab]/] the
    first reference finds no instance of [A] and generates "a"; that value
    is not captured, [instances["A"]] is still empty at the end, and the
    second reference generates a fresh "b" instead of replaying "a". *)
Lemma ref_fresh_value_is_not_captured :
exists g st r',
  Construct.init two_refs_host two_refs_text (Some DEFAULT_LIMIT) [] = Ok g
  /\ Generate.generate g 20 "root" counting_tape = Ok (VStr "ab", st, r')
  /\ Dict.get "A" (GenState.instances st) = Some [].
Proof.
eexists _, _, _. split; [vm_compute; reflexivity|].
split; [vm_compute; reflexivity|reflexivity].
Qed.

(** C1, amended: a Ref whose target has no captured instance yet calls
    the [generate] method of the target symbol on the current state, which
    produces a fresh value of the target. The call does not go through the
    tracking of the expansion loop: nothing but symbol names is put on the
    stack (no [untrack] marker for the target), and, the target being
    neither a Func nor a Ref, [instances] is left as it was: the fresh
    value is not captured. *)
Theorem ref_without_instances_generates_untracked :
forall (g : grammar) (fuel : nat) (s target : symbol) (ref : string)
       (st : GenState.t) (r : rng),
  kind_ s = Ref ref ->
  Dict.get ref (GenState.instances st) = Some [] ->
  Dict.get ref (symtab g) = Some target ->
  Generate.symbol_generate g (S fuel) s st r = Generate.symbol_generate g fuel target st r
  /\ forall st' r',
       Generate.symbol_generate g (S fuel) s st r = Ok (st', r') ->
       (exists l, GenState.symstack st' = map ISym l ++ GenState.symstack st)
       /\ (is_func (kind_ target) = false -> is_ref (kind_ target) = false ->
           GenState.instances st' = GenState.instances st).
Proof.
intros g fuel s target ref st r Hk Hi Ht.
assert (E : Generate.symbol_generate g (S fuel) s st r
            = Generate.symbol_generate g fuel target st r).
{ cbn [Generate.symbol_generate]. rewrite Hk. unfold RefSymbol.generate.
  rewrite (lookup_Some _ _ Hi). cbn [bind]. rewrite (lookup_Some _ _ Ht). reflexivity. }
split; [exact E|].
intros st' r' H. rewrite E in H. split.
- apply symbol_generate_grows in H as [_ Hl]. exact Hl.
- intros Hf Hr. eapply symbol_generate_instances; eassumption.
Qed.

Lemma ref_without_instances_generates_untracked_witness :
Generate.symbol_generate ref_grammar 2 ref_symbol no_instances zero_tape
= Generate.symbol_generate ref_grammar 1 ref_target no_instances zero_tape.
Proof.
apply (@ref_without_instances_generates_untracked ref_grammar 1
         ref_symbol ref_target "A" no_instances zero_tape);
  reflexivity.
Defined.

(** ** The regex sub-parser *)

(** C2 fails on the code, which contradicts the documentation of
    [RegexSymbol] (an asterisk is equivalent to [{0,5}], a plus to
    [{1,5}]): [_RE_PARSE] has no alternative for either character, so each
    is parsed as a literal. The grammars [root /a*/] and [root /a+/]
    generate "a*" and "a+", where [root /a{0,5}/] is a Repeat with the
    bounds (0, 5). *)
Theorem regex_star_and_plus_are_literals :
Re.match_at RegexSymbol.RE_PARSE "*/" = None
/\ Re.match_at RegexSymbol.RE_PARSE "+/" = None
/\ (forall r, Construct.run regex_star_host 20 regex_star_text (Some DEFAULT_LIMIT) [] r
              = Ok (VStr "a*"))
/\ (forall r, Construct.run regex_plus_host 20 regex_plus_text (Some DEFAULT_LIMIT) [] r
              = Ok (VStr "a+"))
/\ exists g s c,
     Construct.init regex_braces_host regex_braces_text (Some DEFAULT_LIMIT) [] = Ok g
     /\ Dict.get "root" (symtab g) = Some s
     /\ kind_ s = Repeat [c] (BInt 0) (BInt 5).
Proof.
split; [vm_compute; reflexivity|]. split; [vm_compute; reflexivity|].
split; [intros r; vm_compute; reflexivity|].
split; [intros r; vm_compute; reflexivity|].
eexists _, _, _. split; [vm_compute; reflexivity|]. split; reflexivity.
Qed.

(** C6 fails on the code, which contradicts the documentation of
    [RegexSymbol] (the dash can be matched by putting it first or last in
    the set): a dash met while the set is still empty is a [ParseError],
    so [root /[-a]/] is not constructed; the trailing dash of
    [root /[a-]/] is the literal character. *)
Theorem leading_dash_is_a_parse_error :
(exists e,
    Construct.init leading_dash_host leading_dash_text (Some DEFAULT_LIMIT) [] = Raise e
    /\ cls e = ParseError /\ msg e = "Parse error in regex at: -a]/")
/\ (forall fuel rest ps,
       raises (RegexSymbol.set_loop (S fuel) (String "-" rest) [] false ps) ParseError)
/\ exists g s,
     Construct.init trailing_dash_host trailing_dash_text (Some DEFAULT_LIMIT) [] = Ok g
     /\ Dict.get "root" (symtab g) = Some s
     /\ kind_ s = TextChoice "a-".
Proof.
split; [eexists; split; [vm_compute; reflexivity|split; reflexivity]|].
split.
- intros fuel rest ps. cbn [RegexSymbol.set_loop].
  assert (E : Re.match_at RegexSymbol.RE_SET (String "-" rest)
              = Some (Re.Match "-" rest [])).
  { unfold Re.match_at. cbn -[Nat.sub].
    replace (S (String.length rest) - String.length rest) with 1 by lia. reflexivity. }
  rewrite E. cbn. apply raises_raise_at.
- eexists _, _. split; [vm_compute; reflexivity|]. split; reflexivity.
Qed.

(** ** Repeat bounds *)

(** C10: the repeat token of [_RE_DEFN] matches an asterisk, the grammar
    [root "x"{*}] is constructed with the string "*" as both bounds of
    the Repeat, and [generate] fails with the error of the random-integer
    draw [randint("*", "*")], the [TypeError] of adding one to a string,
    which is none of the three documented kinds. *)
Theorem star_bound_is_a_type_error :
(exists m, Re.match_at Defn.RE_DEFN "{*}" = Some m
           /\ Re.get "repeat" m = "{*}" /\ Re.get "a" m = "*")
/\ exists g s c,
     Construct.init star_bound_host star_bound_text (Some DEFAULT_LIMIT) [] = Ok g
     /\ Dict.get "root" (symtab g) = Some s
     /\ kind_ s = Repeat [c] BStar BStar
     /\ forall fuel r,
          exists e, randint BStar BStar r = Raise e
                    /\ Generate.generate g (3 + fuel) "root" r = Raise e
                    /\ cls e = TypeError
                    /\ msg e = ("can only concatenate str (not " ++ Py.quoted "int"
                                ++ ") to str")%string
                    /\ at_ e = Nowhere
                    /\ documented (cls e) = false.
Proof.
split; [eexists; split; [vm_compute; reflexivity|split; reflexivity]|].
eexists _, _, _. split; [vm_compute; reflexivity|].
split; [reflexivity|]. split; [reflexivity|].
intros fuel r. eexists. split; [reflexivity|]. repeat split.
Qed.

(** ** Determinism *)

Lemma finished_bind {A B} (m : result A) (f : A -> result B) :
finished (bind m f) -> finished m.
Proof. unfold finished. destruct m; simpl; congruence. Qed.

(** Two computations that agree wherever the first one finishes. *)
Lemma bind_agree {A B} (m1 m2 : result A) (f1 f2 : A -> result B) :
(finished m1 -> m2 = m1) ->
(forall a, m1 = Ok a -> finished (f1 a) -> f2 a = f1 a) ->
finished (bind m1 f1) -> bind m2 f2 = bind m1 f1.
Proof.
intros Hm Hf Hfin. rewrite Hm by (eapply finished_bind; eassumption).
destruct m1 as [a| | |]; simpl in *; try reflexivity.
apply Hf; [reflexivity|assumption].
Qed.

Lemma finished_assertion {A} st (m : result A) :
finished (assertion_to_generation st m) -> finished m.
Proof. unfold finished. destruct m as [?|[[] ? ?]| |]; simpl; congruence. Qed.

Section Fuel.
Variable g : grammar.

Lemma func_generate_agree n1 n2 fname args :
(forall st r, finished (n1 st r) -> n2 st r = n1 st r) ->
forall acc st r,
  finished (FuncSymbol.generate g n1 fname args acc st r) ->
  FuncSymbol.generate g n2 fname args acc st r = FuncSymbol.generate g n1 fname args acc st r.
Proof.
intros Hn. induction args as [|a args IH]; intros acc st r Hfin;
  cbn [FuncSymbol.generate] in *; [reflexivity|].
destruct a as [n|a]; [apply IH; assumption|].
apply bind_agree; [apply Hn| |assumption].
intros [[v astate'] r'] _ Hf. apply IH. assumption.
Qed.

Lemma ref_generate_agree d1 d2 ref st r :
(forall s st r, finished (d1 s st r) -> d2 s st r = d1 s st r) ->
finished (RefSymbol.generate g d1 ref st r) ->
RefSymbol.generate g d2 ref st r = RefSymbol.generate g d1 ref st r.
Proof.
intros Hd Hfin. unfold RefSymbol.generate in *.
apply bind_agree; [reflexivity| |assumption].
intros [|i inst] _ Hf; [|reflexivity].
apply bind_agree; [reflexivity| |assumption].
intros target _ Ht. apply Hd. assumption.
Qed.

(** More fuel does not change a result that was reached. *)
Lemma fuel_monotone fuel :
(forall s st r k,
    finished (Generate.symbol_generate g fuel s st r) ->
    Generate.symbol_generate g (fuel + k) s st r = Generate.symbol_generate g fuel s st r)
/\ (forall st tr r k,
       finished (Generate.loop g fuel st tr r) ->
       Generate.loop g (fuel + k) st tr r = Generate.loop g fuel st tr r)
/\ (forall st r k,
       finished (Generate.generate_state g fuel st r) ->
       Generate.generate_state g (fuel + k) st r = Generate.generate_state g fuel st r).
Proof.
induction fuel as [|fuel (IHs & IHl & IHg)].
- repeat split; intros; exfalso; apply H; reflexivity.
- repeat split.
  + intros s st r k Hfin. cbn [Nat.add Generate.symbol_generate] in *.
    destruct (kind_ s); try reflexivity.
    * apply func_generate_agree; [|assumption]. intros. apply IHg. assumption.
    * apply ref_generate_agree; [|assumption]. intros. apply IHs. assumption.
  + intros st tr r k Hfin. cbn [Nat.add Generate.loop] in *.
    destruct (GenState.symstack st) as [|[this|n|n] rest]; [reflexivity| | |].
    * apply bind_agree; [reflexivity| |assumption].
      intros s _ Hf. apply bind_agree; [apply IHs| |assumption].
      intros [st' r'] _ Hf'. apply IHl. assumption.
    * apply IHl. assumption.
    * destruct tr as [|[tn start] tr]; [reflexivity|].
      destruct (negb (n =? tn)%string); [reflexivity|].
      apply bind_agree; [reflexivity| |assumption].
      intros instance _ Hf. apply bind_agree; [reflexivity| |assumption].
      intros l _ Hf'. apply IHl. assumption.
  + intros st r k Hfin. cbn [Nat.add Generate.generate_state] in *.
    apply bind_agree; [apply IHl| |assumption].
    intros [st' r'] _ Hf. reflexivity.
Qed.

Lemma generate_agree fuel1 fuel2 start r :
finished (Generate.generate g fuel1 start r) ->
finished (Generate.generate g fuel2 start r) ->
Generate.generate g fuel1 start r = Generate.generate g fuel2 start r.
Proof.
unfold Generate.generate. intros H1 H2.
destruct (Nat.le_ge_cases fuel1 fuel2) as [Hle|Hle].
- replace fuel2 with (fuel1 + (fuel2 - fuel1)) by lia.
  symmetry. apply fuel_monotone. assumption.
- replace fuel1 with (fuel2 + (fuel1 - fuel2)) by lia.
  apply fuel_monotone. assumption.
Qed.

End Fuel.


(** ** What the parser reads of its text

    Whatever the parser cuts out of a text, with the engine of [re] or
    with the methods of [str], is made of characters of that text. *)

Module CharsFacts.
Import Chars.

Lemma sub_refl s : sub s s.
Proof. intros c H. exact H. Qed.

Lemma sub_trans s t u : sub s t -> sub t u -> sub s u.
Proof. intros H1 H2 c H. apply H2, H1, H. Qed.

Lemma sub_nil t : sub "" t.
Proof. intros c H. discriminate. Qed.

Lemma sub_tail c s t : sub (String c s) t -> sub s t.
Proof. intros H d Hd. apply H. simpl. rewrite Hd. apply orb_true_r. Qed.

Lemma sub_cons c s : sub s (String c s).
Proof. intros d Hd. simpl. rewrite Hd. apply orb_true_r. Qed.

Lemma elem_app c s t : Str.elem c (s ++ t) = Str.elem c s || Str.elem c t.
Proof.
induction s as [|d s IH]; simpl; [reflexivity|]. rewrite IH. apply orb_assoc.
Qed.

Lemma sub_app s t u : sub s u -> sub t u -> sub (s ++ t) u.
Proof.
intros H1 H2 c H. rewrite elem_app in H. apply orb_true_iff in H.
destruct H as [H|H]; [apply H1|apply H2]; exact H.
Qed.

Lemma sub_take n : forall s, sub (Str.take n s) s.
Proof.
induction n as [|n IH]; intros s; [destruct s; apply sub_nil|].
destruct s as [|c s]; [apply sub_nil|].
intros d Hd. simpl in *. apply orb_true_iff in Hd. apply orb_true_iff.
destruct Hd as [Hd|Hd]; [left; exact Hd|right; apply (IH s), Hd].
Qed.

Lemma sub_drop n : forall s, sub (Str.drop n s) s.
Proof.
induction n as [|n IH]; intros s; [destruct s; apply sub_refl|].
destruct s as [|c s]; [apply sub_refl|].
simpl. apply sub_trans with s; [apply IH|apply sub_cons].
Qed.

Lemma sub_lstrip s : sub (Str.lstrip s) s.
Proof.
induction s as [|c s IH]; simpl; [apply sub_refl|].
destruct (Str.isspace c); [|apply sub_refl].
apply sub_trans with s; [exact IH|apply sub_cons].
Qed.

Lemma elem_rev_acc c s : forall acc,
Str.elem c (Str.rev_acc s acc) = Str.elem c s || Str.elem c acc.
Proof.
induction s as [|d s IH]; intros acc; simpl; [reflexivity|].
rewrite IH. simpl. destruct (Ascii.eqb c d), (Str.elem c s); reflexivity.
Qed.

Lemma sub_rev s : sub (Str.rev s) s.
Proof.
intros c H. unfold Str.rev in H. rewrite elem_rev_acc in H. simpl in H.
rewrite orb_false_r in H. exact H.
Qed.

Lemma sub_strip s : sub (Str.strip s) s.
Proof.
unfold Str.strip, Str.rstrip.
apply sub_trans with (Str.lstrip s); [|apply sub_lstrip].
eapply sub_trans; [apply sub_rev|].
eapply sub_trans; [apply sub_lstrip|]. apply sub_rev.
Qed.

Lemma no_set_sub s t : sub s t -> no_set t = true -> no_set s = true.
Proof.
unfold no_set. intros H Ht. apply negb_true_iff. apply negb_true_iff in Ht.
destruct (Str.elem "[" s) eqn:E; [|reflexivity]. apply H in E. congruence.
Qed.

Lemma group_sub name caps t v :
caps_sub caps t -> Re.group name caps = Some v -> sub v t.
Proof.
induction 1 as [|[n w] caps Hw _ IH]; simpl; [discriminate|].
destruct (String.eqb n name); [|exact IH].
intros H. injection H as <-. exact Hw.
Qed.

(** A match ends in a call of the continuation, on a rest and on captures
    made of characters of the text, where a group that the pattern does
    not name is as it was. *)
Lemma go_inv {A} (r : Re.regex) : forall (t s : string) caps (k : string -> Re.captures -> option A) x,
sub s t -> caps_sub caps t ->
Re.go r s caps k = Some x ->
exists s' caps',
  k s' caps' = Some x /\ sub s' t /\ caps_sub caps' t
  /\ forall n, ~ In n (names r) -> Re.group n caps' = Re.group n caps.
Proof.
induction r as [|p|a IHa b IHb|a IHa b IHb|a IHa|name a IHa|];
  intros t s caps k x Hs Hc H; cbn [Re.go names] in *.
- exists s, caps. repeat split; auto.
- destruct s as [|c s]; [discriminate|].
  destruct (p c); [|discriminate].
  exists s, caps. repeat split; auto. eapply sub_tail; eassumption.
- destruct (IHa _ _ _ _ _ Hs Hc H) as (s1 & caps1 & H1 & Hs1 & Hc1 & Hn1).
  destruct (IHb _ _ _ _ _ Hs1 Hc1 H1) as (s2 & caps2 & H2 & Hs2 & Hc2 & Hn2).
  exists s2, caps2. repeat split; auto.
  intros n Hn. rewrite Hn2, Hn1; auto; intros Hin; apply Hn, in_or_app; auto.
- destruct (Re.go a s caps k) as [y|] eqn:E.
  + rewrite <- H in *. destruct (IHa _ _ _ _ _ Hs Hc E) as (s1 & caps1 & H1 & Hs1 & Hc1 & Hn1).
    exists s1, caps1. repeat split; auto.
    intros n Hn. apply Hn1. intros Hin; apply Hn, in_or_app; auto.
  + destruct (IHb _ _ _ _ _ Hs Hc H) as (s1 & caps1 & H1 & Hs1 & Hc1 & Hn1).
    exists s1, caps1. repeat split; auto.
    intros n Hn. apply Hn1. intros Hin; apply Hn, in_or_app; auto.
- revert H. generalize (String.length s) at 1. intros n. revert s caps Hs Hc.
  induction n as [|n IHn]; intros s caps Hs Hc H.
  + exists s, caps. repeat split; auto.
  + match type of H with
    | match ?m with _ => _ end = _ => destruct m as [y|] eqn:E
    end.
    * rewrite <- H in *. destruct (IHa _ _ _ _ _ Hs Hc E) as (s1 & caps1 & H1 & Hs1 & Hc1 & Hn1).
      destruct (String.length s1 <? String.length s); [|discriminate].
      destruct (IHn _ _ Hs1 Hc1 H1) as (s2 & caps2 & H2 & Hs2 & Hc2 & Hn2).
      exists s2, caps2. repeat split; auto.
      intros m Hm. rewrite Hn2, Hn1; auto.
    * exists s, caps. repeat split; auto.
- destruct (IHa _ _ _ _ _ Hs Hc H) as (s1 & caps1 & H1 & Hs1 & Hc1 & Hn1).
  eexists s1, _. split; [exact H1|]. split; [exact Hs1|]. split.
  + constructor; [|exact Hc1]. simpl.
    eapply sub_trans; [apply sub_take|exact Hs].
  + intros n Hn. simpl.
    destruct (String.eqb name n) eqn:En.
    * apply String.eqb_eq in En. exfalso. apply Hn. left. exact En.
    * apply Hn1. intros Hin. apply Hn. right. exact Hin.
- destruct s as [|c [|d s]]; try discriminate.
  + exists "", caps. repeat split; auto.
  + destruct (Ascii.eqb c Str.nl); [|discriminate].
    exists (String c ""), caps. repeat split; auto.
Qed.

Lemma match_at_inv r s m :
Re.match_at r s = Some m ->
sub (Re.rest m) s /\ sub (Re.group0 m) s /\ caps_sub (Re.groups m) s
/\ forall n, ~ In n (names r) -> Re.group n (Re.groups m) = None.
Proof.
unfold Re.match_at. intros H.
apply (@go_inv _ r s s) in H; [|apply sub_refl|constructor].
destruct H as (s' & caps' & H & Hs & Hc & Hn).
injection H as <-. cbn [Re.rest Re.group0 Re.groups].
repeat split; auto. apply sub_take.
Qed.

Lemma get_sub name m r s : Re.match_at r s = Some m -> sub (Re.get name m) s.
Proof.
intros H. apply match_at_inv in H. destruct H as (_ & _ & Hc & _).
unfold Re.get. destruct (Re.group name (Re.groups m)) eqn:E; [|apply sub_nil].
eapply group_sub; eassumption.
Qed.

Lemma search_inv r : forall s pre m,
Re.search r s = Some (pre, m) ->
sub pre s /\ sub (Re.rest m) s /\ caps_sub (Re.groups m) s.
Proof.
induction s as [|c s IH]; intros pre m H; simpl in H.
- destruct (Re.match_at r "") as [m0|] eqn:E; [|discriminate].
  injection H as <- <-. apply match_at_inv in E. destruct E as (H1 & _ & H3 & _).
  repeat split; auto. apply sub_nil.
- destruct (Re.match_at r (String c s)) as [m0|] eqn:E.
  + injection H as <- <-. apply match_at_inv in E. destruct E as (H1 & _ & H3 & _).
    repeat split; auto. apply sub_nil.
  + destruct (Re.search r s) as [[pre0 m0]|] eqn:E0; [|discriminate].
    injection H as <- <-. destruct (IH _ _ eq_refl) as (H1 & H2 & H3).
    repeat split.
    * intros d Hd. simpl in *. apply orb_true_iff in Hd. apply orb_true_iff.
      destruct Hd as [Hd|Hd]; [left; exact Hd|right; apply H1, Hd].
    * eapply sub_trans; [exact H2|apply sub_cons].
    * eapply Forall_impl; [|exact H3]. intros nv Hnv.
      eapply sub_trans; [exact Hnv|apply sub_cons].
Qed.

End CharsFacts.

(** ** The parsers that do not look at the host *)

Module Remainders.
Import Chars CharsFacts ParseState.

Lemma scan_sub fuel q : forall defn out out' rem,
TextSymbol.scan fuel q defn out = Ok (Some (out', rem)) -> sub rem defn.
Proof.
induction fuel as [|fuel IH]; intros defn out out' rem H; cbn [TextSymbol.scan] in H;
  [discriminate|].
destruct (Re.search TextSymbol.RE_QUOTE defn) as [[before m]|] eqn:E; [|discriminate].
apply search_inv in E. destruct E as (_ & Hr & _).
destruct (Re.group "end" (Re.groups m)) as [e|].
- destruct (String.eqb e (Str.of_char q)).
  + injection H as _ <-. exact Hr.
  + apply IH in H. eapply sub_trans; eassumption.
- destruct (Re.get "esc" m); apply IH in H; eapply sub_trans; eassumption.
Qed.

Lemma text_parse_sub defn no_add ps n out rem ps' :
TextSymbol.parse defn no_add ps = Ok (n, out, rem, ps') -> sub rem defn.
Proof.
unfold TextSymbol.parse. destruct defn as [|q defn]; [discriminate|].
destruct (negb (TextSymbol.is_quote q)); [discriminate|].
destruct (TextSymbol.scan _ q defn "") as [[[out0 rem0]|]| | |] eqn:E;
  cbn [bind]; try discriminate.
destruct (TextSymbol.new _ _ _ _ _ _) as [[sname ps0]| | |]; cbn [bind]; try discriminate.
intros H. injection H as _ _ <- _.
apply scan_sub in E. eapply sub_trans; [exact E|apply sub_cons].
Qed.

Lemma bin_parse_sub defn ps n rem ps' :
BinSymbol.parse defn ps = Ok (n, rem, ps') -> sub rem defn.
Proof.
unfold BinSymbol.parse. destruct defn as [|a [|q defn]]; try discriminate.
destruct (negb (Ascii.eqb a "x")); [discriminate|].
destruct (negb (TextSymbol.is_quote q)); [discriminate|].
destruct (Str.find (Str.of_char q) defn) as [enquo|]; [|discriminate].
destruct (BinSymbol.new _ _) as [[sname ps0]| | |]; cbn [bind]; try discriminate.
intros H. injection H as _ <- _.
eapply sub_trans; [exact (@sub_drop (S enquo) defn)|].
eapply sub_trans; [apply sub_cons|apply sub_cons].
Qed.

Lemma set_loop_sub fuel : forall defn alpha in_range ps alpha' rem,
RegexSymbol.set_loop fuel defn alpha in_range ps = Ok (alpha', rem) -> sub rem defn.
Proof.
induction fuel as [|fuel IH]; intros defn alpha in_range ps alpha' rem H;
  cbn [RegexSymbol.set_loop] in H; [discriminate|].
destruct defn as [|c0 defn0]; [discriminate|].
destruct (Re.match_at RegexSymbol.RE_SET (String c0 defn0)) as [m|] eqn:E; [|discriminate].
apply match_at_inv in E. destruct E as (Hr & _).
destruct (String.eqb (Re.group0 m) "]").
{ injection H as _ <-. exact Hr. }
destruct (String.eqb (Re.group0 m) "-").
{ destruct (in_range || _)%bool; [discriminate|].
  apply IH in H. eapply sub_trans; eassumption. }
match type of H with bind ?m0 _ = _ => destruct m0 as [c| | |] end;
  cbn [bind] in H; try discriminate.
destruct in_range.
- destruct (List.rev (alpha ++ [c])) as [|last [|before l]]; try discriminate.
  destruct (_ <=? _); [discriminate|].
  apply IH in H. eapply sub_trans; eassumption.
- apply IH in H. eapply sub_trans; eassumption.
Qed.

End Remainders.

(** ** Hosts that differ in the order of their sets *)

Module HostFacts.
Import Chars CharsFacts Remainders ParseState.

Lemma go_alt {A} a b s caps (k : string -> Re.captures -> option A) x :
Re.go (Re.Alt a b) s caps k = Some x ->
Re.go a s caps k = Some x \/ Re.go b s caps k = Some x.
Proof.
cbn [Re.go]. destruct (Re.go a s caps k); intros H; [left|right]; exact H.
Qed.

(** On a text with no opening bracket [_RE_PARSE] does not match its
    group [set]. *)
Lemma no_set_no_group defn m :
no_set defn = true -> Re.match_at RegexSymbol.RE_PARSE defn = Some m ->
Re.has "set" m = false.
Proof.
intros Hn H. unfold Re.match_at, RegexSymbol.RE_PARSE, Re.alt in H. cbn [fold_left] in H.
assert (Habs : forall r, ~ In "set" (names r) ->
          Re.go r defn []
            (fun s' caps => Some (Re.Match (Str.take (String.length defn - String.length s') defn)
                                           s' caps)) = Some m ->
          Re.has "set" m = false).
{ intros r Hr Hgo. apply (@go_inv _ r defn defn) in Hgo; [|apply sub_refl|constructor].
  destruct Hgo as (s' & caps' & Hk & _ & _ & Hg). injection Hk as <-.
  unfold Re.has. cbn [Re.groups]. rewrite (Hg "set" Hr). reflexivity. }
apply go_alt in H. destruct H as [H|H].
- apply go_alt in H. destruct H as [H|H].
  + apply go_alt in H. destruct H as [H|H].
    * apply go_alt in H. destruct H as [H|H].
      -- apply (Habs _) in H; [exact H|]. cbn. intuition discriminate.
      -- exfalso. destruct defn as [|c0 d]; [discriminate|].
         unfold no_set in Hn. cbn [Str.elem] in Hn.
         apply negb_true_iff, orb_false_iff in Hn. destruct Hn as [Hc _].
         cbn -[Ascii.eqb Nat.sub] in H. rewrite Hc in H. discriminate.
    * apply (Habs _) in H; [exact H|]. cbn. intuition discriminate.
  + apply (Habs _) in H; [exact H|]. cbn. intuition discriminate.
- apply (Habs _) in H; [exact H|]. cbn. intuition discriminate.
Qed.

Lemma agree_same {A} (P : A -> Prop) m : (forall a, m = Ok a -> P a) -> agree P m m.
Proof. intros H. split; [reflexivity|exact H]. Qed.

Lemma agree_fail {A} (P : A -> Prop) m : (forall a, m <> Ok a) -> agree P m m.
Proof. intros H. apply agree_same. intros a Ha. destruct (H a Ha). Qed.

Lemma agree_weaken {A} (P Q : A -> Prop) m1 m2 :
agree P m1 m2 -> (forall a, P a -> Q a) -> agree Q m1 m2.
Proof. intros [H1 H2] H. split; [exact H1|]. intros a Ha. apply H, H2, Ha. Qed.

Lemma agree_bind {A B} (Q : A -> Prop) (P : B -> Prop) m1 m2 (f1 f2 : A -> result B) :
agree Q m1 m2 -> (forall a, m1 = Ok a -> Q a -> agree P (f1 a) (f2 a)) ->
agree P (bind m1 f1) (bind m2 f2).
Proof.
intros [<- Hq] Hf. destruct m1 as [a| | |]; cbn [bind];
  try (apply agree_fail; intros; discriminate).
apply Hf; [reflexivity|]. apply Hq. reflexivity.
Qed.

Lemma agree_bind_same {A B} (P : B -> Prop) m (f1 f2 : A -> result B) :
(forall a, m = Ok a -> agree P (f1 a) (f2 a)) -> agree P (bind m f1) (bind m f2).
Proof.
intros Hf. apply (@agree_bind _ _ (fun _ => True) P m m); [apply agree_same; auto|].
intros a Ha _. apply Hf, Ha.
Qed.

Lemma bind_ext {A B} (m : result A) (k1 k2 : A -> result B) :
(forall a, m = Ok a -> k1 a = k2 a) -> bind m k1 = bind m k2.
Proof. intros H. destruct m; cbn [bind]; try reflexivity. apply H. reflexivity. Qed.

Lemma lines_acc_sub s : forall cur c line,
In line (Str.lines_acc s cur) -> Str.elem c line = true ->
Str.elem c cur = true \/ Str.elem c s = true.
Proof.
induction s as [|d s IH]; intros cur c line Hin Hc; cbn [Str.lines_acc] in Hin.
- destruct cur as [|e cur]; [destruct Hin|].
  destruct Hin as [<-|[]]. left. apply (@sub_rev (String e cur)), Hc.
- destruct (Ascii.eqb d Str.nl).
  + destruct Hin as [<-|Hin].
    * apply (@sub_rev (String d cur)) in Hc. cbn [Str.elem] in *.
      apply orb_true_iff in Hc. destruct Hc as [Hc|Hc]; [right|left; exact Hc].
      rewrite Hc. reflexivity.
    * destruct (IH _ _ _ Hin Hc) as [H|H]; [discriminate|].
      right. cbn [Str.elem]. rewrite H. apply orb_true_r.
  + destruct (IH _ _ _ Hin Hc) as [H|H].
    * cbn [Str.elem] in H. apply orb_true_iff in H. destruct H as [H|H]; [right|left; exact H].
      cbn [Str.elem]. rewrite H. reflexivity.
    * right. cbn [Str.elem]. rewrite H. apply orb_true_r.
Qed.

Lemma lines_sub text : Forall (fun line => sub line text) (Str.lines text).
Proof.
apply Forall_forall. intros line Hin c Hc.
destruct (lines_acc_sub _ _ _ _ Hin Hc) as [H|H]; [discriminate|exact H].
Qed.

Section Hosts.
Variables h1 h2 : host.
Hypothesis Hfiles : same_files h1 h2.

Local Abbreviation ok := (read_alike h1 h2).

Lemma ok_sub s t : sub s t -> ok t -> ok s.
Proof. intros Hs [H|H]; [left; exact H|right; eapply no_set_sub; eassumption]. Qed.

Lemma ok_nil : ok "".
Proof. right. reflexivity. Qed.

Lemma ok_app s t : ok s -> ok t -> ok (s ++ t).
Proof.
intros [H|Hs] Ht; [left; exact H|]. destruct Ht as [H|Ht]; [left; exact H|].
right. unfold no_set in *. rewrite elem_app. 
apply negb_true_iff in Hs, Ht. rewrite Hs, Ht. reflexivity.
Qed.

Lemma regex_parse_loop_indep fuel : forall defn s ps,
ok defn ->
agree (rem3 defn) (RegexSymbol.parse_loop h1 fuel defn s ps)
                  (RegexSymbol.parse_loop h2 fuel defn s ps).
Proof.
induction fuel as [|fuel IH]; intros defn s ps Hok; cbn [RegexSymbol.parse_loop].
{ apply agree_fail. intros; discriminate. }
destruct defn as [|c0 defn0]; [apply agree_fail; intros; discriminate|].
assert (Hrec : forall d s ps, sub d (String c0 defn0) ->
          agree (rem3 (String c0 defn0)) (RegexSymbol.parse_loop h1 fuel d s ps)
                (RegexSymbol.parse_loop h2 fuel d s ps)).
{ intros d s0 ps0 Hd. eapply agree_weaken; [apply IH; eapply ok_sub; eassumption|].
  intros [[n rem] ps'] Hr. unfold rem3 in *. eapply sub_trans; eassumption. }
destruct (Re.match_at RegexSymbol.RE_PARSE (String c0 defn0)) as [m|] eqn:E.
2:{ apply agree_bind_same. intros [s' ps'] _. apply Hrec, sub_cons. }
pose proof (match_at_inv _ _ E) as (Hrest & _).
destruct (Re.has "set" m) eqn:Eset.
{ apply agree_bind_same. intros [alpha defn1] Hset.
  apply set_loop_sub in Hset.
  assert (Hd1 : sub defn1 (String c0 defn0)) by (eapply sub_trans; eassumption).
  destruct Hok as [[Hi Hd]|Hno].
  - rewrite Hi, Hd. apply agree_bind_same. intros [s' ps'] _. apply Hrec, Hd1.
  - rewrite (no_set_no_group _ Hno E) in Eset. discriminate. }
destruct (Re.has "done" m).
{ apply agree_same. intros [[n rem] ps'] H. unfold rem3.
  destruct (Symbol_.update _ _ _); cbn [bind] in H; try discriminate.
  injection H as _ <- _. exact Hrest. }
destruct (Re.has "dot" m).
{ apply agree_bind_same. intros ps' _. apply Hrec, Hrest. }
destruct (Re.has "esc" m).
{ destruct (Re.group0 m) as [|c1 [|c2 g]]; try (apply agree_fail; intros; discriminate).
  apply agree_bind_same. intros [s' ps'] _. apply Hrec, Hrest. }
destruct (List.rev (RegexSymbol.kids s)) as [|last l];
  [apply agree_fail; intros; discriminate|].
apply agree_bind_same. intros prev _.
destruct (is_repeat (kind_ prev)); [apply agree_fail; intros; discriminate|].
match goal with |- context [let '(_, _) := ?e in _] => destruct e as [min_ max_] end.
apply agree_bind_same. intros [s' ps'] _. apply Hrec, Hrest.
Qed.

Lemma regex_parse_indep defn ps :
ok defn ->
agree (rem3 defn) (RegexSymbol.parse h1 defn ps) (RegexSymbol.parse h2 defn ps).
Proof.
intros Hok. unfold RegexSymbol.parse.
destruct (implicit ps) as [n ps0].
apply agree_bind_same. intros [sname ps1] _.
destruct defn as [|c defn]; [apply agree_fail; intros; discriminate|].
assert (Hs : sub defn (String c defn)) by apply sub_cons.
repeat match goal with
| |- context [match ?x with _ => _ end] =>
    match type of x with
    | ascii => destruct x as [[] [] [] [] [] [] [] []]
    | bool => destruct x
    end
end; try (apply agree_fail; intros; discriminate);
(eapply agree_weaken;
 [apply regex_parse_loop_indep; eapply ok_sub; eassumption|
  intros [[n0 rem] ps'] Hr; unfold rem3 in *; eapply sub_trans; eassumption]).
Qed.

Ltac fails := apply agree_fail; intros; discriminate.

Lemma defn_parse_indep_ fuel :
(forall defn in_func in_concat result_ ps,
    ok defn ->
    agree (rem3 defn) (Defn.parse_ h1 fuel defn in_func in_concat result_ ps)
                      (Defn.parse_ h2 fuel defn in_func in_concat result_ ps))
/\ (forall sname defn args ps,
       ok defn ->
       agree (rem2 defn) (Defn.func_loop h1 fuel sname defn args ps)
                         (Defn.func_loop h2 fuel sname defn args ps)).
Proof.
induction fuel as [|fuel [IHp IHf]]; [split; intros; fails|].
split.
- intros defn in_func in_concat result_ ps Hok. cbn [Defn.parse_].
  destruct defn as [|c0 defn0]; [apply agree_same; intros a H; injection H as <-; apply sub_refl|].
  remember (String c0 defn0) as defn eqn:Edefn.
  assert (HrecP : forall d in_func in_concat res ps, sub d defn ->
            agree (rem3 defn) (Defn.parse_ h1 fuel d in_func in_concat res ps)
                  (Defn.parse_ h2 fuel d in_func in_concat res ps)).
  { intros d f c res ps0 Hd. eapply agree_weaken; [apply IHp; eapply ok_sub; eassumption|].
    intros [[n rem] ps'] Hr. unfold rem3 in *. eapply sub_trans; eassumption. }
  assert (HrecF : forall sname d args ps, sub d defn ->
            agree (rem2 defn) (Defn.func_loop h1 fuel sname d args ps)
                  (Defn.func_loop h2 fuel sname d args ps)).
  { intros sname d args ps0 Hd. eapply agree_weaken; [apply IHf; eapply ok_sub; eassumption|].
    intros [rem ps'] Hr. unfold rem2 in *. eapply sub_trans; eassumption. }
  destruct (Re.match_at Defn.RE_DEFN defn) as [m|] eqn:E; [|fails].
  pose proof (match_at_inv _ _ E) as (Hrest & _).
  destruct (Re.is_not_none "ws" m); [apply HrecP, Hrest|].
  destruct (Re.has "quote" m).
  { apply agree_bind_same. intros [[[n o] d'] ps'] Ht. apply text_parse_sub in Ht.
    apply HrecP, Ht. }
  destruct (Re.has "hexstr" m).
  { apply agree_bind_same. intros [[n d'] ps'] Ht. apply bin_parse_sub in Ht.
    apply HrecP, Ht. }
  destruct (Re.has "regex" m).
  { eapply agree_bind; [apply regex_parse_indep, Hok|].
    intros [[n d'] ps'] _ Hq. apply HrecP, Hq. }
  destruct (Re.has "func" m).
  { destruct (String.eqb (Re.get "func" m) "import"); [fails|].
    destruct (implicit ps) as [n ps0].
    apply agree_bind_same. intros ps1 _.
    eapply agree_bind; [apply HrecF, Hrest|].
    intros [d' ps'] _ Hq. apply HrecP, Hq. }
  destruct (Re.has "ref" m).
  { apply agree_bind_same. intros [ref ps0] _.
    apply agree_bind_same. intros [n ps1] _. apply HrecP, Hrest. }
  destruct (Re.has "sym" m).
  { apply agree_bind_same. intros [sym_name ps0] _.
    apply agree_bind_same. intros [n ps1] _. apply HrecP, Hrest. }
  destruct (Re.has "comment" m).
  { apply agree_same. intros a H. injection H as <-. apply sub_nil. }
  destruct (Re.has "infunc" m).
  { destruct (in_func || _)%bool; [|fails].
    apply agree_same. intros a H. injection H as <-. apply sub_refl. }
  destruct (Re.has "implconcat" m).
  { eapply agree_bind; [apply HrecP, Hrest|].
    intros [[parts d'] ps'] _ Hq.
    destruct (negb (Str.startswith ")" d')); [fails|].
    destruct (implicit ps') as [n ps0].
    apply agree_bind_same. intros [c ps1] _.
    apply agree_bind_same. intros ps2 _.
    apply HrecP. eapply sub_trans; [apply sub_drop|exact Hq]. }
  destruct (Re.has "maybe" m || Re.has "repeat" m)%bool; [|fails].
  destruct (List.rev result_) as [|parts others]; [fails|].
  apply agree_bind_same. intros [[sample min_] max_] _.
  destruct (implicit ps) as [n ps0].
  apply agree_bind_same. intros [rep ps1] _.
  apply agree_bind_same. intros inner _.
  apply agree_bind_same. intros ps2 _.
  apply HrecP, Hrest.
- intros sname defn args ps Hok. cbn [Defn.func_loop].
  eapply agree_bind; [apply IHp, Hok|].
  intros [[names d'] ps'] _ Hq. unfold rem3 in Hq. cbn [fst snd] in Hq.
  destruct d' as [|c d'']; [fails|].
  destruct (negb (Str.elem c ",)")); [fails|].
  apply agree_bind_same. intros [args' ps0] _.
  assert (Hd : sub d'' defn) by (eapply sub_trans; [apply sub_cons|exact Hq]).
  destruct (Ascii.eqb c ")").
  + apply agree_same. intros [rem ps1] H. unfold rem2.
    destruct (Symbol_.update _ _ _); cbn [bind] in H; try discriminate.
    injection H as <- _. exact Hd.
  + eapply agree_weaken; [apply IHf; eapply ok_sub; eassumption|].
    intros [rem ps1] Hr. unfold rem2 in *. eapply sub_trans; eassumption.
Qed.

Lemma defn_parse_indep defn ps :
ok defn -> Defn.parse h1 defn ps = Defn.parse h2 defn ps.
Proof.
intros Hok. unfold Defn.parse.
destruct (proj1 (defn_parse_indep_ (2 * String.length defn + 2)) defn false false [] ps Hok)
  as [-> _].
reflexivity.
Qed.

Lemma concat_parse_indep sname defn ps :
ok defn -> Defn.concat_parse h1 sname defn ps = Defn.concat_parse h2 sname defn ps.
Proof.
intros Hok. unfold Defn.concat_parse.
destruct (ConcatSymbol.new _ _ _ _ _) as [[c ps0]| | |]; cbn [bind]; try reflexivity.
rewrite (defn_parse_indep ps0 Hok). reflexivity.
Qed.

Hypothesis Hopen : forall path t, open_ h1 path = Some t -> ok t.

Lemma grammar_parse_indep fuel : forall g text filename imports prefix,
ok text ->
GrammarParse.parse h1 fuel g text filename imports prefix
= GrammarParse.parse h2 fuel g text filename imports prefix.
Proof.
destruct Hfiles as (Hsha & Hop & Hsib & _).
induction fuel as [|fuel IH]; intros g text filename imports prefix Hok; [reflexivity|].
cbn [GrammarParse.parse]. rewrite <- (Hsha text).
destruct (Dict.mem (sha512_6 h1 text) imports); [reflexivity|].
match goal with
| |- bind (?f1 _ _ _ _ _) _ = bind (?f2 _ _ _ _ _) _ =>
    remember f1 as pl1 eqn:E1; remember f2 as pl2 eqn:E2;
    assert (Hlines : forall lines ljoin sym ps imports,
              Forall ok lines -> ok ljoin ->
              pl1 lines ljoin sym ps imports = pl2 lines ljoin sym ps imports)
end.
{ induction lines as [|line rest IHl]; intros ljoin sym ps imps Hl Hj.
  - rewrite E1, E2. reflexivity.
  - rewrite E1, E2. cbn [bind]. rewrite <- E1, <- E2.
    inversion Hl as [|? ? Hline Hrest]; subst.
    assert (Hjl : ok (ljoin ++ line)) by (apply ok_app; assumption).
    destruct (Re.match_at GrammarParse.RE_LINE (ljoin ++ line)) as [m|] eqn:E;
      [|reflexivity].
    assert (Hget : forall name, ok (Re.get name m)).
    { intros name. eapply ok_sub; [eapply get_sub; exact E|exact Hjl]. }
    destruct (Re.is_not_none "broken" m); [apply IHl; auto|].
    destruct (Re.has "comment" m || Re.is_not_none "nothing" m)%bool;
      [apply IHl; auto using ok_nil|].
    destruct (Re.has "name" m).
    + destruct (Str.startswith "+" _ || Re.has "weight" m)%bool.
      * apply bind_ext; intros weight _. apply bind_ext; intros [c ps0] _.
        rewrite (defn_parse_indep ps0 (Hget "def")).
        apply bind_ext; intros [res ps1] _. apply bind_ext; intros ps2 _.
        apply IHl; auto using ok_nil.
      * destruct (Str.startswith "import(" _).
        -- destruct (Dict.get _ _); [reflexivity|].
           apply bind_ext; intros [[[text_name value] defn] ps0] _.
           destruct (negb _); [reflexivity|].
           destruct (Str.lstrip _); [|reflexivity].
           assert (Hpaths : match filename with
                            | Some fn => [sibling h2 fn value; value]
                            | None => [value]
                            end
                            = match filename with
                              | Some fn => [sibling h1 fn value; value]
                              | None => [value]
                              end).
           { destruct filename as [fn|]; [rewrite (Hsib fn value)|]; reflexivity. }
           rewrite Hpaths.
           match goal with
           | |- bind (?t1 ?p) _ = bind (?t2 ?p) _ =>
               assert (Htry : forall paths, t1 paths = t2 paths)
           end.
           { induction paths as [|import_fn paths IHp]; [reflexivity|].
             cbn [bind]. rewrite <- (Hop import_fn).
             destruct (open_ h1 import_fn) as [import_text|] eqn:Eo; [|exact IHp].
             rewrite (IH (grmr ps0) import_text (Some import_fn) imps (Re.get "name" m)
                        (Hopen _ Eo)).
             reflexivity. }
           rewrite Htry. apply bind_ext; intros [ps1 imports0] _.
           apply IHl; auto using ok_nil.
        -- rewrite (concat_parse_indep (Re.get "name" m) (next_line ps) (Hget "def")).
           apply bind_ext; intros [c ps0] _. apply IHl; auto using ok_nil.
    + destruct sym as [c|]; [|reflexivity].
      destruct (match Dict.get c (tab (next_line ps)) with
                | Some s => is_choice (kind_ s) | None => false end); [|reflexivity].
      apply bind_ext; intros weight _.
      rewrite (defn_parse_indep (next_line ps) (Hget "cont")).
      apply bind_ext; intros [res ps0] _. apply bind_ext; intros ps1 _.
      apply IHl; auto using ok_nil. }
rewrite Hlines; [reflexivity| |apply ok_nil].
eapply Forall_impl; [|apply lines_sub]. intros line Hline. exact (ok_sub Hline Hok).
Qed.

Lemma init_indep text limit kwargs :
ok text -> Construct.init h1 text limit kwargs = Construct.init h2 text limit kwargs.
Proof.
intros Hok. unfold Construct.init.
destruct Hfiles as (_ & _ & _ & Hdep). rewrite <- Hdep.
match goal with |- context [if ?b then _ else _] => destruct b end; [reflexivity|].
rewrite (grammar_parse_indep (S (import_depth h1)) _ None [] "" Hok). reflexivity.
Qed.

End Hosts.

End HostFacts.

Lemma ended_bind {A B} (m : result A) (f : A -> result B) :
ended (bind m f) -> finished m.
Proof. unfold finished. destruct m; simpl; intros H; try discriminate; destruct H. Qed.




(** ** Termination analysis *)

Module DictFacts.
Section Facts.
Context {V : Type}.
Implicit Types (d : Dict.t V) (k : string) (v : V).

Lemma get_set_eq d k v : Dict.get k (Dict.set k v d) = Some v.
Proof.
induction d as [|[k' v'] d IH]; simpl.
- rewrite String.eqb_refl. reflexivity.
- destruct (String.eqb k' k) eqn:E; simpl.
  + rewrite String.eqb_refl. reflexivity.
  + rewrite E. exact IH.
Qed.

Lemma get_set_neq d k k' v : k' <> k -> Dict.get k' (Dict.set k v d) = Dict.get k' d.
Proof.
intros Hne. induction d as [|[k0 v0] d IH]; simpl.
- destruct (String.eqb k k') eqn:E; [apply String.eqb_eq in E; congruence|reflexivity].
- destruct (String.eqb k0 k) eqn:E; simpl.
  + apply String.eqb_eq in E. subst k0.
    destruct (String.eqb k k') eqn:E'; [apply String.eqb_eq in E'; congruence|reflexivity].
  + destruct (String.eqb k0 k'); [reflexivity|exact IH].
Qed.

Lemma keys_set d k v v0 : Dict.get k d = Some v0 -> Dict.keys (Dict.set k v d) = Dict.keys d.
Proof.
unfold Dict.keys. induction d as [|[k' v'] d IH]; simpl; [discriminate|].
destruct (String.eqb k' k) eqn:E; simpl.
- apply String.eqb_eq in E. subst. reflexivity.
- intros H. rewrite (IH H). reflexivity.
Qed.

Lemma set_same d k v : Dict.get k d = Some v -> Dict.set k v d = d.
Proof.
induction d as [|[k' v'] d IH]; simpl; [discriminate|].
destruct (String.eqb k' k) eqn:E.
- apply String.eqb_eq in E. intros H. injection H as <-. subst. reflexivity.
- intros H. rewrite (IH H). reflexivity.
Qed.

Lemma get_In d k v : Dict.get k d = Some v -> In v (Dict.values d) /\ In k (Dict.keys d).
Proof.
unfold Dict.values, Dict.keys. induction d as [|[k' v'] d IH]; simpl; [discriminate|].
destruct (String.eqb k' k) eqn:E.
- apply String.eqb_eq in E. intros H. injection H as <-. auto.
- intros H. destruct (IH H). auto.
Qed.

Lemma mem_get d k : Dict.mem k d = true <-> exists v, Dict.get k d = Some v.
Proof.
unfold Dict.mem. destruct (Dict.get k d); split; intros H; eauto; try discriminate.
destruct H; discriminate.
Qed.

Lemma In_keys_get d k : In k (Dict.keys d) -> exists v, Dict.get k d = Some v.
Proof.
unfold Dict.keys. induction d as [|[k' v'] d IH]; simpl; [contradiction|].
intros [->|H].
- rewrite String.eqb_refl. eauto.
- destruct (String.eqb k' k); eauto.
Qed.

Lemma NameSet_mem_In k (l : list string) : NameSet.mem k l = true <-> In k l.
Proof.
unfold NameSet.mem. rewrite existsb_exists. split.
- intros (x & Hx & E). apply String.eqb_eq in E. subst. assumption.
- intros H. exists k. split; [assumption|apply String.eqb_refl].
Qed.

(** With distinct keys every entry is the one its key gets. *)
Lemma In_values_get d v :
Sanity.distinct (Dict.keys d) = true -> In v (Dict.values d) ->
exists k, Dict.get k d = Some v.
Proof.
unfold Dict.values, Dict.keys. induction d as [|[k' v'] d IH]; simpl; [contradiction|].
intros Hd [->|H].
- exists k'. rewrite String.eqb_refl. reflexivity.
- apply andb_prop in Hd as [Hk Hd]. destruct (IH Hd H) as [k Hk'].
  exists k. destruct (String.eqb k' k) eqn:E; [|assumption].
  apply String.eqb_eq in E. subst k'.
  apply negb_true_iff in Hk.
  assert (In k (map fst d)) by (apply (get_In d k Hk')).
  apply NameSet_mem_In in H0. congruence.
Qed.

End Facts.
End DictFacts.

Module SanityFacts.
Import Sanity DictFacts.

Lemma all_terminate_marked tab l :
(forall c, In c l -> Dict.mem c tab = true) ->
all_terminate tab l = Ok (forallb (marked tab) l).
Proof.
induction l as [|c l IH]; intros Hc; simpl; [reflexivity|].
unfold marked at 1. unfold Dict.lookup.
destruct (proj1 (mem_get tab c) (Hc c (or_introl eq_refl))) as [s Hs].
rewrite Hs. cbn [bind].
destruct (is_true (can_terminate s)); [|reflexivity].
apply IH. intros c' H. apply Hc. right. assumption.
Qed.

Lemma any_terminate_marked tab l :
(forall c, In c l -> Dict.mem c tab = true) ->
any_terminate tab l = Ok (existsb (marked tab) l).
Proof.
induction l as [|c l IH]; intros Hc; simpl; [reflexivity|].
unfold marked at 1. unfold Dict.lookup.
destruct (proj1 (mem_get tab c) (Hc c (or_introl eq_refl))) as [s Hs].
rewrite Hs. cbn [bind].
destruct (is_true (can_terminate s)); [reflexivity|].
apply IH. intros c' H. apply Hc. right. assumption.
Qed.

Lemma existsb_set_true (ct : list (option bool)) i :
i < List.length ct ->
existsb is_true (firstn i ct ++ Some true :: skipn (S i) ct) = true
/\ List.length (firstn i ct ++ Some true :: skipn (S i) ct) = List.length ct.
Proof.
intros Hi. split.
- rewrite existsb_app. simpl. apply orb_true_r.
- rewrite length_app, length_firstn. cbn [List.length]. rewrite length_skipn. lia.
Qed.

(** The loop over the alternatives marks one of them exactly when all
    the children of one of them are marked. *)
Lemma mark_choices_spec tab values : forall i ct,
(forall alt c, In alt values -> In c alt -> Dict.mem c tab = true) ->
i + List.length values <= List.length ct ->
exists ct',
  mark_choices tab values i ct = Ok ct'
  /\ List.length ct' = List.length ct
  /\ existsb is_true ct' = existsb is_true ct || existsb (forallb (marked tab)) values
  /\ (existsb (forallb (marked tab)) values = false -> ct' = ct).
Proof.
induction values as [|alt values IH]; intros i ct Hc Hlen;
  cbn [mark_choices existsb List.length] in *.
- exists ct. rewrite orb_false_r. auto.
- rewrite all_terminate_marked by (intros c H; eapply Hc; [left; reflexivity|exact H]).
  cbn [bind].
  assert (Hc' : forall alt' c, In alt' values -> In c alt' -> Dict.mem c tab = true)
    by (intros; eapply Hc; [right|]; eassumption).
  destruct (forallb (marked tab) alt) eqn:Ea.
  + assert (Hi : i < List.length ct) by lia.
    apply Nat.ltb_lt in Hi as Hi'. rewrite Hi'.
    destruct (existsb_set_true ct Hi) as [Ht Hl].
    destruct (IH (S i) (firstn i ct ++ Some true :: skipn (S i) ct) Hc') as (ct' & E & L & X & _);
      [rewrite Hl; lia|].
    exists ct'. rewrite E, L, Hl, X, Ht. cbn [orb].
    repeat split; [|discriminate]. rewrite orb_true_r. reflexivity.
  + destruct (IH (S i) ct Hc') as (ct' & E & L & X & Y); [lia|].
    exists ct'. rewrite E, L, X. cbn [orb]. auto.
Qed.

Lemma set_kind_same (s : symbol) : set_kind (kind_ s) s = s.
Proof. destruct s; reflexivity. Qed.

Lemma same_symbol_refl s : same_symbol s s.
Proof. repeat split. Qed.

Lemma same_symbol_trans a b c : same_symbol a b -> same_symbol b c -> same_symbol a c.
Proof. intros (A1 & A2 & A3) (B1 & B2 & B3). repeat split; congruence. Qed.

(** What does not depend on the marks of a symbol. *)
Lemma same_symbol_shape s s' :
same_symbol s s' ->
children s = children s'
/\ references s = references s'
/\ initially_true (kind_ s) = initially_true (kind_ s')
/\ (forall tab, rule tab s = rule tab s')
/\ (forall tab, existsb (marked tab) (children s) = existsb (marked tab) (children s')).
Proof.
intros (_ & _ & Hk). unfold children, references, rule.
destruct s as [n l ct k], s' as [n' l' ct' k']; cbn [kind_] in *.
destruct k, k'; try discriminate Hk; simpl in Hk; try injection Hk as ?; subst;
  repeat split; reflexivity.
Qed.

Lemma marked_more t t' c : more_marked t t' -> marked t c = true -> marked t' c = true.
Proof.
intros [_ H] Hm. unfold marked in *.
destruct (Dict.get c t) as [s|] eqn:E; [|discriminate].
destruct (H c s E) as (s' & E' & _ & Hs). rewrite E'. auto.
Qed.

Lemma forallb_marked_more t t' l :
more_marked t t' -> forallb (marked t) l = true -> forallb (marked t') l = true.
Proof.
intros Hm. rewrite !forallb_forall. intros H c Hc. eapply marked_more; eauto.
Qed.

Lemma rule_more t t' s :
more_marked t t' -> rule t s = true -> rule t' s = true.
Proof.
intros Hm. unfold rule.
destruct (kind_ s);
  try (intros H; apply orb_prop in H as [H|H];
       [rewrite H; reflexivity
       |rewrite (forallb_marked_more _ Hm H); apply orb_true_r]).
rewrite !existsb_exists. intros (alt & Ha & H). exists alt. split; [assumption|].
eapply forallb_marked_more; eassumption.
Qed.

Lemma more_marked_refl t : more_marked t t.
Proof. split; [reflexivity|]. intros k s H. exists s. auto using same_symbol_refl. Qed.

Lemma more_marked_trans a b c : more_marked a b -> more_marked b c -> more_marked a c.
Proof.
intros [K1 H1] [K2 H2]. split; [congruence|].
intros k s Hs. destruct (H1 k s Hs) as (s1 & E1 & S1 & M1).
destruct (H2 k s1 E1) as (s2 & E2 & S2 & M2).
exists s2. split; [assumption|]. split; [eapply same_symbol_trans; eassumption|auto].
Qed.

Lemma children_references s c : In c (children s) -> In c (references s).
Proof. intros H. unfold references. apply in_or_app. left. assumption. Qed.

Lemma alternative_references s wc ct alt c :
kind_ s = Choice wc ct -> In alt (WeightedChoice.values wc) -> In c alt ->
In c (references s).
Proof.
intros Hk Ha Hc. unfold references. rewrite Hk. apply in_or_app. right.
apply in_concat. exists alt. split; assumption.
Qed.

Lemma is_true_Some_true o : o <> Some false -> is_true o = true -> o = Some true.
Proof. destruct o as [[]|]; simpl; congruence. Qed.

Lemma is_true_None o : o <> Some false -> is_true o = false -> o = None.
Proof. destruct o as [[]|]; simpl; congruence. Qed.

(** One call of [update_can_terminate] on a symbol not marked yet: it
    returns what the rule says, and marks the symbol when the rule
    holds. *)
Lemma update_spec tab k s :
sound tab -> Dict.get k tab = Some s -> can_terminate s = None ->
exists s',
  update_can_terminate tab s = Ok (s', rule tab s)
  /\ same_symbol s s'
  /\ (rule tab s = true -> can_terminate s' = Some true)
  /\ (rule tab s = false -> s' = s)
  /\ match kind_ s' with
     | Choice wc ct =>
         List.length ct = List.length (WeightedChoice.values wc)
         /\ (can_terminate s' = None -> existsb is_true ct = false)
     | _ => True
     end.
Proof.
intros Hs Hg Hn. destruct (Hs k s Hg) as (Hc & Hnf & Hinit & Hrule & Hshape).
assert (Hi : initially_true (kind_ s) = false).
{ destruct (initially_true (kind_ s)); [|reflexivity].
  rewrite Hinit in Hn by reflexivity. discriminate. }
assert (Hall : all_terminate tab (children s) = Ok (forallb (marked tab) (children s)))
  by (apply all_terminate_marked; intros c H; apply Hc, children_references, H).
unfold update_can_terminate, rule.
destruct (kind_ s) as [|v|wc ct|c|fname args|ref|c|c mn mx|c mn mx idx|v|v] eqn:Ek;
  try discriminate Hi;
  try (rewrite Hall; cbn [bind orb initially_true];
       destruct (forallb (marked tab) (children s)) eqn:Eb;
       [exists (set_can_terminate (Some true) s)
       |exists s];
       cbn [kind_ can_terminate set_can_terminate]; rewrite ?Ek;
       repeat split; auto; discriminate).
destruct Hshape as [Hlen Hct].
destruct (@mark_choices_spec tab (WeightedChoice.values wc) 0 ct) as (ct' & E & L & X & Y).
{ intros alt c Ha Hc'. apply Hc. eapply alternative_references; eassumption. }
{ lia. }
rewrite E. cbn [bind]. rewrite X, (Hct Hn). cbn [orb].
destruct (existsb (forallb (marked tab)) (WeightedChoice.values wc)) eqn:Eb.
- exists (set_can_terminate (Some true) (set_kind (Choice wc ct') s)).
  repeat split; auto; try congruence; try discriminate.
  unfold same_symbol, set_can_terminate, set_kind. simpl. rewrite Ek. reflexivity.
- rewrite (Y eq_refl), <- Ek, set_kind_same. exists s. rewrite Ek.
  repeat split; auto; discriminate.
Qed.

Lemma mem_more t t' c : more_marked t t' -> Dict.mem c t = true -> Dict.mem c t' = true.
Proof.
intros [_ H] Hm. apply mem_get in Hm as [s Hs].
destruct (H c s Hs) as (s' & E & _). apply mem_get. eauto.
Qed.

(** Writing a symbol back with more marks keeps the table sound. *)
Lemma set_sound tab k s s' :
sound tab -> Dict.get k tab = Some s -> same_symbol s s' ->
can_terminate s' <> Some false ->
(is_true (can_terminate s) = true -> is_true (can_terminate s') = true) ->
(is_true (can_terminate s') = true -> rule tab s' = true) ->
match kind_ s' with
| Choice wc ct =>
    List.length ct = List.length (WeightedChoice.values wc)
    /\ (can_terminate s' = None -> existsb is_true ct = false)
| _ => True
end ->
sound (Dict.set k s' tab) /\ more_marked tab (Dict.set k s' tab).
Proof.
intros Hs Hg Hsame Hnf Hmono Hrule Hshape.
assert (Hm : more_marked tab (Dict.set k s' tab)).
{ split; [eapply keys_set; eassumption|].
  intros k0 s0 H0. destruct (String.eqb_spec k0 k) as [->|Hne].
  - rewrite get_set_eq. exists s'. rewrite Hg in H0. injection H0 as <-. auto.
  - rewrite get_set_neq by assumption. exists s0. auto using same_symbol_refl. }
split; [|exact Hm].
intros k0 s0 H0. destruct (String.eqb_spec k0 k) as [->|Hne].
- rewrite get_set_eq in H0. injection H0 as <-.
  destruct (Hs k s Hg) as (Hc & _ & Hinit & _ & _).
  destruct (same_symbol_shape Hsame) as (_ & Hr & Hi & _ & _).
  repeat split.
  + intros c H. eapply mem_more; [exact Hm|]. apply Hc. rewrite Hr. assumption.
  + assumption.
  + intros H. rewrite <- Hi in H. apply is_true_Some_true; [assumption|].
    apply Hmono. rewrite (Hinit H). reflexivity.
  + intros H. eapply rule_more; [exact Hm|]. auto.
  + assumption.
- rewrite get_set_neq in H0 by assumption.
  destruct (Hs k0 s0 H0) as (Hc & Hnf0 & Hinit & Hr & Hsh).
  repeat split; auto.
  + intros c H. eapply mem_more; [exact Hm|]. auto.
  + intros H. eapply rule_more; [exact Hm|]. auto.
Qed.

Lemma pending_set tab k s s' :
Dict.get k tab = Some s ->
is_true (can_terminate s) = false -> is_true (can_terminate s') = true ->
pending (Dict.set k s' tab) < pending tab.
Proof.
unfold pending, Dict.values. intros Hg Hs Hs'.
induction tab as [|[k0 v0] tab IH]; simpl in *; [discriminate|].
destruct (String.eqb k0 k) eqn:E; simpl.
- injection Hg as ->. rewrite Hs, Hs'. simpl. lia.
- specialize (IH Hg). destruct (negb (is_true (can_terminate v0))); simpl; lia.
Qed.

(** One pass over the keys: nothing changes and every unmarked symbol
    visited fails the rule, or a symbol was marked. *)
Lemma mark_pass_spec keys : forall tab d,
sound tab -> (forall k, In k keys -> Dict.mem k tab = true) ->
exists tab' d',
  mark_pass keys tab d = Ok (tab', d')
  /\ sound tab' /\ more_marked tab tab'
  /\ ((d' = d /\ tab' = tab
       /\ forall k s, In k keys -> Dict.get k tab = Some s ->
                      is_true (can_terminate s) = false -> rule tab s = false)
      \/ (d' = true /\ pending tab' < pending tab)).
Proof.
induction keys as [|k keys IH]; intros tab d Hs Hk; cbn [mark_pass].
- exists tab, d. split; [reflexivity|]. split; [assumption|].
  split; [apply more_marked_refl|]. left. split; [reflexivity|]. split; [reflexivity|].
  intros k s [].
- destruct (proj1 (mem_get tab k) (Hk k (or_introl eq_refl))) as [s Hg].
  rewrite (lookup_Some _ _ Hg). cbn [bind].
  destruct (Hs k s Hg) as (_ & Hnf & _).
  assert (Hk' : forall k0, In k0 keys -> Dict.mem k0 tab = true)
    by (intros; apply Hk; right; assumption).
  destruct (can_terminate s) as [b|] eqn:Ect.
  + destruct (IH tab d Hs Hk') as (tab' & d' & E & Hs' & Hm & Hcase).
    exists tab', d'. split; [assumption|]. split; [assumption|]. split; [assumption|].
    destruct Hcase as [(-> & -> & Hst)|Hch]; [left|right; exact Hch].
    split; [reflexivity|]. split; [reflexivity|].
    intros k0 s0 [<-|Hin] H0 Hf; [|eauto].
    rewrite Hg in H0. injection H0 as <-. rewrite Ect in Hf.
    destruct b; [discriminate|congruence].
  + destruct (@update_spec tab k s Hs Hg Ect) as (s' & E & Hsame & Ht & Hf & Hshape).
    rewrite E. cbn [bind].
    destruct (rule tab s) eqn:Er.
    * specialize (Ht eq_refl).
      destruct (@set_sound tab k s s' Hs Hg Hsame) as [Hs1 Hm1].
      { rewrite Ht. discriminate. }
      { intros _. rewrite Ht. reflexivity. }
      { intros _. rewrite <- (proj1 (proj2 (proj2 (proj2 (@same_symbol_shape s s' Hsame))))).
        exact Er. }
      { exact Hshape. }
      assert (Hp : pending (Dict.set k s' tab) < pending tab)
        by (eapply pending_set; [eassumption|rewrite Ect; reflexivity|rewrite Ht; reflexivity]).
      destruct (IH (Dict.set k s' tab) (true || d) Hs1) as (tab' & d' & E' & Hs' & Hm & Hcase).
      { intros k0 H0. eapply mem_more; [exact Hm1|]. apply Hk'. assumption. }
      exists tab', d'. split; [assumption|]. split; [assumption|].
      split; [eapply more_marked_trans; eassumption|].
      right. destruct Hcase as [(-> & -> & _)|[-> Hlt]]; split; auto; lia.
    * rewrite (Hf eq_refl), (@set_same _ tab k s Hg). cbn [orb].
      destruct (IH tab d Hs Hk') as (tab' & d' & E' & Hs' & Hm & Hcase).
      exists tab', d'. split; [assumption|]. split; [assumption|]. split; [assumption|].
      destruct Hcase as [(-> & -> & Hst)|Hch]; [left|right; exact Hch].
      split; [reflexivity|]. split; [reflexivity|].
      intros k0 s0 [<-|Hin] H0 Hf0; [|eauto].
      rewrite Hg in H0. injection H0 as <-. exact Er.
Qed.

(** The marking loop ends, in a table that is sound and stable. *)
Lemma mark_loop_spec fuel : forall tab,
sound tab -> pending tab < fuel ->
exists tab',
  mark_loop fuel tab = Ok tab' /\ sound tab' /\ more_marked tab tab' /\ stable tab'.
Proof.
induction fuel as [|fuel IH]; intros tab Hs Hp; [lia|]. cbn [mark_loop].
destruct (@mark_pass_spec (Dict.keys tab) tab false Hs) as (tab1 & d & E & Hs1 & Hm1 & Hcase).
{ intros k H. apply mem_get. apply In_keys_get. assumption. }
rewrite E. cbn [bind].
destruct Hcase as [(-> & -> & Hst)|[-> Hlt]].
- exists tab. split; [reflexivity|]. split; [assumption|].
  split; [apply more_marked_refl|].
  intros k s Hg Hf. eapply Hst; eauto. apply (@get_In _ tab k s Hg).
- destruct (IH tab1 Hs1) as (tab' & E' & Hs' & Hm' & Hst); [lia|].
  exists tab'. split; [assumption|]. split; [assumption|].
  split; [eapply more_marked_trans; eassumption|assumption].
Qed.

Lemma pending_le tab : pending tab <= List.length tab.
Proof.
unfold pending, Dict.values.
etransitivity; [apply filter_length_le|]. rewrite length_map. reflexivity.
Qed.

Lemma ready_sound tab : ready tab = true -> sound tab.
Proof.
unfold ready, closed. intros H.
apply andb_prop in H as [H Hu]. apply andb_prop in H as [_ Hc].
rewrite forallb_forall in Hc, Hu.
intros k s Hg. destruct (@get_In _ tab k s Hg) as [Hin _].
specialize (Hc s Hin). specialize (Hu s Hin). rewrite forallb_forall in Hc.
unfold unmarked in Hu. apply andb_prop in Hu as [Hf Hsh].
split; [exact Hc|].
destruct (can_terminate s) as [[]|] eqn:Ect; simpl in Hf; try discriminate Hf.
- split; [discriminate|]. split; [reflexivity|]. split.
  + intros _. unfold rule. destruct (kind_ s); try discriminate Hf; reflexivity.
  + destruct (kind_ s); try exact I. discriminate Hf.
- apply negb_true_iff in Hf. split; [discriminate|]. split; [congruence|].
  split; [discriminate|].
  destruct (kind_ s); try exact I.
  apply andb_prop in Hsh as [Hl He]. apply Nat.eqb_eq in Hl.
  apply negb_true_iff in He. auto.
Qed.

(** The final loop raises for the first symbol that is not marked and has
    no marked child. *)
Lemma check_paths_spec tab l :
(forall s c, In s l -> In c (children s) -> Dict.mem c tab = true) ->
check_paths tab l
= match find (fun s => negb (has_path tab s)) l with
  | None => Ok tt
  | Some s =>
      raise_at IntegrityError
        ("Symbol has no paths to termination (infinite recursion?): " ++ name s)
        (AtLine (line_no s))
  end.
Proof.
induction l as [|s l IH]; intros Hc; cbn [check_paths find]; [reflexivity|].
unfold has_path at 1.
rewrite any_terminate_marked by (intros c H; eapply Hc; [left; reflexivity|exact H]).
destruct (is_true (can_terminate s)); cbn [bind orb negb].
- apply IH. intros s' c H. apply Hc. right. assumption.
- destruct (existsb (marked tab) (children s)); cbn [negb]; [|reflexivity].
  apply IH. intros s' c H. apply Hc. right. assumption.
Qed.

End SanityFacts.

(** C8: on a symbol table as parsing and normalization hand it over, the
    marking loop of [Grammar.sanity_check] ends in a fixpoint of the rule:
    the symbols of the classes Text, Bin and Regex are marked; a Concat,
    Repeat, RepeatSample, Func or Ref is marked exactly when all its
    children are (a Ref has its target as only child); a Choice exactly
    when all the children of one of its alternatives are. The loop that
    follows raises an [IntegrityError], with the name and line of the
    symbol, for the first symbol that is not marked and has no marked
    child. The grammar [root A], [A A] fails construction that way. *)
Theorem termination_marking_is_a_fixpoint :
(forall tab : Dict.t symbol,
    Sanity.ready tab = true ->
    exists tab',
      Sanity.mark_loop (S (List.length tab)) tab = Ok tab'
      /\ Sanity.more_marked tab tab'
      /\ (forall k s, Dict.get k tab' = Some s ->
            is_true (can_terminate s) = Sanity.rule tab' s)
      /\ Sanity.check_paths tab' (Dict.values tab')
         = match find (fun s => negb (Sanity.has_path tab' s)) (Dict.values tab') with
           | None => Ok tt
           | Some s =>
               raise_at IntegrityError
                 ("Symbol has no paths to termination (infinite recursion?): " ++ name s)
                 (AtLine (line_no s))
           end)
/\ Construct.init recursive_host recursive_text (Some DEFAULT_LIMIT) []
   = raise_at IntegrityError
       "Symbol has no paths to termination (infinite recursion?): root" (AtLine 1).
Proof.
split; [|vm_compute; reflexivity].
intros tab Hr. pose proof (SanityFacts.ready_sound tab Hr) as Hs.
destruct (@SanityFacts.mark_loop_spec (S (List.length tab)) tab Hs) as (tab' & E & Hs' & Hm & Hst).
{ pose proof (SanityFacts.pending_le tab). lia. }
exists tab'. split; [exact E|]. split; [exact Hm|]. split.
- intros k s Hg. destruct (Hs' k s Hg) as (_ & Hnf & _ & Hrule & _).
  destruct (is_true (can_terminate s)) eqn:Et.
  + symmetry. apply Hrule. reflexivity.
  + symmetry. eapply Hst; eassumption.
- apply SanityFacts.check_paths_spec. intros s c Hin Hc.
  assert (Hd : Sanity.distinct (Dict.keys tab') = true).
  { destruct Hm as [-> _]. unfold Sanity.ready in Hr.
    apply andb_prop in Hr as [Hr _]. apply andb_prop in Hr as [Hr _]. exact Hr. }
  destruct (@DictFacts.In_values_get _ tab' s Hd Hin) as [k Hg].
  destruct (Hs' k s Hg) as (Hcl & _). apply Hcl. apply SanityFacts.children_references. exact Hc.
Qed.

Lemma termination_marking_is_a_fixpoint_witness :
exists tab',
  Sanity.mark_loop (S (List.length marking_table)) marking_table = Ok tab'
  /\ Sanity.more_marked marking_table tab'
  /\ (forall k s, Dict.get k tab' = Some s ->
        is_true (can_terminate s) = Sanity.rule tab' s)
  /\ Sanity.check_paths tab' (Dict.values tab')
     = match find (fun s => negb (Sanity.has_path tab' s)) (Dict.values tab') with
       | None => Ok tt
       | Some s =>
           raise_at IntegrityError
             ("Symbol has no paths to termination (infinite recursion?): " ++ name s)
             (AtLine (line_no s))
       end.
Proof.
apply (proj1 termination_marking_is_a_fixpoint marking_table). reflexivity.
Defined.

(** The table the marking starts from, for the grammar of the claim and for
    one with a reference, is one of those the theorem is about. *)
Example parsed_tables_are_ready :
(exists digest g0 imports g,
    GrammarParse.parse recursive_host 1 (MkGrammar None [] [] []) recursive_text None [] ""
    = Ok (digest, g0, imports)
    /\ Normalize.normalize imports g0 = Ok g
    /\ Sanity.ready (symtab g) = true)
/\ (exists digest g0 imports g,
       GrammarParse.parse two_refs_host 1 (MkGrammar None [] [] []) two_refs_text None [] ""
       = Ok (digest, g0, imports)
       /\ Normalize.normalize imports g0 = Ok g
       /\ Sanity.ready (symtab g) = true).
Proof.
split; eexists _, _, _, _; (split; [vm_compute; reflexivity|]);
  (split; [vm_compute; reflexivity|vm_compute; reflexivity]).
Qed.
(** * Further properties of the code *)

(** ** [_WeightedChoice]: what [choice] and [sample] return *)

(** [choice] can raise on positive weights: with four weights 1 and one
    weight 2^53 + 2 the total is 2^53 + 6, the largest draw makes the
    target 2^53 + 4, taking 1 from it four times rounds back to it each
    time, and 2.0 is left after the last weight. *)
Lemma choice_can_miss_every_alternative :
(0 <? total four_small_one_large)%float = true
/\ choice four_small_one_large largest_draws = Raise too_much.
Proof. split; vm_compute; reflexivity. Qed.

(** X1. On a collection whose total is not negative, the value [choice]
    returns stands at a position whose weight is a positive number: an
    alternative of weight [0] is never chosen. *)
Theorem choice_returns_a_weighted_alternative :
forall (V : Type) (wc : WeightedChoice.t V) (r r' : rng) (v : V),
  (total wc <? 0)%float = false ->
  choice wc r = Ok (v, r') ->
  exists i q,
    nth_error (values wc) i = Some v
    /\ nth_error (weights wc) i = Some (WNum q)
    /\ (0 <? q)%float = true.
Proof.
intros V wc r r' v Hpos H. unfold choice in H.
pose proof (@FloatFacts.uniform_not_negative (total wc) r Hpos) as Hu.
destruct (uniform 0 (total wc) r) as [target r1]. cbn [fst] in Hu.
destruct (walk target (weights wc) (values wc)) as [[v1|]| | |] eqn:E;
  cbn [bind] in H; try discriminate.
injection H as <- _.
apply (@walk_positive V (weights wc) (values wc) target v1 Hu E).
Qed.

Lemma choice_returns_a_weighted_alternative_witness :
exists i q,
  nth_error (values two_to_one) i = Some "a"
  /\ nth_error (weights two_to_one) i = Some (WNum q)
  /\ (0 <? q)%float = true.
Proof.
apply (@choice_returns_a_weighted_alternative string two_to_one counting_tape
         (snd (draw counting_tape)) "a").
- reflexivity.
- vm_compute. reflexivity.
Defined.

(** X2. [sample] draws without replacement: the values it returns, with
    those it left, are the values of the collection, each as often as it
    is there. No position is returned twice, so a collection of distinct
    values gives distinct results. *)
Theorem sample_is_without_replacement :
forall (V : Type) (wc : WeightedChoice.t V) (k : bound) (r r' : rng) (l : list V),
  sample wc k r = Ok (l, r') ->
  (exists rest, Permutation (l ++ rest) (values wc))
  /\ (NoDup (values wc) -> NoDup l).
Proof.
intros V wc k r r' l H. unfold sample in H.
apply sample_loop_permutation in H.
destruct H as (picked & rest & -> & Hp). simpl.
split; [exists rest; exact Hp|].
intros Hnd. apply Permutation_sym in Hp.
pose proof (Permutation_NoDup Hp Hnd) as Hnd'.
apply NoDup_app_remove_r in Hnd'. exact Hnd'.
Qed.

Lemma sample_is_without_replacement_witness :
(exists rest, Permutation (["a"; "b"] ++ rest) (values two_to_one))
/\ (NoDup (values two_to_one) -> NoDup ["a"; "b"]).
Proof.
eapply (@sample_is_without_replacement string two_to_one (BInt 2) halves).
vm_compute. reflexivity.
Defined.

(** X3. A collection built from pairs of a value and a weight keeps them
    in order; its total is what adding the numeric weights one after the
    other, from zero and each addition rounded, comes to, a weight ['+']
    adding nothing; and it is not negative when no weight is. *)
Theorem extend_total_is_the_sum_of_the_weights :
forall (V : Type) (l : list (V * weight)),
  values (extend empty l) = map fst l
  /\ weights (extend empty l) = map snd l
  /\ total (extend empty l) = added 0 (map snd l)
  /\ (forallb not_negative (map snd l) = true ->
      (total (extend empty l) <? 0)%float = false).
Proof.
intros V l. destruct (@extend_spec V l (@empty V)) as (Hv & Hw & Ht).
rewrite Hv, Hw, Ht. repeat split.
intros Hnn. apply added_not_negative; [exact Hnn|reflexivity].
Qed.

(** The total is not the exact sum: after 10^16 a weight of 1 adds
    nothing. *)
Lemma total_rounds :
total (extend (@empty string) [("a", WNum 10000000000000000); ("b", WNum 1)])
= 10000000000000000%float.
Proof. vm_compute. reflexivity. Qed.


(** ** Generation: the length counter *)

Lemma total_len_app a b : total_len (a ++ b) = total_len a + total_len b.
Proof. induction a as [|v a IH]; simpl; [reflexivity|]. rewrite IH. lia. Qed.

Lemma string_length_app (a b : string) :
String.length (a ++ b) = String.length a + String.length b.
Proof. induction a as [|c a IH]; simpl; [reflexivity|]. rewrite IH. reflexivity. Qed.

Lemma join_str_len l : forall s, join_str l = Ok s -> String.length s = total_len l.
Proof.
induction l as [|[t|b] l IH]; intros s H; simpl in H.
- injection H as <-. reflexivity.
- destruct (join_str l) as [t'| | |]; simpl in H; try discriminate.
  injection H as <-. simpl. rewrite string_length_app, (IH t' eq_refl). reflexivity.
- discriminate.
Qed.

Lemma join_bytes_len l : forall b, join_bytes l = Ok b -> List.length b = total_len l.
Proof.
induction l as [|[t|b0] l IH]; intros b H; simpl in H.
- injection H as <-. reflexivity.
- discriminate.
- destruct (join_bytes l) as [b'| | |]; simpl in H; try discriminate.
  injection H as <-. simpl. rewrite length_app, (IH b' eq_refl). reflexivity.
Qed.

Lemma join_output_len l v : join_output l = Ok v -> len v = total_len l.
Proof.
unfold join_output. destruct (join_str l) as [s|[[] m p]| |] eqn:E; simpl;
  intros H; try discriminate H.
- injection H as <-. simpl. apply join_str_len. exact E.
- destruct (join_bytes l) as [b| | |] eqn:Eb; simpl in H; try discriminate H.
  injection H as <-. simpl. apply join_bytes_len. exact Eb.
Qed.

Section Extends.
Variable g : grammar.

Lemma extends_refl st : extends st st.
Proof. exists []. rewrite app_nil_r. simpl. split; [reflexivity|lia]. Qed.

Lemma extends_trans a b c : extends a b -> extends b c -> extends a c.
Proof.
intros (v1 & O1 & L1) (v2 & O2 & L2). exists (v1 ++ v2).
rewrite O2, O1, L2, L1, total_len_app, app_assoc. split; [reflexivity|lia].
Qed.

Lemma extends_push l st : extends st (GenState.push l st).
Proof. exists []. simpl. rewrite app_nil_r. split; [reflexivity|lia]. Qed.

Lemma extends_append st v st' : GenState.append st v = Ok st' -> extends st st'.
Proof.
intros H. apply append_Ok in H as (Ho & _ & _ & Hl & _).
exists [v]. rewrite Ho, Hl. simpl. split; [reflexivity|lia].
Qed.

Lemma extends_set_instances i st : extends st (GenState.set_instances i st).
Proof. exists []. simpl. rewrite app_nil_r. split; [reflexivity|lia]. Qed.

Lemma extends_set_symstack s st : extends st (GenState.set_symstack s st).
Proof. exists []. simpl. rewrite app_nil_r. split; [reflexivity|lia]. Qed.

Ltac extends_done H :=
  inv_bind H; try discriminate H;
  try (injection H as <- <-);
  first [ apply extends_push | apply extends_refl | eapply extends_append; eassumption ].

Lemma func_generate_extends nested fname args : forall acc st r st' r',
FuncSymbol.generate g nested fname args acc st r = Ok (st', r') -> extends st st'.
Proof.
induction args as [|a args IH]; intros acc st r st' r' H; cbn [FuncSymbol.generate] in H.
- extends_done H.
- destruct a as [n|a].
  + eapply IH; eassumption.
  + inv_bind H. apply IH in H.
    eapply extends_trans; [apply extends_set_instances|exact H].
Qed.

Lemma symbol_generate_extends fuel : forall s st r st' r',
Generate.symbol_generate g fuel s st r = Ok (st', r') -> extends st st'.
Proof.
induction fuel as [|fuel IH]; intros s st r st' r' H; [discriminate|].
cbn [Generate.symbol_generate] in H.
destruct (kind_ s) as [|v|wc ct|c|fname args|ref|c|c mn mx|c mn mx idx|v|v].
- discriminate.
- unfold BinSymbol.generate in H. extends_done H.
- unfold ChoiceSymbol.generate in H. apply assertion_to_generation_Ok in H.
  destruct (is_limit_exceeded g (GenState.length st) && is_true (can_terminate s));
    extends_done H.
- extends_done H.
- eapply func_generate_extends; eassumption.
- unfold RefSymbol.generate in H. inv_bind H.
  match type of H with match ?l with _ => _ end = _ => destruct l end.
  + inv_bind H. eapply IH; eassumption.
  + extends_done H.
- extends_done H.
- unfold RepeatSymbol.generate in H. inv_bind H.
  match type of H with match ?o with _ => _ end = _ => destruct o end; extends_done H.
- unfold RepeatSampleSymbol.generate in H. inv_bind H.
  match type of H with match ?o with _ => _ end = _ => destruct o end;
    [|extends_done H].
  unfold RepeatSampleSymbol.expand in H. apply assertion_to_generation_Ok in H.
  destruct idx as [idx|]; [|discriminate].
  destruct (nth_error c idx); [|discriminate].
  inv_bind H.
  match type of H with match kind_ ?t with _ => _ end = _ => destruct (kind_ t) end;
    try discriminate.
  extends_done H.
- unfold TextSymbol.generate in H. extends_done H.
- unfold TextChoiceSymbol.generate in H. extends_done H.
Qed.

Lemma loop_extends fuel : forall st tr r st' r',
Generate.loop g fuel st tr r = Ok (st', r') ->
extends st st' /\ GenState.symstack st' = [].
Proof.
induction fuel as [|fuel IH]; intros st tr r st' r' H; [discriminate|].
cbn [Generate.loop] in H.
destruct (GenState.symstack st) as [|[this|n|n] rest] eqn:Es.
- injection H as <- <-. split; [apply extends_refl|exact Es].
- inv_bind H.
  match goal with E : Generate.symbol_generate _ _ _ _ _ = Ok _ |- _ =>
    apply symbol_generate_extends in E end.
  apply IH in H as [H Hs]. split; [|exact Hs].
  eapply extends_trans; [|exact H].
  eapply extends_trans; [|eassumption].
  destruct (NameSet.mem this (tracked g)); exists []; simpl; rewrite app_nil_r;
    (split; [reflexivity|lia]).
- apply IH in H as [H Hs]. split; [|exact Hs].
  eapply extends_trans; [apply extends_set_symstack|exact H].
- destruct tr as [|[tn start] tr]; [discriminate|].
  destruct (negb (n =? tn)%string); [discriminate|].
  inv_bind H. apply IH in H as [H Hs]. split; [|exact Hs].
  eapply extends_trans; [|exact H].
  exists []. simpl. rewrite app_nil_r. split; [reflexivity|lia].
Qed.

End Extends.

Lemma extends_counted st st' : extends st st' -> counted st -> counted st'.
Proof.
intros (vs & Ho & Hl) Hc. unfold counted in *. rewrite Ho, Hl, total_len_app, Hc.
reflexivity.
Qed.

(** X4. The counter [length] that the limit is compared with is the
    length of the output: every method [generate] and the loop of
    [Grammar.generate] keep it equal to the summed length of the values in
    the buffer, and when [generate] returns, the stack is empty and the
    counter is the length of the value returned. *)
Theorem length_counts_the_output :
forall (g : grammar),
  (forall fuel s st r st' r',
      Generate.symbol_generate g fuel s st r = Ok (st', r') ->
      counted st -> counted st')
  /\ (forall fuel st tr r st' r',
        Generate.loop g fuel st tr r = Ok (st', r') ->
        counted st -> counted st')
  /\ (forall fuel start r v st' r',
        Generate.generate g fuel start r = Ok (v, st', r') ->
        GenState.length st' = len v /\ GenState.symstack st' = []).
Proof.
intros g. split; [|split].
- intros fuel s st r st' r' H. apply extends_counted.
  eapply symbol_generate_extends; eassumption.
- intros fuel st tr r st' r' H. apply extends_counted.
  eapply loop_extends; eassumption.
- intros fuel start r v st' r' H. unfold Generate.generate in H.
  destruct fuel as [|fuel]; [discriminate|]. cbn [Generate.generate_state] in H.
  inv_bind H. injection H as <- <- <-.
  match goal with E : Generate.loop _ _ _ _ _ = Ok _ |- _ =>
    apply loop_extends in E as [Hx Hs] end.
  split; [|exact Hs].
  match goal with E : join_output _ = Ok _ |- _ => apply join_output_len in E; rewrite E end.
  apply (extends_counted Hx). reflexivity.
Qed.

Lemma length_counts_the_output_witness :
exists v st' r',
  Generate.generate text_grammar 5 "t" zero_tape = Ok (v, st', r')
  /\ GenState.length st' = len v /\ GenState.symstack st' = [].
Proof.
eexists _, _, _. split; [vm_compute; reflexivity|].
eapply (proj2 (proj2 (length_counts_the_output text_grammar)) 5 "t" zero_tape).
vm_compute. reflexivity.
Defined.

(** ** Generation: what each class puts out *)

Lemma choice_In {A} (seq : list A) r x r' : Py.choice seq r = Ok (x, r') -> In x seq.
Proof.
unfold Py.choice. destruct seq as [|a seq]; [discriminate|].
remember (a :: seq) as l eqn:El. unfold draw. intros H. injection H as <- _.
apply nth_In.
assert (Hlt : (tape r (cursor r) mod N.of_nat (List.length l) < N.of_nat (List.length l))%N)
  by (apply N.mod_upper_bound; subst l; simpl; lia).
lia.
Qed.

Lemma In_chars c s : In c (Str.chars s) <-> Str.elem c s = true.
Proof.
induction s as [|d s IH]; simpl; [split; [contradiction|discriminate]|].
rewrite orb_true_iff, <- IH. split.
- intros [<-|H]; [left; apply Ascii.eqb_refl|right; exact H].
- intros [H|H]; [left; apply Ascii.eqb_eq in H; congruence|right; exact H].
Qed.

(** X5. A character set of a regular expression ([_TextChoiceSymbol])
    appends exactly one character of its alphabet to the output, and an
    empty alphabet is an [IndexError] of [random.choice]. *)
Theorem text_choice_emits_one_of_its_characters :
forall (value : string) (st : GenState.t) (r : rng),
  (value = EmptyString -> raises (TextChoiceSymbol.generate value st r) IndexError)
  /\ (forall st' r',
        TextChoiceSymbol.generate value st r = Ok (st', r') ->
        exists c,
          Str.elem c value = true
          /\ GenState.output st' = GenState.output st ++ [VStr (Str.of_char c)]
          /\ GenState.length st' = GenState.length st + 1).
Proof.
intros value st r. split.
- intros ->. eexists; split; reflexivity.
- intros st' r' H. unfold TextChoiceSymbol.generate in H. inv_bind H.
  injection H as <- <-.
  match goal with E : Py.choice _ _ = Ok _ |- _ => apply choice_In, In_chars in E end.
  match goal with E : GenState.append _ _ = Ok _ |- _ =>
    apply append_Ok in E as (Ho & _ & _ & Hl & _) end.
  eexists. split; [eassumption|]. split; assumption.
Qed.

Lemma text_choice_emits_one_of_its_characters_witness :
exists st' r' c,
  TextChoiceSymbol.generate "ab" GenState.init counting_tape = Ok (st', r')
  /\ Str.elem c "ab" = true
  /\ GenState.output st' = GenState.output GenState.init ++ [VStr (Str.of_char c)]
  /\ GenState.length st' = GenState.length GenState.init + 1.
Proof.
eexists _, _.
assert (E : TextChoiceSymbol.generate "ab" GenState.init counting_tape
            = Ok (GenState.Make [] [] [VStr "a"] 1, Rng N.of_nat 1))
  by (vm_compute; reflexivity).
destruct (proj2 (text_choice_emits_one_of_its_characters "ab" GenState.init counting_tape)
            _ _ E) as (c & H).
exists c. split; [exact E|exact H].
Defined.

(** X6. A reference whose target has recorded instances replays one of
    them: it appends that instance to the output, draws once from the
    random source, and leaves the stack and the instances as they are;
    the target is not generated again. *)
Theorem ref_with_instances_replays_one :
forall (g : grammar) (fuel : nat) (nm : string) (ln : nat) (ct : option bool)
       (ref : string) (first : string) (others : list string) (st : GenState.t) (r : rng),
  Dict.get ref (GenState.instances st) = Some (first :: others) ->
  exists v,
    In v (first :: others)
    /\ Generate.symbol_generate g (S fuel) (Symbol.Make nm ln ct (Ref ref)) st r
       = (st' <- GenState.append st (VStr v) ;;
          Ok (st', Rng (tape r) (S (cursor r)))).
Proof.
intros g fuel nm ln ct ref first others st r Hi.
cbn [Generate.symbol_generate kind_]. unfold RefSymbol.generate.
rewrite (lookup_Some _ _ Hi). cbn [bind].
destruct (Py.choice (first :: others) r) as [[v r']| | |] eqn:E;
  try (unfold Py.choice, draw in E; discriminate E).
exists v. split; [eapply choice_In; eassumption|].
unfold Py.choice, draw in E. injection E as _ <-. reflexivity.
Qed.

Lemma ref_with_instances_replays_one_witness :
exists v,
  In v ["x"; "y"]
  /\ Generate.symbol_generate ref_grammar 1 ref_symbol two_instances counting_tape
     = (st' <- GenState.append two_instances (VStr v) ;;
        Ok (st', Rng (tape counting_tape) (S (cursor counting_tape)))).
Proof.
apply (ref_with_instances_replays_one ref_grammar 0 "@A" 1 (Some true) "A"
         two_instances counting_tape (first := "x") (others := ["y"])).
reflexivity.
Defined.

Lemma walk_In {V} (ws : list WeightedChoice.weight) : forall (vs : list V) target v,
WeightedChoice.walk target ws vs = Ok (Some v) -> In v vs.
Proof.
induction ws as [|w ws IH]; intros vs target v H; simpl in H; [discriminate|].
destruct vs as [|v0 vs]; [discriminate|].
destruct w as [q|]; [|discriminate].
destruct (target - q <? 0)%float.
- injection H as <-. left. reflexivity.
- right. eapply IH. eassumption.
Qed.

Lemma choice_value_In {V} (wc : WeightedChoice.t V) r v r' :
WeightedChoice.choice wc r = Ok (v, r') -> In v (WeightedChoice.values wc).
Proof.
unfold WeightedChoice.choice. destruct (uniform 0 (WeightedChoice.total wc) r) as [target r1].
destruct (WeightedChoice.walk target (WeightedChoice.weights wc) (WeightedChoice.values wc))
  as [[v0|]| | |] eqn:E; simpl; intros H; try discriminate H.
injection H as <- _. eapply walk_In. eassumption.
Qed.

(** The alternatives collected past the limit are those whose entry of
    [_choices_terminate] is true. *)
Lemma terminators_spec n : forall i vals ws ct acc t,
ChoiceSymbol.terminators n i vals ws ct acc = Ok t ->
forall v, In v (WeightedChoice.values t) ->
  In v (WeightedChoice.values acc)
  \/ exists j, nth_error vals j = Some v /\ nth_error ct j = Some (Some true).
Proof.
induction n as [|n IH]; intros i vals ws ct acc t H v Hv;
  cbn [ChoiceSymbol.terminators] in H.
- injection H as <-. left. exact Hv.
- destruct (nth_error ct i) as [c|] eqn:Ec; [|discriminate].
  destruct (is_true c) eqn:Et.
  + destruct (nth_error vals i) as [v0|] eqn:Ev; [|discriminate].
    destruct (nth_error ws i) as [w0|] eqn:Ew; [|discriminate].
    destruct (IH _ _ _ _ _ _ H v Hv) as [Hin|Hj]; [|right; exact Hj].
    simpl in Hin. apply in_app_or in Hin as [Hin|[<-|[]]]; [left; exact Hin|].
    right. exists i. split; [exact Ev|].
    destruct c as [[|]|]; try discriminate Et. exact Ec.
  + eapply IH; eassumption.
Qed.

(** X7. A choice puts the symbols of one of its alternatives on the
    stack, and nothing else changes. Past the length limit, a choice that
    can terminate takes that alternative among those marked as
    terminating only. *)
Theorem choice_past_the_limit_picks_a_terminating_alternative :
forall (g : grammar) (can : option bool) (wc : WeightedChoice.t (list string))
       (ct : list (option bool)) (st st' : GenState.t) (r r' : rng),
  ChoiceSymbol.generate g can wc ct st r = Ok (st', r') ->
  exists j alt,
    nth_error (WeightedChoice.values wc) j = Some alt
    /\ st' = GenState.push alt st
    /\ (is_limit_exceeded g (GenState.length st) = true -> is_true can = true ->
        exists j', nth_error (WeightedChoice.values wc) j' = Some alt
                   /\ nth_error ct j' = Some (Some true)).
Proof.
intros g can wc ct st st' r r' H. unfold ChoiceSymbol.generate in H.
apply assertion_to_generation_Ok in H.
destruct (is_limit_exceeded g (GenState.length st) && is_true can) eqn:El.
- inv_bind H. injection H as <- <-.
  match goal with E : WeightedChoice.choice _ _ = Ok _ |- _ => apply choice_value_In in E;
    rename E into Hin end.
  match goal with E : ChoiceSymbol.terminators _ _ _ _ _ _ = Ok _ |- _ =>
    destruct (terminators_spec _ _ _ _ _ _ E _ Hin) as [[]|(j & Hv & Hc)] end.
  exists j. eexists. split; [exact Hv|]. split; [reflexivity|].
  intros _ _. exists j. split; assumption.
- inv_bind H. injection H as <- <-.
  match goal with E : WeightedChoice.choice _ _ = Ok _ |- _ => apply choice_value_In in E;
    apply In_nth_error in E as [j Hj] end.
  exists j. eexists. split; [exact Hj|]. split; [reflexivity|].
  intros H1 H2. rewrite H1, H2 in El. discriminate.
Qed.

Lemma choice_past_the_limit_picks_a_terminating_alternative_witness :
exists j alt,
  nth_error (WeightedChoice.values loop_or_stop) j = Some alt
  /\ GenState.Make [ISym "stop"] [] [] 0 = GenState.push alt GenState.init
  /\ (is_limit_exceeded no_room (GenState.length GenState.init) = true ->
      is_true (Some true) = true ->
      exists j', nth_error (WeightedChoice.values loop_or_stop) j' = Some alt
                 /\ nth_error [None; Some true] j' = Some (Some true)).
Proof.
eapply (choice_past_the_limit_picks_a_terminating_alternative no_room (Some true)
          loop_or_stop [None; Some true] GenState.init zero_tape).
vm_compute. reflexivity.
Defined.

(** X8. A repeat whose bounds are the same number [n], as [{n}] gives
    it, puts exactly [n] copies of its children on the stack, whatever the
    random source holds, unless the limit is exceeded and the repeat
    cannot terminate; [n] is a count the interpreter can take, and the
    copies are no more than a tuple can hold. *)
Theorem repeat_with_equal_bounds_is_exact :
forall (g : grammar) (fuel : nat) (nm : string) (ln : nat) (ct : option bool)
       (c : list string) (n : Z) (st : GenState.t) (r : rng),
  is_limit_exceeded g (GenState.length st) = false \/ is_true ct = true ->
  (- SSIZE_MAX - 1 <= n <= SSIZE_MAX)%Z ->
  (n * Z.of_nat (List.length c) <= TUPLE_MAX)%Z ->
  exists r',
    Generate.symbol_generate g (S fuel) (Symbol.Make nm ln ct (Repeat c (BInt n) (BInt n))) st r
    = Ok (GenState.push (List.concat (repeat c (Z.to_nat n))) st, r').
Proof.
intros g fuel nm ln ct c n st r Hc Hn Hsize.
assert (Hrep : RepeatSymbol.repeated (BInt n) c
               = Ok (List.concat (repeat c (Z.to_nat n)))).
{ unfold RepeatSymbol.repeated.
  replace (n <? - SSIZE_MAX - 1)%Z with false by (symmetry; apply Z.ltb_ge; lia).
  replace (SSIZE_MAX <? n)%Z with false by (symmetry; apply Z.ltb_ge; lia).
  replace (SSIZE_MAX / 8 <? n * Z.of_nat (List.length c))%Z with false
    by (symmetry; apply Z.ltb_ge; unfold TUPLE_MAX, SSIZE_MAX in *;
        change ((2 ^ 63 - 1) / 8)%Z with 1152921504606846975%Z;
        change ((2 ^ 63 - 1 - 64) / 8)%Z with 1152921504606846967%Z in Hsize; lia).
  replace (TUPLE_MAX <? n * Z.of_nat (List.length c))%Z with false
    by (symmetry; apply Z.ltb_ge; lia).
  reflexivity. }
cbn [Generate.symbol_generate kind_ can_terminate].
unfold RepeatSymbol.generate, RepeatSymbol.repetitions.
destruct (is_limit_exceeded g (GenState.length st)) eqn:El.
- destruct Hc as [Hc|Hc]; [discriminate|]. rewrite Hc. cbn [negb bind].
  rewrite Hrep. cbn. eexists. reflexivity.
- destruct (@randint_range n n r) as (hi & r1 & E1 & H1); [lia|].
  destruct (@randint_range n hi r1) as (m & r2 & E2 & H2); [lia|].
  rewrite E1. cbn [bind]. rewrite E2. cbn [bind].
  replace m with n by lia. rewrite Hrep. cbn. eexists. reflexivity.
Qed.

Lemma repeat_with_equal_bounds_is_exact_witness :
exists r',
  Generate.symbol_generate text_grammar 1
    (Symbol.Make "r" 1 None (Repeat ["t"] (BInt 3) (BInt 3))) GenState.init counting_tape
  = Ok (GenState.push (List.concat (repeat ["t"] (Z.to_nat 3))) GenState.init, r').
Proof.
apply (@repeat_with_equal_bounds_is_exact text_grammar 0 "r" 1 None ["t"] 3
         GenState.init counting_tape).
- left. reflexivity.
- vm_compute. split; discriminate.
- vm_compute. discriminate.
Defined.

(** X9. [rndpow2(a, b)] returns the decimal representation of
    [2 ** k + j] for an exponent [0 <= k <= int(a)] and a variation
    [-int(b) <= j <= int(b)]; a negative [int(a)] or [int(b)] is a
    [ValueError] of [random.randint]. *)
Theorem rndpow2_is_near_a_power_of_two :
forall (a b : argval) (x y : Z) (r : rng),
  py_int a = Ok x -> py_int b = Ok y ->
  ((0 <= x)%Z -> (0 <= y)%Z ->
   exists k j r',
     rndpow2 a b r = Ok (VStr (str_int (2 ^ k + j)), r')
     /\ (0 <= k <= x)%Z /\ (- y <= j <= y)%Z)
  /\ ((x < 0)%Z \/ (y < 0)%Z -> raises (rndpow2 a b r) ValueError).
Proof.
intros a b x y r Ha Hb. unfold rndpow2. rewrite Ha. cbn [bind]. split.
- intros Hx Hy.
  destruct (@randint_Z_range 0 x r Hx) as (k & r1 & E1 & H1). rewrite E1. cbn [bind].
  rewrite Hb. cbn [bind].
  destruct (@randint_Z_range (- y) y r1) as (j & r2 & E2 & H2); [lia|].
  rewrite E2. cbn [bind]. exists k, j, r2. repeat split; lia.
- intros Hneg. destruct (Z.ltb_spec x 0) as [Hx|Hx].
  + destruct (@randint_Z_empty 0 x r Hx) as (e & -> & He). exists e. split; [reflexivity|exact He].
  + destruct Hneg as [Hneg|Hy]; [lia|].
    destruct (@randint_Z_range 0 x r Hx) as (k & r1 & E1 & H1). rewrite E1. cbn [bind].
    rewrite Hb. cbn [bind].
    destruct (@randint_Z_empty (- y) y r1) as (e & -> & He); [lia|].
    exists e. split; [reflexivity|exact He].
Qed.

Lemma rndpow2_is_near_a_power_of_two_witness :
exists k j r',
  rndpow2 (AVNum (NInt 8)) (AVNum (NInt 1)) counting_tape
  = Ok (VStr (str_int (2 ^ k + j)), r')
  /\ (0 <= k <= 8)%Z /\ (- 1 <= j <= 1)%Z.
Proof.
apply (proj1 (rndpow2_is_near_a_power_of_two (AVNum (NInt 8)) (AVNum (NInt 1))
                counting_tape (x := 8%Z) (y := 1%Z) eq_refl eq_refl)); lia.
Defined.

(** ** Parsing: the symbol table and the imports *)

Module ParseFacts.
Import ParseState DictFacts.

Lemma init_Ok sname no_add ct k ps ps' :
Symbol_.init sname no_add ct k ps = Ok ps' ->
(exists pfx u, Str.split_dot sname = Some (pfx, u))
/\ (no_add = true -> ps' = ps)
/\ (no_add = false ->
    ps' = set_symtab (Dict.set sname (Symbol.Make sname (line_no ps) ct k) (tab ps)) ps).
Proof.
unfold Symbol_.init.
destruct (String.eqb sname (prefix ps ++ ".import")); [discriminate|].
destruct (Str.split_dot sname) as [[pfx u]|]; [|discriminate].
destruct (Dict.get u (imports ps)) as [[? ?]|]; [discriminate|].
destruct no_add.
- intros H. injection H as <-. split; [eauto|]. split; [reflexivity|discriminate].
- destruct (Dict.get sname (tab ps)) as [old|].
  + destruct (negb (is_abstract (kind_ old) || is_ref (kind_ old))); [discriminate|].
    intros H. injection H as <-. split; [eauto|]. split; [discriminate|reflexivity].
  + intros H. injection H as <-. split; [eauto|]. split; [discriminate|reflexivity].
Qed.

Lemma registered_lookup sname ct k ps ps' :
Symbol_.init sname false ct k ps = Ok ps' ->
Dict.get sname (tab ps') = Some (Symbol.Make sname (line_no ps) ct k).
Proof.
intros H. destruct (init_Ok _ _ _ _ _ H) as (_ & _ & Hps).
rewrite (Hps eq_refl). apply get_set_eq.
Qed.

Lemma mem_add k x s : NameSet.mem k (NameSet.add x s) = (String.eqb k x || NameSet.mem k s)%bool.
Proof.
unfold NameSet.add. destruct (NameSet.mem x s) eqn:E.
- destruct (String.eqb k x) eqn:Ek; [|reflexivity].
  apply String.eqb_eq in Ek. subst k. rewrite E. reflexivity.
- unfold NameSet.mem. rewrite existsb_app. simpl. rewrite orb_false_r, orb_comm. reflexivity.
Qed.

Lemma In_keys_set {V} (d : Dict.t V) k v x :
In x (Dict.keys (Dict.set k v d)) <-> x = k \/ In x (Dict.keys d).
Proof.
induction d as [|[k' v'] d IH]; simpl.
- split; [intros [<-|[]]; auto|intros [->|[]]; auto].
- destruct (String.eqb k' k) eqn:E; simpl.
  + apply String.eqb_eq in E. subst k'. split; [intros [<-|H]; auto|intros [->|[<-|H]]; auto].
  + rewrite IH. split; [intros [<-|[->|H]]; auto|intros [->|[<-|H]]; auto].
Qed.

Lemma diff_nil a b : NameSet.diff a b = [] <-> forall k, In k a -> NameSet.mem k b = true.
Proof.
unfold NameSet.diff. induction a as [|x a IH]; simpl.
- split; [intros _ k []|reflexivity].
- destruct (NameSet.mem x b) eqn:E; simpl.
  + rewrite IH. split; [intros H k [<-|Hk]; auto|intros H k Hk; auto].
  + split; [discriminate|]. intros H. specialize (H x (or_introl eq_refl)). congruence.
Qed.

Lemma chop_dot p : Str.chop (p ++ ".") = p.
Proof.
unfold Str.chop.
assert (H : forall p, String.length (p ++ ".") - 1 = String.length p).
{ intros q. rewrite string_length_app. simpl. lia. }
rewrite H. induction p as [|c p IH]; simpl; [reflexivity|]. rewrite IH. reflexivity.
Qed.

End ParseFacts.

(** X10. Registering a symbol and looking it up: after a successful
    [_Symbol.__init__] the table holds, under the name given, a symbol
    with that name, the current line, and the attributes of its class, and
    every other entry is as before. Registering a name that the table
    holds with a class other than a forward declaration or a reference is a
    [ParseError] (a redefinition), whatever is being registered. *)
Theorem registered_symbol_is_found_and_not_redefined :
forall (sname : string) (ct : option bool) (k : kind) (ps ps' : ParseState.t),
  Symbol_.init sname false ct k ps = Ok ps' ->
  Dict.get sname (ParseState.tab ps') = Some (Symbol.Make sname (ParseState.line_no ps) ct k)
  /\ (forall other, other <> sname ->
        Dict.get other (ParseState.tab ps') = Dict.get other (ParseState.tab ps))
  /\ (forall ps2 old ct2 k2,
        Dict.get sname (ParseState.tab ps2) = Some old ->
        (is_abstract (kind_ old) || is_ref (kind_ old))%bool = false ->
        raises (Symbol_.init sname false ct2 k2 ps2) ParseError).
Proof.
intros sname ct k ps ps' H.
destruct (ParseFacts.init_Ok _ _ _ _ _ H) as ((pfx & u & Hsplit) & _ & Hps).
rewrite (Hps eq_refl). split; [|split].
- apply DictFacts.get_set_eq.
- intros other Hne. apply DictFacts.get_set_neq. exact Hne.
- intros ps2 old ct2 k2 Hold Hk. unfold Symbol_.init.
  destruct (String.eqb sname (ParseState.prefix ps2 ++ ".import"));
    [apply raises_raise_at|].
  rewrite Hsplit.
  destruct (Dict.get u (ParseState.imports ps2)) as [[? ?]|]; [apply raises_raise_at|].
  rewrite Hold, Hk. apply raises_raise_at.
Qed.

Lemma registered_symbol_is_found_and_not_redefined_witness :
Dict.get "h.A" (ParseState.tab (registered_once "h.A" (Text "a")))
= Some (Symbol.Make "h.A" (ParseState.line_no (fresh_state "h")) (Some true) (Text "a"))
/\ (forall other, other <> "h.A" ->
      Dict.get other (ParseState.tab (registered_once "h.A" (Text "a")))
      = Dict.get other (ParseState.tab (fresh_state "h")))
/\ (forall ps2 old ct2 k2,
      Dict.get "h.A" (ParseState.tab ps2) = Some old ->
      (is_abstract (kind_ old) || is_ref (kind_ old))%bool = false ->
      raises (Symbol_.init "h.A" false ct2 k2 ps2) ParseError).
Proof.
apply (registered_symbol_is_found_and_not_redefined "h.A" (Some true) (Text "a")
         (fresh_state "h")).
reflexivity.
Defined.

(** X11. An import is resolved through its friendly name: after
    [add_import(name, hash)], a symbol written [name.sym] is prefixed with
    the hash of the imported grammar and the import counts as used, so a
    state whose imports were all used stays so; an import that no symbol
    used is an [IntegrityError] of [sanity_check], and a prefix that was
    not imported is a [ParseError]. *)
Theorem import_prefix_resolves_to_the_grammar_hash :
forall (friendly grammar_hash sym : string) (ps : ParseState.t),
  (exists ps2,
      ParseState.get_prefixed (Some (friendly ++ ".")%string) sym
        (ParseState.add_import friendly grammar_hash ps)
      = Ok ((grammar_hash ++ "." ++ sym)%string, ps2)
      /\ (ParseState.sanity_check ps = Ok tt -> ParseState.sanity_check ps2 = Ok tt))
  /\ (NameSet.mem friendly (ParseState.imports_used ps) = false ->
      raises (ParseState.sanity_check (ParseState.add_import friendly grammar_hash ps))
             IntegrityError)
  /\ (Dict.get friendly (ParseState.imports ps) = None ->
      raises (ParseState.get_prefixed (Some (friendly ++ ".")%string) sym ps) ParseError).
Proof.
intros friendly grammar_hash sym ps. split; [|split].
- unfold ParseState.get_prefixed.
  destruct (friendly ++ ".")%string as [|c0 s0] eqn:Ef.
  { destruct friendly; discriminate. }
  rewrite <- Ef, ParseFacts.chop_dot.
  cbn [ParseState.add_import ParseState.imports]. rewrite DictFacts.get_set_eq.
  eexists. split; [reflexivity|].
  unfold ParseState.sanity_check. cbn [ParseState.imports ParseState.imports_used].
  destruct (NameSet.diff (Dict.keys (ParseState.imports ps)) (ParseState.imports_used ps))
    eqn:Ed; [|discriminate].
  intros _.
  match goal with |- match ?d with _ => _ end = _ =>
    assert (Hd : d = []); [|rewrite Hd; reflexivity] end.
  apply ParseFacts.diff_nil. intros k Hk. rewrite ParseFacts.mem_add.
  apply ParseFacts.In_keys_set in Hk as [->|Hk].
  + rewrite String.eqb_refl. reflexivity.
  + apply orb_true_iff. right. exact (proj1 (ParseFacts.diff_nil _ _) Ed k Hk).
- intros Hu. unfold ParseState.sanity_check.
  cbn [ParseState.add_import ParseState.imports ParseState.imports_used].
  match goal with |- raises (match ?d with _ => _ end) _ => destruct d eqn:Ed end;
    [|apply raises_raise_at].
  pose proof (proj1 (ParseFacts.diff_nil _ _) Ed friendly) as H.
  rewrite H in Hu; [discriminate|].
  apply ParseFacts.In_keys_set. left. reflexivity.
- intros Hn. unfold ParseState.get_prefixed.
  destruct (friendly ++ ".")%string as [|c0 s0] eqn:Ef.
  { destruct friendly; discriminate. }
  rewrite <- Ef, ParseFacts.chop_dot, Hn. apply raises_raise_at.
Qed.

Lemma import_prefix_resolves_to_the_grammar_hash_witness :
(exists ps2,
    ParseState.get_prefixed (Some ("L" ++ ".")%string) "sub"
      (ParseState.add_import "L" "aaaaaa" (fresh_state "h"))
    = Ok (("aaaaaa" ++ "." ++ "sub")%string, ps2)
    /\ (ParseState.sanity_check (fresh_state "h") = Ok tt ->
        ParseState.sanity_check ps2 = Ok tt))
/\ (NameSet.mem "L" (ParseState.imports_used (fresh_state "h")) = false ->
    raises (ParseState.sanity_check (ParseState.add_import "L" "aaaaaa" (fresh_state "h")))
           IntegrityError)
/\ (Dict.get "L" (ParseState.imports (fresh_state "h")) = None ->
    raises (ParseState.get_prefixed (Some ("L" ++ ".")%string) "sub" (fresh_state "h")) ParseError).
Proof.
exact (import_prefix_resolves_to_the_grammar_hash "L" "aaaaaa" "sub" (fresh_state "h")).
Defined.

(** ** Parsing: quoted literals *)

Module TextFacts.
Import TextSymbol.

Lemma sub_succ_self n : S n - n = 1.
Proof. lia. Qed.

Lemma string_app_assoc (a b c : string) : ((a ++ b) ++ c = a ++ (b ++ c))%string.
Proof. induction a as [|x a IH]; simpl; [reflexivity|]. rewrite IH. reflexivity. Qed.

Lemma string_app_nil (a : string) : (a ++ "" = a)%string.
Proof. induction a as [|x a IH]; simpl; [reflexivity|]. rewrite IH. reflexivity. Qed.

Lemma match_quote c s :
is_quote c = true ->
Re.match_at RE_QUOTE (String c s)
= Some (Re.Match (Str.of_char c) s [("end", Str.of_char c)]).
Proof.
intros Hq. unfold Re.match_at, RE_QUOTE. cbn [Re.go]. rewrite Hq.
cbn [String.length]. rewrite sub_succ_self. reflexivity.
Qed.

Lemma match_other c s :
is_quote c = false -> Ascii.eqb c "\" = false ->
Re.match_at RE_QUOTE (String c s) = None.
Proof.
intros Hq Hb. unfold Re.match_at, RE_QUOTE, Re.lit. cbn [Re.go Str.chars list_ascii_of_string fold_right].
rewrite Hq. rewrite Ascii.eqb_sym, Hb. reflexivity.
Qed.

Lemma search_none s :
all_chars (fun c => negb (is_quote c) && negb (Ascii.eqb c "\")) s = true ->
Re.search RE_QUOTE s = None.
Proof.
unfold all_chars. induction s as [|c s IH]; intros H; simpl in H.
- reflexivity.
- apply andb_prop in H as [Hc Hs]. apply andb_prop in Hc as [Hq Hb].
  apply negb_true_iff in Hq, Hb.
  cbn [Re.search]. rewrite (@match_other c s Hq Hb), (IH Hs). reflexivity.
Qed.

Lemma search_quote pre : forall c t,
all_chars (fun c => negb (is_quote c) && negb (Ascii.eqb c "\")) pre = true ->
is_quote c = true ->
Re.search RE_QUOTE (pre ++ String c t)
= Some (pre, Re.Match (Str.of_char c) t [("end", Str.of_char c)]).
Proof.
unfold all_chars. induction pre as [|x pre IH]; intros c t H Hc; simpl in H.
- cbn [String.append Re.search]. rewrite (@match_quote c t Hc). reflexivity.
- apply andb_prop in H as [Hx Hs]. apply andb_prop in Hx as [Hq Hb].
  apply negb_true_iff in Hq, Hb.
  cbn [String.append Re.search]. rewrite (@match_other x (pre ++ String c t) Hq Hb), (IH c t Hs Hc). reflexivity.
Qed.

(** A text without backslashes has no quote, or a first one. *)
Lemma first_quote s :
all_chars (fun c => negb (Ascii.eqb c "\")) s = true ->
all_chars (fun c => negb (is_quote c) && negb (Ascii.eqb c "\")) s = true
\/ exists pre c t,
     s = (pre ++ String c t)%string
     /\ all_chars (fun c => negb (is_quote c) && negb (Ascii.eqb c "\")) pre = true
     /\ is_quote c = true.
Proof.
unfold all_chars. induction s as [|x s IH]; intros H; simpl in H.
- left. reflexivity.
- apply andb_prop in H as [Hx Hs].
  destruct (is_quote x) eqn:Eq.
  + right. exists EmptyString, x, s. repeat split. exact Eq.
  + destruct (IH Hs) as [Hall|(pre & c & t & -> & Hpre & Hc)].
    * left. simpl. rewrite Eq, Hx, Hall. reflexivity.
    * right. exists (String x pre), c, t. repeat split; [|exact Hc].
      simpl. rewrite Eq, Hx, Hpre. reflexivity.
Qed.

Lemma literal_no_backslash q s :
all_chars (literal_char q) s = true ->
all_chars (fun c => negb (Ascii.eqb c "\")) s = true.
Proof.
unfold all_chars, literal_char. induction s as [|x s IH]; simpl; [reflexivity|].
intros H. apply andb_prop in H as [Hx Hs]. apply andb_prop in Hx as [_ Hb].
rewrite Hb, (IH Hs). reflexivity.
Qed.

Lemma all_chars_app p a b :
all_chars p (a ++ b) = (all_chars p a && all_chars p b)%bool.
Proof.
unfold all_chars. induction a as [|x a IH]; simpl; [reflexivity|].
rewrite IH, andb_assoc. reflexivity.
Qed.

Lemma of_char_eqb c q : String.eqb (Str.of_char c) (Str.of_char q) = Ascii.eqb c q.
Proof.
unfold Str.of_char. simpl. destruct (Ascii.eqb c q); reflexivity.
Qed.

(** The loop of [TextSymbol.parse] on a text of literal characters
    followed by the closing quote. *)
Lemma scan_closed q fuel : forall s out rest,
is_quote q = true ->
all_chars (literal_char q) s = true ->
String.length s < fuel ->
scan fuel q (s ++ String q rest) out = Ok (Some ((out ++ s)%string, rest)).
Proof.
induction fuel as [|fuel IH]; intros s out rest Hq Hs Hf; [lia|].
cbn [scan].
destruct (@first_quote s (@literal_no_backslash q s Hs)) as [Hall|(pre & c & t & -> & Hpre & Hc)].
- rewrite (@search_quote s q rest Hall Hq). cbn [Re.group Re.groups Re.rest].
  rewrite String.eqb_refl, of_char_eqb, Ascii.eqb_refl. reflexivity.
- rewrite string_app_assoc. cbn [String.append].
  rewrite (@search_quote pre c (t ++ String q rest) Hpre Hc).
  cbn [Re.group Re.groups Re.rest]. rewrite String.eqb_refl, of_char_eqb.
  rewrite all_chars_app in Hs. apply andb_prop in Hs as [_ Hs].
  unfold all_chars in Hs. simpl in Hs. apply andb_prop in Hs as [Hcq Ht].
  unfold literal_char in Hcq. apply andb_prop in Hcq as [Hcq _].
  apply negb_true_iff in Hcq. rewrite Hcq.
  rewrite IH; [|exact Hq|exact Ht|].
  + rewrite !string_app_assoc. reflexivity.
  + rewrite string_length_app in Hf. simpl in Hf. lia.
Qed.

(** The same loop when the closing quote never comes. *)
Lemma scan_open q fuel : forall s out,
all_chars (literal_char q) s = true ->
String.length s < fuel ->
scan fuel q s out = Ok None.
Proof.
induction fuel as [|fuel IH]; intros s out Hs Hf; [lia|].
cbn [scan].
destruct (@first_quote s (@literal_no_backslash q s Hs)) as [Hall|(pre & c & t & -> & Hpre & Hc)].
- rewrite (@search_none s Hall). reflexivity.
- rewrite (@search_quote pre c t Hpre Hc).
  cbn [Re.group Re.groups Re.rest]. rewrite String.eqb_refl, of_char_eqb.
  rewrite all_chars_app in Hs. apply andb_prop in Hs as [_ Hs].
  unfold all_chars in Hs. simpl in Hs. apply andb_prop in Hs as [Hcq Ht].
  unfold literal_char in Hcq. apply andb_prop in Hcq as [Hcq _].
  apply negb_true_iff in Hcq. rewrite Hcq.
  apply IH; [exact Ht|].
  rewrite string_length_app in Hf. simpl in Hf. lia.
Qed.

End TextFacts.

(** X12. A quoted literal denotes itself: for a text [s] that holds
    neither a backslash nor the quote character that encloses it (the other
    quote character may occur), [TextSymbol.parse] on [q s q rest] makes a
    text symbol whose value is [s] and returns [rest] as what is left to
    parse. *)
Theorem quoted_literal_denotes_itself :
forall (q : ascii) (s rest : string) (no_add : bool) (ps : ParseState.t),
  TextSymbol.is_quote q = true ->
  all_chars (literal_char q) s = true ->
  TextSymbol.parse (String q (s ++ String q rest)) no_add ps
  = ('(sname, ps') <- TextSymbol.new None s false no_add false ps ;;
     Ok (sname, s, rest, ps')).
Proof.
intros q s rest no_add ps Hq Hs. unfold TextSymbol.parse. rewrite Hq. cbn [negb].
rewrite (@TextFacts.scan_closed q (S (String.length (s ++ String q rest))) s "" rest Hq Hs).
- reflexivity.
- rewrite string_length_app. simpl. lia.
Qed.

Lemma quoted_literal_denotes_itself_witness :
TextSymbol.parse (String "'" ("it" ++ String "'" " rest")) false (fresh_state "h")
= ('(sname, ps') <- TextSymbol.new None "it" false false false (fresh_state "h") ;;
   Ok (sname, "it", " rest", ps')).
Proof.
apply (quoted_literal_denotes_itself "'" "it" " rest" false (fresh_state "h"));
  reflexivity.
Defined.

(** X13. A literal that is not closed is a [ParseError]: when the text
    after the opening quote holds neither that quote character nor a
    backslash, [TextSymbol.parse] raises [Unterminated string literal!]
    with the position of the parser, and registers nothing. *)
Theorem unterminated_literal_is_a_parse_error :
forall (q : ascii) (s : string) (no_add : bool) (ps : ParseState.t),
  TextSymbol.is_quote q = true ->
  all_chars (literal_char q) s = true ->
  TextSymbol.parse (String q s) no_add ps
  = raise_at ParseError "Unterminated string literal!"
      (AtParse (ParseState.name ps) (ParseState.line_no ps)).
Proof.
intros q s no_add ps Hq Hs. unfold TextSymbol.parse. rewrite Hq. cbn [negb].
rewrite (@TextFacts.scan_open q (S (String.length s)) s "" Hs); [reflexivity|lia].
Qed.

Lemma unterminated_literal_is_a_parse_error_witness :
TextSymbol.parse (String "'" "it") false (fresh_state "h")
= raise_at ParseError "Unterminated string literal!"
    (AtParse (ParseState.name (fresh_state "h")) (ParseState.line_no (fresh_state "h"))).
Proof.
apply (unterminated_literal_is_a_parse_error "'" "it" false (fresh_state "h"));
  reflexivity.
Defined.

(** ** Parsing: binary literals *)

Module BinFacts.
Import BinSymbol.

Lemma find_char q value : forall rest,
all_chars (fun c => negb (Ascii.eqb c q)) value = true ->
Str.find (Str.of_char q) (value ++ String q rest) = Some (String.length value).
Proof.
unfold all_chars. induction value as [|c value IH]; intros rest H; simpl in H.
- cbn [String.append Str.find Str.of_char Str.startswith]. rewrite Ascii.eqb_refl. reflexivity.
- apply andb_prop in H as [Hc H]. apply negb_true_iff in Hc.
  cbn [String.append Str.find Str.of_char Str.startswith].
  rewrite Ascii.eqb_sym, Hc. cbn [andb]. fold (Str.of_char q).
  rewrite (IH rest H). reflexivity.
Qed.

Lemma find_char_none q value :
all_chars (fun c => negb (Ascii.eqb c q)) value = true ->
Str.find (Str.of_char q) value = None.
Proof.
unfold all_chars. induction value as [|c value IH]; intros H; simpl in H.
- reflexivity.
- apply andb_prop in H as [Hc H]. apply negb_true_iff in Hc.
  cbn [Str.find Str.of_char Str.startswith].
  rewrite Ascii.eqb_sym, Hc. cbn [andb]. fold (Str.of_char q).
  rewrite (IH H). reflexivity.
Qed.

Lemma take_app a b : Str.take (String.length a) (a ++ b) = a.
Proof. induction a as [|c a IH]; simpl; [destruct b; reflexivity|]. rewrite IH. reflexivity. Qed.

Lemma drop_app a b : Str.drop (String.length a) (a ++ b) = b.
Proof. induction a as [|c a IH]; simpl; [destruct b; reflexivity|]. exact IH. Qed.

(** Two hexadecimal digits give one byte. *)
Lemma unhexlify_length n : forall s b,
String.length s <= n -> unhexlify s = Some b -> String.length s = 2 * List.length b.
Proof.
induction n as [|n IH]; intros s b Hn H.
- destruct s; [|simpl in Hn; lia]. injection H as <-. reflexivity.
- destruct s as [|x [|y s]]; simpl in H.
  + injection H as <-. reflexivity.
  + discriminate.
  + destruct (hex_digit x), (hex_digit y); try discriminate.
    destruct (unhexlify s) as [l|] eqn:E; [|discriminate].
    destruct (Byte.of_nat _); [|discriminate]. injection H as <-.
    simpl in Hn. simpl. rewrite (IH s l); [lia|lia|exact E].
Qed.

End BinFacts.

(** X14. A binary literal [x q digits q rest] is cut at the first
    occurrence of its quote character: the digits go to
    [BinSymbol.__init__] and [rest] is what is left to parse; without a
    closing quote it is a [ParseError]. A literal that is accepted is
    registered as a symbol that can terminate and holds the decoded
    bytes, one for every two digits. *)
Theorem bin_literal_holds_the_decoded_bytes :
forall (q : ascii) (value rest : string) (ps : ParseState.t),
  TextSymbol.is_quote q = true ->
  all_chars (fun c => negb (Ascii.eqb c q)) value = true ->
  BinSymbol.parse (String "x" (String q (value ++ String q rest))) ps
  = ('(sname, ps') <- BinSymbol.new value ps ;; Ok (sname, rest, ps'))
  /\ raises (BinSymbol.parse (String "x" (String q value)) ps) ParseError
  /\ (forall sname ps',
        BinSymbol.new value ps = Ok (sname, ps') ->
        exists b,
          BinSymbol.unhexlify value = Some b
          /\ String.length value = 2 * List.length b
          /\ Dict.get sname (ParseState.tab ps')
             = Some (Symbol.Make sname (ParseState.line_no ps) (Some true) (Bin b))).
Proof.
intros q value rest ps Hq Hv. split; [|split].
- unfold BinSymbol.parse. cbn [Ascii.eqb Bool.eqb negb]. rewrite Hq. cbn [negb].
  rewrite (@BinFacts.find_char q value rest Hv).
  rewrite BinFacts.take_app.
  assert (Hd : Str.drop (S (String.length value)) (value ++ String q rest) = rest).
  { clear. induction value as [|c value IH]; simpl; [destruct rest; reflexivity|exact IH]. }
  rewrite Hd. reflexivity.
- unfold BinSymbol.parse. cbn [Ascii.eqb Bool.eqb negb]. rewrite Hq. cbn [negb].
  rewrite (@BinFacts.find_char_none q value Hv). apply raises_raise_at.
- intros sname ps' H. unfold BinSymbol.new in H.
  destruct (ParseState.implicit ps) as [n ps1] eqn:Ei.
  assert (Hl : ParseState.line_no ps1 = ParseState.line_no ps).
  { unfold ParseState.implicit in Ei. injection Ei as _ <-. reflexivity. }
  inv_bind H.
  destruct (negb (BinSymbol.is_ascii value)); [discriminate|].
  destruct (Nat.odd (String.length value)); [discriminate|].
  destruct (BinSymbol.unhexlify value) as [b|] eqn:Eu; [|discriminate].
  injection H as <- <-.
  match goal with E : Symbol_.init _ _ _ _ _ = Ok _ |- _ =>
    apply ParseFacts.registered_lookup in E end.
  exists b. split; [reflexivity|]. split.
  + eapply BinFacts.unhexlify_length; [apply Nat.le_refl|exact Eu].
  + rewrite <- Hl. assumption.
Qed.

Lemma bin_literal_holds_the_decoded_bytes_witness :
BinSymbol.parse (String "x" (String "'" ("4142" ++ String "'" " tail"))) (fresh_state "h")
= ('(sname, ps') <- BinSymbol.new "4142" (fresh_state "h") ;; Ok (sname, " tail", ps'))
/\ raises (BinSymbol.parse (String "x" (String "'" "4142")) (fresh_state "h")) ParseError
/\ (forall sname ps',
      BinSymbol.new "4142" (fresh_state "h") = Ok (sname, ps') ->
      exists b,
        BinSymbol.unhexlify "4142" = Some b
        /\ String.length "4142" = 2 * List.length b
        /\ Dict.get sname (ParseState.tab ps')
           = Some (Symbol.Make sname (ParseState.line_no (fresh_state "h")) (Some true) (Bin b))).
Proof.
apply (bin_literal_holds_the_decoded_bytes "'" "4142" " tail" (fresh_state "h"));
  reflexivity.
Defined.

(** X15. A binary literal of ASCII characters that does not decode, for
    an odd number of digits or a character that is no hexadecimal digit,
    is not reported as a [ParseError]: once its symbol is registered,
    [binascii.unhexlify] raises [binascii.Error], which the handler of
    [BinSymbol.__init__] does not catch. *)
Theorem undecodable_bin_literal_raises_binascii_error :
forall (value : string) (ps : ParseState.t),
  BinSymbol.is_ascii value = true ->
  BinSymbol.unhexlify value = None ->
  BinSymbol.new value ps
  = (_ <- Symbol_.init
            (ParseState.prefix ps ++ "."
             ++ implicit_name "bin" (ParseState.line_no ps) (ParseState.n_implicit ps + 1))
            false (Some true) (Bin []) (snd (ParseState.implicit ps)) ;;
     raise BinasciiError
       (if Nat.odd (String.length value) then "Odd-length string"
        else "Non-hexadecimal digit found")).
Proof.
intros value ps Ha Hu. unfold BinSymbol.new, ParseState.implicit.
cbn [snd ParseState.prefix ParseState.line_no]. rewrite Hu, Ha. cbn [negb].
destruct (Symbol_.init _ _ _ _ _); cbn [bind]; try reflexivity.
destruct (Nat.odd (String.length value)); reflexivity.
Qed.

Lemma undecodable_bin_literal_raises_binascii_error_witness :
BinSymbol.new "414" (fresh_state "h")
= (_ <- Symbol_.init
          (ParseState.prefix (fresh_state "h") ++ "."
           ++ implicit_name "bin" (ParseState.line_no (fresh_state "h"))
                (ParseState.n_implicit (fresh_state "h") + 1))
          false (Some true) (Bin []) (snd (ParseState.implicit (fresh_state "h"))) ;;
   raise BinasciiError
     (if Nat.odd (String.length "414") then "Odd-length string"
      else "Non-hexadecimal digit found"))
/\ raises (BinSymbol.new "414" (fresh_state "h")) BinasciiError.
Proof.
split.
- apply (undecodable_bin_literal_raises_binascii_error "414" (fresh_state "h"));
    reflexivity.
- vm_compute. eexists. split; reflexivity.
Defined.

(** ** Parsing: character sets of a regular expression *)

Module RegexFacts.
Import RegexSymbol.

Lemma set_char_spec c :
set_char c = true ->
Ascii.eqb "]" c = false /\ Ascii.eqb "-" c = false /\ Ascii.eqb "\" c = false
/\ Ascii.eqb c Str.nl = false.
Proof.
unfold set_char. cbn [Str.elem]. rewrite orb_false_r. intros H.
apply andb_prop in H as [H Hn]. apply negb_true_iff in H, Hn.
apply orb_false_elim in H as [H1 H]. apply orb_false_elim in H as [H2 H3].
rewrite (Ascii.eqb_sym "]" c), (Ascii.eqb_sym "-" c), (Ascii.eqb_sym "\" c). auto.
Qed.

Lemma match_set_char c s :
set_char c = true ->
Re.match_at RE_SET (String c s) = Some (Re.Match (Str.of_char c) s []).
Proof.
intros H. apply set_char_spec in H as (H1 & H2 & H3 & H4).
unfold Re.match_at, RE_SET, Re.alt, Re.lit, Re.opt, Re.dot.
cbn [fold_left fold_right Str.chars list_ascii_of_string Re.go].
rewrite H1, H2, H3, H4. cbn [negb String.length]. rewrite TextFacts.sub_succ_self.
reflexivity.
Qed.

Lemma match_set_dash s :
Re.match_at RE_SET (String "-" s) = Some (Re.Match "-" s []).
Proof.
unfold Re.match_at, RE_SET, Re.alt, Re.lit, Re.opt, Re.dot.
cbn [fold_left fold_right Str.chars list_ascii_of_string Re.go Ascii.eqb Bool.eqb].
cbn [String.length]. rewrite TextFacts.sub_succ_self. reflexivity.
Qed.

Lemma match_set_close s :
Re.match_at RE_SET (String "]" s) = Some (Re.Match "]" s []).
Proof.
unfold Re.match_at, RE_SET, Re.alt, Re.lit, Re.opt, Re.dot.
cbn [fold_left fold_right Str.chars list_ascii_of_string Re.go Ascii.eqb Bool.eqb].
cbn [String.length]. rewrite TextFacts.sub_succ_self. reflexivity.
Qed.

Lemma of_char_not c d :
Ascii.eqb d c = false -> String.eqb (Str.of_char c) (String d EmptyString) = false.
Proof.
intros H. change (String d EmptyString) with (Str.of_char d).
rewrite TextFacts.of_char_eqb, Ascii.eqb_sym. exact H.
Qed.

Lemma range_members lo hi c :
nat_of_ascii lo <= nat_of_ascii hi ->
In c ([lo; hi] ++ map ascii_of_nat
                    (List.seq (nat_of_ascii lo) (nat_of_ascii hi + 1 - nat_of_ascii lo)))
<-> nat_of_ascii lo <= nat_of_ascii c <= nat_of_ascii hi.
Proof.
intros Hle. split.
- intros H. apply in_app_or in H as [[<-|[<-|[]]]|H]; [lia|lia|].
  apply in_map_iff in H as (n & <- & Hn). apply in_seq in Hn.
  rewrite nat_ascii_embedding; [lia|].
  pose proof (nat_ascii_bounded hi). lia.
- intros H. apply in_or_app. right. apply in_map_iff.
  exists (nat_of_ascii c). split; [apply ascii_nat_embedding|].
  apply in_seq. lia.
Qed.

End RegexFacts.

(** X16. A range in a character set: the set [[lo-hi]] of two plain
    characters collects every character whose code lies between those of
    [lo] and [hi], both included, and leaves what follows the closing
    bracket; when the code of [hi] is below that of [lo] the range is
    empty, which is a [ParseError]. *)
Theorem set_range_collects_the_characters_between :
forall (fuel : nat) (lo hi : ascii) (rest : string) (ps : ParseState.t),
  set_char lo = true -> set_char hi = true ->
  (nat_of_ascii lo <= nat_of_ascii hi ->
   exists alpha,
     RegexSymbol.set_loop (4 + fuel) (String lo (String "-" (String hi (String "]" rest))))
                          [] false ps
     = Ok (alpha, rest)
     /\ forall c, In c alpha <-> nat_of_ascii lo <= nat_of_ascii c <= nat_of_ascii hi)
  /\ (nat_of_ascii hi < nat_of_ascii lo ->
      raises (RegexSymbol.set_loop (4 + fuel)
                (String lo (String "-" (String hi (String "]" rest)))) [] false ps)
             ParseError).
Proof.
intros fuel lo hi rest ps Hlo Hhi.
pose proof (RegexFacts.set_char_spec _ Hlo) as (L1 & L2 & L3 & L4).
pose proof (RegexFacts.set_char_spec _ Hhi) as (H1 & H2 & H3 & H4).
assert (E : RegexSymbol.set_loop (4 + fuel)
              (String lo (String "-" (String hi (String "]" rest)))) [] false ps
            = if nat_of_ascii hi + 1 <=? nat_of_ascii lo
              then ParseState.error
                     ("Empty range in regex at: " ++ String hi (String "]" rest)) ps
              else Ok ([lo; hi] ++ map ascii_of_nat
                         (List.seq (nat_of_ascii lo)
                                   (nat_of_ascii hi + 1 - nat_of_ascii lo)), rest)).
{ change (4 + fuel) with (S (S (S (S fuel)))).
  cbn [RegexSymbol.set_loop].
  rewrite (@RegexFacts.match_set_char lo (String "-" (String hi (String "]" rest))) Hlo). cbn [Re.group0 Re.rest].
  rewrite (@RegexFacts.of_char_not lo "]" L1), (@RegexFacts.of_char_not lo "-" L2).
  match goal with |- context [bind ?m _] =>
    assert (Hm : m = Ok lo)
      by (clear - L3; destruct lo as [[] [] [] [] [] [] [] []]; try reflexivity;
          discriminate L3);
    rewrite Hm; clear Hm end.
  cbn [bind app].
  rewrite RegexFacts.match_set_dash. cbn [Re.group0 Re.rest String.eqb Ascii.eqb Bool.eqb orb].
  rewrite (@RegexFacts.match_set_char hi (String "]" rest) Hhi). cbn [Re.group0 Re.rest].
  rewrite (@RegexFacts.of_char_not hi "]" H1), (@RegexFacts.of_char_not hi "-" H2).
  match goal with |- context [bind ?m _] =>
    assert (Hm : m = Ok hi)
      by (clear - H3; destruct hi as [[] [] [] [] [] [] [] []]; try reflexivity;
          discriminate H3);
    rewrite Hm; clear Hm end.
  cbn [bind app List.rev].
  destruct (nat_of_ascii hi + 1 <=? nat_of_ascii lo); [reflexivity|].
  rewrite RegexFacts.match_set_close. cbn [Re.group0 Re.rest String.eqb Ascii.eqb Bool.eqb].
  reflexivity. }
rewrite E. split.
- intros Hle. destruct (Nat.leb_spec (nat_of_ascii hi + 1) (nat_of_ascii lo)); [lia|].
  eexists. split; [reflexivity|].
  intros c. apply RegexFacts.range_members. exact Hle.
- intros Hlt. destruct (Nat.leb_spec (nat_of_ascii hi + 1) (nat_of_ascii lo)); [|lia].
  apply raises_raise_at.
Qed.

Lemma set_range_collects_the_characters_between_witness :
exists alpha,
  RegexSymbol.set_loop (4 + 0) (String "a" (String "-" (String "c" (String "]" "/"))))
                       [] false (fresh_state "h")
  = Ok (alpha, "/")
  /\ forall c, In c alpha <-> nat_of_ascii "a" <= nat_of_ascii c <= nat_of_ascii "c".
Proof.
apply (proj1 (set_range_collects_the_characters_between 0 "a" "c" "/" (fresh_state "h")
                eq_refl eq_refl)).
vm_compute. lia.
Defined.

(** ** Parsing: comments in a definition *)

Module ReFacts.

Lemma go_alt_l {A} a b s caps (k : string -> Re.captures -> option A) x :
Re.go a s caps k = Some x -> Re.go (Re.Alt a b) s caps k = Some x.
Proof. intros H. cbn [Re.go]. rewrite H. reflexivity. Qed.

Lemma go_alt_r {A} a b s caps (k : string -> Re.captures -> option A) :
Re.go a s caps k = None -> Re.go (Re.Alt a b) s caps k = Re.go b s caps k.
Proof. intros H. cbn [Re.go]. rewrite H. reflexivity. Qed.

(** A greedy repetition of a character class, followed by something that
    always matches, matches: the continuation is entered at some suffix
    of the input, with the captures unchanged. *)
Lemma go_star_chr {A} p (k : string -> Re.captures -> option A) :
(forall s c, k s c <> None) ->
forall s caps, exists s', Re.go (Re.Star (Re.Chr p)) s caps k = k s' caps.
Proof.
intros Hk s caps. cbn [Re.go].
generalize (String.length s) at 1. intros n. revert s caps.
induction n as [|n IH]; intros s caps.
- exists s. reflexivity.
- destruct s as [|c s].
  + exists EmptyString. reflexivity.
  + destruct (p c) eqn:Ep.
    * destruct (IH s caps) as [s' Hs'].
      exists s'.
      replace (String.length s <? String.length (String c s)) with true
        by (symmetry; apply Nat.ltb_lt; simpl; lia).
      rewrite Hs'. destruct (k s' caps) eqn:E; [reflexivity|].
      exfalso. eapply Hk. eassumption.
    * exists (String c s). reflexivity.
Qed.

End ReFacts.

Module DefnFacts.
Import Defn.

(** On a definition that starts with [#], [_RE_DEFN] matches with the
    group [comment] and no other. *)
Lemma match_comment s :
exists m, Re.match_at RE_DEFN (String "#" s) = Some m
          /\ Re.groups m = [("comment", "#")].
Proof.
unfold Re.match_at, RE_DEFN, Re.alt. cbn [fold_left].
match goal with
| |- exists m, Re.go (Re.Alt (Re.Alt (Re.Alt (Re.Alt (Re.Alt (Re.Alt ?a6 _) _) _) _) _) _)
                 ?s ?caps ?k = _ /\ _ =>
    assert (H : exists m, Re.go a6 s caps k = Some m /\ Re.groups m = [("comment", "#")])
end.
{ rewrite ReFacts.go_alt_r by reflexivity.
  remember (Re.Star Re.dot) as st eqn:Est.
  cbn [Re.go Re.lit Str.chars list_ascii_of_string fold_right Ascii.eqb Bool.eqb].
  cbn [String.length]. rewrite TextFacts.sub_succ_self. cbn [Str.take].
  subst st.
  match goal with |- exists m, Re.go _ s ?caps ?k = _ /\ _ =>
    destruct (@ReFacts.go_star_chr _ (fun c => negb (Ascii.eqb c Str.nl)) k
                (fun _ _ H => eq_ind (Some _) (fun o => match o with Some _ => True | None => False end) I None H) s caps) as [s' Hs'] end.
  unfold Re.dot. rewrite Hs'. eexists. split; reflexivity. }
destruct H as (m & Hm & Hg). exists m. split; [|exact Hg].
do 6 apply ReFacts.go_alt_l. exact Hm.
Qed.

End DefnFacts.

Lemma comment_ends_the_definition_at h fuel s in_func in_concat result_ ps :
Defn.parse_ h (S fuel) (String "#" s) in_func in_concat result_ ps
= Ok (result_, EmptyString, ps).
Proof.
destruct (DefnFacts.match_comment s) as (m & Hm & Hg).
cbn [Defn.parse_]. rewrite Hm.
unfold Re.is_not_none, Re.has, Re.get. rewrite Hg. reflexivity.
Qed.

(** X17. A [#] where a token may start begins a comment that runs to the
    end of the definition: [_Symbol._parse] stops there, returns the
    symbols parsed so far and an empty remainder, and leaves the parse
    state alone, whatever follows the [#], also inside the arguments of a
    function or an implicit concatenation. *)
Theorem comment_ends_the_definition :
forall (h : host) (fuel : nat) (s : string) (in_func in_concat : bool)
       (result_ : list string) (ps : ParseState.t),
  Defn.parse_ h (S fuel) (String "#" s) in_func in_concat result_ ps
  = Ok (result_, EmptyString, ps).
Proof.
intros h fuel s in_func in_concat result_ ps.
destruct (DefnFacts.match_comment s) as (m & Hm & Hg).
cbn [Defn.parse_]. rewrite Hm.
unfold Re.is_not_none, Re.has, Re.get. rewrite Hg. reflexivity.
Qed.

(** On a definition that starts with [?], [_RE_DEFN] matches with the
    group [maybe] and no other. *)
Lemma maybe_matches s :
exists m, Re.match_at Defn.RE_DEFN (String "?" s) = Some m
          /\ Re.groups m = [("maybe", "?")].
Proof.
unfold Re.match_at, Defn.RE_DEFN, Re.alt. cbn [fold_left].
match goal with
| |- exists m, Re.go (Re.Alt (Re.Alt (Re.Alt (Re.Alt (Re.Alt ?a7 ?a8) _) _) _) _)
                 ?s ?caps ?k = _ /\ _ =>
    assert (H : exists m, Re.go (Re.Alt a7 a8) s caps k = Some m
                          /\ Re.groups m = [("maybe", "?")])
end.
{ rewrite ReFacts.go_alt_r by reflexivity.
  cbn [Re.go Re.lit Str.chars list_ascii_of_string fold_right Ascii.eqb Bool.eqb].
  cbn [String.length]. rewrite TextFacts.sub_succ_self. cbn [Str.take].
  eexists. split; reflexivity. }
destruct H as (m & Hm & Hg). exists m. split; [|exact Hg].
do 4 apply ReFacts.go_alt_l. exact Hm.
Qed.

(** X25. A [?] with no symbol before it has nothing to make optional:
    [_Symbol._parse] raises a [ParseError] that quotes the definition from
    the [?] on, whatever follows it. *)
Theorem maybe_without_a_symbol_is_a_parse_error :
forall (h : host) (fuel : nat) (s : string) (in_func in_concat : bool)
       (ps : ParseState.t),
  Defn.parse_ h (S fuel) (String "?" s) in_func in_concat [] ps
  = raise_at ParseError ("Unexpected token in definition: " ++ String "?" s)
      (AtParse (ParseState.name ps) (ParseState.line_no ps)).
Proof.
intros h fuel s in_func in_concat ps.
destruct (maybe_matches s) as (m & Hm & Hg).
cbn [Defn.parse_]. rewrite Hm.
unfold Re.is_not_none, Re.has, Re.get. rewrite Hg. reflexivity.
Qed.

(** X29. A function call that is left open raises no [ParseError]: when
    the definition ends, or a comment starts, where an argument or the
    closing parenthesis is due, [FuncSymbol.parse] indexes the empty
    remainder and an [IndexError] escapes. *)
Theorem open_function_call_is_an_index_error :
forall (h : host) (fuel : nat) (sname : string) (s : string) (args : list arg)
       (ps : ParseState.t),
  Defn.func_loop h (S (S fuel)) sname EmptyString args ps
  = raise IndexError "string index out of range"
  /\ Defn.func_loop h (S (S fuel)) sname (String "#" s) args ps
     = raise IndexError "string index out of range".
Proof.
intros h fuel sname s args ps. split.
- reflexivity.
- cbn [Defn.func_loop]. rewrite comment_ends_the_definition_at. reflexivity.
Qed.

(** ** Normalization: friendly prefixes, unique repeats *)

Module NormalizeFacts.

Lemma split_dot_at p name :
all_chars (fun c => negb (Ascii.eqb c ".")) p = true ->
Str.split_dot (p ++ String "." name) = Some (p, name).
Proof.
intros Hp. unfold Str.split_dot.
change "."%string with (Str.of_char ".").
rewrite (@BinFacts.find_char "." p name Hp), BinFacts.take_app.
replace (Str.drop (S (String.length p)) (p ++ String "." name)) with name; [reflexivity|].
clear. induction p as [|c p IH]; simpl; [destruct name; reflexivity|exact IH].
Qed.

Lemma split_dot_none s :
all_chars (fun c => negb (Ascii.eqb c ".")) s = true -> Str.split_dot s = None.
Proof.
intros Hs. unfold Str.split_dot.
change "."%string with (Str.of_char ".").
rewrite (@BinFacts.find_char_none "." s Hs). reflexivity.
Qed.

(** The scan of [RepeatSampleSymbol.normalize] counts the choices among
    the children and remembers the position of the last one; the other
    children are texts or binary data. *)
Lemma sample_scan_spec self tab l : forall i n idx n' idx',
Normalize.sample_scan self tab l i n idx = Ok (n', idx') ->
n <= n'
/\ (n' = n -> idx' = idx /\ forall j child, nth_error l j = Some child ->
                              is_kind tab is_text_or_bin child)
/\ (n' = S n ->
    exists j child,
      idx' = Some (i + j) /\ nth_error l j = Some child /\ is_kind tab is_choice child
      /\ forall j' child', nth_error l j' = Some child' -> j' <> j ->
                           is_kind tab is_text_or_bin child').
Proof.
induction l as [|child l IH]; intros i n idx n' idx' H; cbn [Normalize.sample_scan] in H.
- injection H as <- <-. split; [lia|]. split.
  + intros _. split; [reflexivity|]. intros [|j] ? Hj; discriminate Hj.
  + intros Hn. lia.
- unfold Dict.lookup in H. destruct (Dict.get child tab) as [c|] eqn:Ec; [|discriminate].
  cbn [bind] in H.
  destruct (is_choice (kind_ c)) eqn:Ech.
  + apply IH in H as (Hle & Hsame & Hone). split; [lia|]. split.
    * intros Hn. lia.
    * intros Hn. destruct (Hsame Hn) as [-> Hall].
      exists 0, child. split; [f_equal; lia|]. split; [reflexivity|].
      split; [exists c; auto|].
      intros [|j'] child' Hj' Hne; [contradiction|]. eapply Hall. exact Hj'.
  + destruct (is_text_or_bin (kind_ c)) eqn:Etb; [|discriminate].
    apply IH in H as (Hle & Hsame & Hone). split; [lia|]. split.
    * intros Hn. destruct (Hsame Hn) as [-> Hall]. split; [reflexivity|].
      intros [|j] child' Hj.
      -- injection Hj as <-. exists c. auto.
      -- eapply Hall. exact Hj.
    * intros Hn. destruct (Hone Hn) as (j & ch & -> & Hj & Hk & Hothers).
      exists (S j), ch. split; [f_equal; lia|]. split; [exact Hj|]. split; [exact Hk|].
      intros [|j'] child' Hj' Hne.
      -- injection Hj' as <-. exists c. auto.
      -- eapply Hothers; [exact Hj'|lia].
Qed.

End NormalizeFacts.

(** X18. Renaming to friendly prefixes: after parsing, a name
    [hash.name] becomes [name] for the top-level grammar (friendly prefix
    empty) and [friendly.name] for an imported one, a reference keeps its
    leading [@], a name without a dot is left as it is, and a name whose
    prefix is the hash of no parsed grammar is a [ParseError]. *)
Theorem hash_prefix_becomes_the_friendly_prefix :
forall (imports : Dict.t string) (grammar_hash name : string),
  all_chars (fun c => negb (Ascii.eqb c ".")) grammar_hash = true ->
  Str.startswith "@" grammar_hash = false ->
  (forall friendly, Dict.get grammar_hash imports = Some friendly ->
     Normalize.get_prefixed imports (grammar_hash ++ String "." name)
     = Ok (match friendly with
           | EmptyString => name
           | _ => (friendly ++ String "." name)%string
           end)
     /\ Normalize.get_prefixed imports (String "@" (grammar_hash ++ String "." name))
        = Ok (String "@" (match friendly with
                          | EmptyString => name
                          | _ => (friendly ++ String "." name)%string
                          end)))
  /\ (Dict.get grammar_hash imports = None ->
      raises (Normalize.get_prefixed imports (grammar_hash ++ String "." name)) ParseError)
  /\ Normalize.get_prefixed imports grammar_hash = Ok grammar_hash.
Proof.
intros imports grammar_hash name Hh Hat. split; [|split].
- intros friendly Hf. split.
  + unfold Normalize.get_prefixed.
    rewrite (@NormalizeFacts.split_dot_at grammar_hash name Hh), Hat, Hf.
    destruct friendly; reflexivity.
  + unfold Normalize.get_prefixed.
    change (String "@" (grammar_hash ++ String "." name))
      with (String "@" grammar_hash ++ String "." name)%string.
    rewrite (@NormalizeFacts.split_dot_at (String "@" grammar_hash) name)
      by (unfold all_chars in *; simpl; exact Hh).
    cbn [Str.startswith Ascii.eqb Bool.eqb andb Str.drop]. rewrite Hf.
    destruct friendly; reflexivity.
- intros Hn. unfold Normalize.get_prefixed.
  rewrite (@NormalizeFacts.split_dot_at grammar_hash name Hh), Hat, Hn.
  eexists; split; reflexivity.
- unfold Normalize.get_prefixed.
  rewrite (@NormalizeFacts.split_dot_none grammar_hash Hh). reflexivity.
Qed.

Lemma hash_prefix_becomes_the_friendly_prefix_witness :
(forall friendly, Dict.get "e4cbff" [("e4cbff", ""); ("aaaaaa", "L")] = Some friendly ->
   Normalize.get_prefixed [("e4cbff", ""); ("aaaaaa", "L")] ("e4cbff" ++ String "." "root")
   = Ok (match friendly with
         | EmptyString => "root"
         | _ => (friendly ++ String "." "root")%string
         end)
   /\ Normalize.get_prefixed [("e4cbff", ""); ("aaaaaa", "L")]
        (String "@" ("e4cbff" ++ String "." "root"))
      = Ok (String "@" (match friendly with
                        | EmptyString => "root"
                        | _ => (friendly ++ String "." "root")%string
                        end)))
/\ (Dict.get "e4cbff" [("e4cbff", ""); ("aaaaaa", "L")] = None ->
    raises (Normalize.get_prefixed [("e4cbff", ""); ("aaaaaa", "L")]
              ("e4cbff" ++ String "." "root")) ParseError)
/\ Normalize.get_prefixed [("e4cbff", ""); ("aaaaaa", "L")] "e4cbff" = Ok "e4cbff".
Proof.
apply (hash_prefix_becomes_the_friendly_prefix [("e4cbff", ""); ("aaaaaa", "L")]
         "e4cbff" "root"); reflexivity.
Defined.

(** X19. A unique repeat that passes normalization has exactly one choice
    among its children, at the position stored in [sample_idx], and its
    other children are texts or binary data; so [generate] finds a symbol
    with a method [sample] at that position. *)
Theorem unique_repeat_has_one_choice_at_sample_idx :
forall (fuel : nat) (self : symbol) (tab tab' : Dict.t symbol)
       (c : list string) (a b : bound) (old : option nat),
  kind_ self = RepeatSample c a b old ->
  Normalize.normalize_symbol (S fuel) self tab = Ok tab' ->
  exists j child target,
    tab' = Dict.set (name self) (set_kind (RepeatSample c a b (Some j)) self) tab
    /\ nth_error c j = Some child
    /\ Dict.get child tab = Some target /\ is_choice (kind_ target) = true
    /\ forall j' child', nth_error c j' = Some child' -> j' <> j ->
         exists other, Dict.get child' tab = Some other
                       /\ is_text_or_bin (kind_ other) = true.
Proof.
intros fuel self tab tab' c a b old Hk H.
cbn [Normalize.normalize_symbol] in H. rewrite Hk in H.
destruct (Normalize.sample_scan self tab c 0 0 old) as [[n idx]| | |] eqn:E;
  cbn [bind] in H; try discriminate.
destruct (n =? 1) eqn:En; cbn [negb] in H; [|discriminate].
apply Nat.eqb_eq in En. subst n.
injection H as <-.
destruct (NormalizeFacts.sample_scan_spec self tab c 0 0 old E) as (_ & _ & Hone).
destruct (Hone eq_refl) as (j & child & -> & Hj & (target & Ht & Hc) & Hothers).
exists j, child, target. repeat split; assumption.
Qed.

Lemma unique_repeat_has_one_choice_at_sample_idx_witness :
exists j child target,
  Dict.set "r" (Symbol.Make "r" 1 None (RepeatSample ["t"; "c"] (BInt 1) (BInt 2) (Some 1)))
           unique_table
  = Dict.set (name unique_repeat)
      (set_kind (RepeatSample ["t"; "c"] (BInt 1) (BInt 2) (Some j)) unique_repeat)
      unique_table
  /\ nth_error ["t"; "c"] j = Some child
  /\ Dict.get child unique_table = Some target /\ is_choice (kind_ target) = true
  /\ forall j' child', nth_error ["t"; "c"] j' = Some child' -> j' <> j ->
       exists other, Dict.get child' unique_table = Some other
                     /\ is_text_or_bin (kind_ other) = true.
Proof.
apply (@unique_repeat_has_one_choice_at_sample_idx 0 unique_repeat unique_table
         (Dict.set "r" (Symbol.Make "r" 1 None
                          (RepeatSample ["t"; "c"] (BInt 1) (BInt 2) (Some 1)))
                   unique_table)
         ["t"; "c"] (BInt 1) (BInt 2) None); reflexivity.
Defined.

Module ChoiceFacts.
Import DictFacts.

Lemma set_set {V} (d : Dict.t V) k v v' : Dict.set k v (Dict.set k v' d) = Dict.set k v d.
Proof.
induction d as [|[k0 v0] d IH]; simpl.
- rewrite String.eqb_refl. reflexivity.
- destruct (String.eqb k0 k) eqn:E; simpl.
  + rewrite String.eqb_refl. reflexivity.
  + rewrite E, IH. reflexivity.
Qed.

Lemma nth_error_replace {A} (ws : list A) i x j :
i < List.length ws ->
nth_error (firstn i ws ++ x :: skipn (S i) ws) j
= if j =? i then Some x else nth_error ws j.
Proof.
revert i j. induction ws as [|w ws IH]; intros i j Hi; simpl in Hi; [lia|].
destruct i as [|i]; simpl.
- destruct j; reflexivity.
- destruct j as [|j]; [reflexivity|]. simpl. apply IH. lia.
Qed.

Lemma length_replace {A} (ws : list A) i x :
i < List.length ws -> List.length (firstn i ws ++ x :: skipn (S i) ws) = List.length ws.
Proof.
revert i. induction ws as [|w ws IH]; intros i Hi; simpl in Hi; [lia|].
destruct i as [|i]; simpl; [reflexivity|]. rewrite IH by lia. reflexivity.
Qed.

Lemma firstn_snoc {A} (l : list A) : forall i x,
nth_error l i = Some x -> firstn (S i) l = firstn i l ++ [x].
Proof.
induction l as [|a l IH]; intros i x H; [destruct i; discriminate|].
destruct i as [|i]; simpl in H.
- injection H as ->. reflexivity.
- change (firstn (S (S i)) (a :: l)) with (a :: firstn (S i) l).
  rewrite (IH i x H). reflexivity.
Qed.

Lemma resolved_snoc a : forall b tot x y,
List.length a = List.length b ->
resolved tot (a ++ [x]) (b ++ [y])
= match x, y with
  | WPlus, WNum q => (resolved tot a b + q)%float
  | _, _ => resolved tot a b
  end.
Proof.
induction a as [|w a IH]; intros b tot x y Hlen; destruct b as [|w' b]; try discriminate.
- destruct x, y; reflexivity.
- injection Hlen as Hlen. cbn [app resolved].
  destruct w, w'; apply IH; exact Hlen.
Qed.

Lemma firstn_replace {A} (ws : list A) i x :
i <= List.length ws ->
firstn i (firstn i ws ++ x :: skipn (S i) ws) = firstn i ws.
Proof.
intros Hi. rewrite firstn_app, firstn_firstn, length_firstn, Nat.min_id.
replace (i - Nat.min i (List.length ws)) with 0 by lia.
apply app_nil_r.
Qed.

Lemma has_plus_false ws :
(forall j, nth_error ws j <> Some WPlus) -> Normalize.has_plus ws = false.
Proof.
unfold Normalize.has_plus. induction ws as [|w ws IH]; intros H; simpl; [reflexivity|].
destruct w as [q|]; [|exfalso; apply (H 0); reflexivity].
apply IH. intros j. apply (H (S j)).
Qed.

End ChoiceFacts.

(** X28. A weight [+] imports another choice: when every alternative
    of weight [+] is a single name of another choice whose own weights are
    numbers, [ChoiceSymbol.normalize] replaces each [+] with the total of
    the choice it names and adds that total to its own, leaves the numeric
    weights and the alternatives as they are, and changes no other symbol;
    the total afterwards is the total before with the totals that came in
    added to it, from left to right, each addition rounded. *)
Theorem plus_weight_becomes_the_total_of_the_choice :
forall (fuel : nat) (key : string) (tab : Dict.t symbol) (self : symbol)
       (wc : WeightedChoice.t (list string)) (ct : list (option bool)),
  Dict.get key tab = Some self ->
  kind_ self = Choice wc ct ->
  List.length (values wc) = List.length (weights wc) ->
  (forall i value,
      nth_error (weights wc) i = Some WPlus -> nth_error (values wc) i = Some value ->
      exists v0 target twc tct,
        value = [v0] /\ v0 <> key /\ Dict.get v0 tab = Some target
        /\ kind_ target = Choice twc tct /\ Normalize.has_plus (weights twc) = false) ->
  exists wc',
    Normalize.choice_normalize (S fuel) key tab
    = Ok (Dict.set key (set_kind (Choice wc' ct) self) tab)
    /\ values wc' = values wc
    /\ Normalize.has_plus (weights wc') = false
    /\ (forall i q, nth_error (weights wc) i = Some (WNum q) ->
          nth_error (weights wc') i = Some (WNum q))
    /\ (forall i v0 target twc tct,
          nth_error (weights wc) i = Some WPlus -> nth_error (values wc) i = Some [v0] ->
          Dict.get v0 tab = Some target -> kind_ target = Choice twc tct ->
          nth_error (weights wc') i = Some (WNum (total twc)))
    /\ total wc' = resolved (total wc) (weights wc) (weights wc').
Proof.
intros fuel key tab self wc ct Hself Hkind Hlen Hplus.
pose (P := fun (i : nat) (w : WeightedChoice.t (list string)) =>
  values w = values wc
  /\ List.length (weights w) = List.length (weights wc)
  /\ (forall j, i <= j -> nth_error (weights w) j = nth_error (weights wc) j)
  /\ (forall j, j < i -> nth_error (weights w) j <> Some WPlus)
  /\ (forall j q, j < i -> nth_error (weights wc) j = Some (WNum q) ->
        nth_error (weights w) j = Some (WNum q))
  /\ (forall j v0 target twc tct, j < i ->
        nth_error (weights wc) j = Some WPlus -> nth_error (values wc) j = Some [v0] ->
        Dict.get v0 tab = Some target -> kind_ target = Choice twc tct ->
        nth_error (weights w) j = Some (WNum (total twc)))
  /\ total w = resolved (total wc) (firstn i (weights wc)) (firstn i (weights w))).
cbn [Normalize.choice_normalize]. rewrite Hself.
destruct self as [nm ln can k]. cbn [kind_] in Hkind. subst k.
match goal with |- exists wc', ?f ?n0 0 tab = _ /\ _ => remember f as each eqn:Eeach end.
assert (Hmain : forall n i w, n + i = List.length (values wc) -> P i w ->
          exists wc', each n i (Dict.set key (Symbol.Make nm ln can (Choice w ct)) tab)
                      = Ok (Dict.set key (Symbol.Make nm ln can (Choice wc' ct)) tab)
                      /\ P (List.length (values wc)) wc').
{ induction n as [|n IH]; intros i w Hn HP.
  - exists w. simpl in Hn. subst i. split; [|exact HP]. rewrite Eeach. reflexivity.
  - destruct HP as (Hv & Hl & Hge & Hnp & Hnum & Hres & Htot).
    assert (Hi : i < List.length (values wc)) by lia.
    destruct (nth_error (values wc) i) as [value|] eqn:Ev;
      [|apply nth_error_None in Ev; lia].
    destruct (nth_error (weights wc) i) as [wi|] eqn:Ew;
      [|apply nth_error_None in Ew; lia].
    rewrite Eeach. cbn [bind]. rewrite <- Eeach.
    unfold Dict.lookup. rewrite DictFacts.get_set_eq. cbn [bind kind_].
    rewrite Hv, Ev, (Hge i (Nat.le_refl i)), Ew.
    destruct wi as [q|].
    + apply IH; [lia|]. unfold P. repeat split.
      * exact Hv.
      * exact Hl.
      * intros j Hj. apply Hge. lia.
      * intros j Hj. destruct (Nat.eq_dec j i) as [->|Hne].
        -- rewrite (Hge i (Nat.le_refl i)), Ew. discriminate.
        -- apply Hnp. lia.
      * intros j q0 Hj Hq. destruct (Nat.eq_dec j i) as [->|Hne].
        -- rewrite (Hge i (Nat.le_refl i)). exact Hq.
        -- apply Hnum; [lia|exact Hq].
      * intros j v0 target twc tct Hj Hw Hval Hg Hk.
        destruct (Nat.eq_dec j i) as [->|Hne]; [congruence|].
        eapply Hres; try eassumption. lia.
      * rewrite (ChoiceFacts.firstn_snoc _ _ Ew).
        rewrite (@ChoiceFacts.firstn_snoc _ (weights w) i (WNum q))
          by (rewrite (Hge i (Nat.le_refl i)); exact Ew).
        rewrite ChoiceFacts.resolved_snoc by (rewrite !length_firstn; lia).
        exact Htot.
    + destruct (Hplus i value Ew Ev) as (v0 & target & twc & tct & -> & Hne & Hget & Htk & Hnp2).
      rewrite (DictFacts.get_set_neq _ _ Hne), Hget. cbn [bind]. rewrite Htk, Hnp2.
      cbn [bind]. rewrite (DictFacts.get_set_neq _ _ Hne), Hget. cbn [bind].
      rewrite DictFacts.get_set_eq. cbn [bind kind_]. rewrite Htk.
      rewrite ChoiceFacts.set_set. unfold set_kind. cbn [name line_no can_terminate].
      assert (Hiw : i < List.length (weights w)) by lia.
      apply IH; [lia|]. unfold P. cbn [values weights total]. repeat split.
      * exact Hv.
      * rewrite ChoiceFacts.length_replace by exact Hiw. exact Hl.
      * intros j Hj. rewrite ChoiceFacts.nth_error_replace by exact Hiw.
        destruct (Nat.eqb_spec j i); [lia|]. apply Hge. lia.
      * intros j Hj. rewrite ChoiceFacts.nth_error_replace by exact Hiw.
        destruct (Nat.eqb_spec j i); [discriminate|]. apply Hnp. lia.
      * intros j q0 Hj Hq. rewrite ChoiceFacts.nth_error_replace by exact Hiw.
        destruct (Nat.eqb_spec j i) as [->|Hji]; [congruence|]. apply Hnum; [lia|exact Hq].
      * intros j v1 target1 twc1 tct1 Hj Hw Hval Hg Hk.
        rewrite ChoiceFacts.nth_error_replace by exact Hiw.
        destruct (Nat.eqb_spec j i) as [->|Hji].
        -- rewrite Ev in Hval. injection Hval as <-. rewrite Hget in Hg. injection Hg as <-.
           rewrite Htk in Hk. injection Hk as <- _. reflexivity.
        -- eapply Hres; try eassumption. lia.
      * rewrite (ChoiceFacts.firstn_snoc _ _ Ew).
        rewrite (@ChoiceFacts.firstn_snoc _ _ i (WNum (total twc)))
          by (rewrite ChoiceFacts.nth_error_replace by exact Hiw;
              rewrite Nat.eqb_refl; reflexivity).
        rewrite ChoiceFacts.firstn_replace by lia.
        rewrite ChoiceFacts.resolved_snoc by (rewrite !length_firstn; lia).
        rewrite <- Htot. reflexivity. }
destruct (Hmain (List.length (values wc)) 0 wc) as (wc' & Hrun & HP).
{ lia. }
{ unfold P. repeat split; try reflexivity; intros; lia. }
exists wc'.
rewrite <- (DictFacts.set_same _ _ Hself) at 1.
rewrite Hrun. destruct HP as (Hv & Hl & Hge & Hnp & Hnum & Hres & Htot).
split; [reflexivity|]. split; [exact Hv|]. split.
- apply ChoiceFacts.has_plus_false. intros j.
  destruct (Nat.lt_ge_cases j (List.length (values wc))) as [Hj|Hj].
  + apply Hnp. exact Hj.
  + assert (Hn : nth_error (weights wc') j = None) by (apply nth_error_None; lia).
    rewrite Hn. discriminate.
- split; [|split].
  + intros i q Hq. apply Hnum; [|exact Hq].
    rewrite Hlen. apply nth_error_Some. rewrite Hq. discriminate.
  + intros i v0 target twc tct Hw Hval Hg Hk. eapply Hres; try eassumption.
    apply nth_error_Some. rewrite Hval. discriminate.
  + rewrite Htot. f_equal.
    * rewrite Hlen. apply firstn_all.
    * rewrite Hlen, <- Hl. apply firstn_all.
Qed.

Lemma plus_weight_becomes_the_total_of_the_choice_witness :
exists wc',
  Normalize.choice_normalize (S 0) "root" plus_table
  = Ok (Dict.set "root" (set_kind (Choice wc' [None; None]) plus_root) plus_table)
  /\ values wc' = values plus_choice
  /\ Normalize.has_plus (weights wc') = false
  /\ (forall i q, nth_error (weights plus_choice) i = Some (WNum q) ->
        nth_error (weights wc') i = Some (WNum q))
  /\ (forall i v0 target twc tct,
        nth_error (weights plus_choice) i = Some WPlus ->
        nth_error (values plus_choice) i = Some [v0] ->
        Dict.get v0 plus_table = Some target -> kind_ target = Choice twc tct ->
        nth_error (weights wc') i = Some (WNum (total twc)))
  /\ total wc' = resolved (total plus_choice) (weights plus_choice) (weights wc').
Proof.
apply (@plus_weight_becomes_the_total_of_the_choice 0 "root" plus_table plus_root
         plus_choice [None; None]); try reflexivity.
intros i value Hw Hv. destruct i as [|[|i]]; simpl in Hw, Hv; try discriminate.
- injection Hv as <-. eexists "c", _, loop_or_stop, [None; None].
  repeat split; try reflexivity; discriminate.
- destruct i; discriminate.
Defined.

(** ** The sanity check: what an accepted grammar is *)

Module SanityMore.
Import Sanity DictFacts.

Lemma check_symbols_spec g syms : forall used used',
check_symbols g syms used = Ok used' ->
(forall s, In s syms ->
   is_abstract (kind_ s) = false
   /\ forall f args, kind_ s = Func f args -> Dict.mem f (funcs g) = true)
/\ (forall f, In f used' ->
      In f used \/ exists s args, In s syms /\ kind_ s = Func f args).
Proof.
induction syms as [|sym syms IH]; intros used used' H; cbn [check_symbols] in H.
- injection H as <-. split; [intros s []|auto].
- destruct (kind_ sym) eqn:Ek; try discriminate H;
    try (apply IH in H as [Ha Hb]; split;
         [intros s [<-|Hs]; [rewrite Ek; split; [reflexivity|discriminate]|apply Ha; exact Hs]
         |intros f Hf; destruct (Hb f Hf) as [Hu|(s & args & Hs & Hk)];
            [left; exact Hu|right; exists s, args; split; [right; exact Hs|exact Hk]]]).
  destruct (Dict.mem fname (funcs g)) eqn:Em; cbn [negb] in H; [|discriminate].
  apply IH in H as [Ha Hb]. split.
  + intros s [<-|Hs]; [|apply Ha; exact Hs]. rewrite Ek. split; [reflexivity|].
    intros f a0 Hf. injection Hf as <- _. exact Em.
  + intros f Hf. destruct (Hb f Hf) as [Hu|(s & a0 & Hs & Hk)].
    * unfold NameSet.add in Hu. destruct (NameSet.mem fname used); [left; exact Hu|].
      apply in_app_or in Hu as [Hu|[<-|[]]]; [left; exact Hu|].
      right. exists sym, args. split; [left; reflexivity|exact Ek].
    * right. exists s, a0. split; [right; exact Hs|exact Hk].
Qed.

Lemma In_add x k s : In x (NameSet.add k s) -> x = k \/ In x s.
Proof.
unfold NameSet.add. destruct (NameSet.mem k s); [auto|].
intros H. apply in_app_or in H as [H|[<-|[]]]; auto.
Qed.

Lemma In_union b : forall a x, In x (NameSet.union a b) -> In x a \/ In x b.
Proof.
unfold NameSet.union. induction b as [|k b IH]; intros a x H; simpl in H; [auto|].
apply IH in H as [H|H]; [|right; right; exact H].
apply In_add in H as [->|H]; [right; left; reflexivity|left; exact H].
Qed.

Lemma In_diff a b x : In x (NameSet.diff a b) -> In x a.
Proof. unfold NameSet.diff. intros H. apply filter_In in H. apply H. Qed.

(** Every name the reachability loop collects is reached from the names
    it started with. *)
Lemma reach_spec tab (R : string -> Prop) :
(forall k s c, R k -> Dict.get k tab = Some s -> In c (children s) -> R c) ->
forall fuel to_check checked used used',
reach fuel tab to_check checked used = Ok used' ->
(forall x, In x to_check -> R x) -> (forall x, In x used -> R x) ->
forall x, In x used' -> R x.
Proof.
intros Hstep. induction fuel as [|fuel IH]; intros to_check checked used used' H Ht Hu x Hx.
- destruct to_check; [|discriminate]. injection H as <-. apply Hu. exact Hx.
- destruct to_check as [|k to_check]; cbn [reach] in H.
  + injection H as <-. apply Hu. exact Hx.
  + unfold Dict.lookup in H. destruct (Dict.get k tab) as [sym|] eqn:Ek; [|discriminate].
    cbn [bind] in H.
    assert (Hkids : forall c, In c (children sym) -> R c).
    { intros c Hc. eapply Hstep; [apply Ht; left; reflexivity|exact Ek|exact Hc]. }
    eapply IH; [exact H| | |exact Hx].
    * intros y Hy. apply In_union in Hy as [Hy|Hy]; [apply Ht; right; exact Hy|].
      apply Hkids. eapply In_diff. exact Hy.
    * intros y Hy. apply In_union in Hy as [Hy|Hy]; [apply Hu; exact Hy|apply Hkids; exact Hy].
Qed.

Lemma same_set_In a b : same_set a b = true -> forall k, In k a -> In k b.
Proof.
unfold same_set. intros H k Hk. apply andb_prop in H as [H _].
rewrite forallb_forall in H. apply NameSet_mem_In. apply H. exact Hk.
Qed.

End SanityMore.

(** X20. A grammar that passes [sanity_check] is complete: it has a symbol
    [root], no symbol is a forward declaration left undefined, every
    function a symbol calls is registered, and every registered function
    is one of the three built-in ones or is called by some symbol. *)
Theorem checked_grammar_is_complete :
forall (g g' : grammar),
  Sanity.sanity_check g = Ok g' ->
  Dict.mem "root" (symtab g) = true
  /\ (forall s, In s (Dict.values (symtab g)) -> is_abstract (kind_ s) = false)
  /\ (forall s f args, In s (Dict.values (symtab g)) -> kind_ s = Func f args ->
        Dict.mem f (funcs g) = true)
  /\ (forall f, In f (Dict.keys (funcs g)) ->
        In f ["rndflt"; "rndint"; "rndpow2"]
        \/ exists s args, In s (Dict.values (symtab g)) /\ kind_ s = Func f args).
Proof.
intros g g' H. unfold Sanity.sanity_check in H.
destruct (Sanity.check_symbols g (Dict.values (symtab g)) ["rndflt"; "rndint"; "rndpow2"])
  as [used| | |] eqn:Ec; cbn [bind] in H; try discriminate.
destruct (Sanity.same_set (Dict.keys (funcs g)) used) eqn:Es; cbn [negb] in H;
  [|discriminate].
destruct (Dict.mem "root" (symtab g)) eqn:Er; cbn [negb] in H; [|discriminate].
destruct (SanityMore.check_symbols_spec _ _ _ Ec) as [Ha Hb].
split; [reflexivity|]. split; [|split].
- intros s Hs. apply (Ha s Hs).
- intros s f args Hs Hk. eapply (Ha s Hs). exact Hk.
- intros f Hf. apply Hb. eapply SanityMore.same_set_In; eassumption.
Qed.

Lemma checked_grammar_is_complete_witness :
Dict.mem "root" (symtab checked_example) = true
/\ (forall s, In s (Dict.values (symtab checked_example)) -> is_abstract (kind_ s) = false)
/\ (forall s f args, In s (Dict.values (symtab checked_example)) -> kind_ s = Func f args ->
      Dict.mem f (funcs checked_example) = true)
/\ (forall f, In f (Dict.keys (funcs checked_example)) ->
      In f ["rndflt"; "rndint"; "rndpow2"]
      \/ exists s args, In s (Dict.values (symtab checked_example))
                        /\ kind_ s = Func f args).
Proof.
eapply (@checked_grammar_is_complete checked_example).
vm_compute. reflexivity.
Defined.

(** X21. A grammar that passes [sanity_check] has no dead symbol: every
    name of the symbol table is reached from [root] by following
    children, or is one that the check leaves out, a name with a dot or
    an opening bracket in it (an imported or an implicit symbol). *)
Theorem checked_grammar_has_no_dead_symbol :
forall (g g' : grammar) (k : string),
  Sanity.sanity_check g = Ok g' ->
  In k (Dict.keys (symtab g)) ->
  Sanity.ignored k = true \/ reachable (symtab g) "root" k.
Proof.
intros g g' k H Hk. unfold Sanity.sanity_check in H.
destruct (Sanity.check_symbols g (Dict.values (symtab g)) ["rndflt"; "rndint"; "rndpow2"])
  as [used| | |]; cbn [bind] in H; try discriminate.
destruct (negb (Sanity.same_set (Dict.keys (funcs g)) used)); [discriminate|].
destruct (negb (Dict.mem "root" (symtab g))); [discriminate|].
destruct (Sanity.reach (S (List.length (symtab g))) (symtab g) ["root"] [] ["root"])
  as [syms_used| | |] eqn:Er; cbn [bind] in H; try discriminate.
match type of H with match ?u with _ => _ end = _ => destruct u eqn:Eu end;
  [|discriminate].
assert (Hreach : forall x, In x syms_used -> reachable (symtab g) "root" x).
{ eapply (@SanityMore.reach_spec (symtab g) (reachable (symtab g) "root"));
    [|exact Er| |].
  - intros a s c Ha Hs Hc. eapply reach_child; eassumption.
  - intros x [<-|[]]. apply reach_start.
  - intros x [<-|[]]. apply reach_start. }
destruct (NameSet.mem k syms_used) eqn:Em.
- right. apply Hreach. apply DictFacts.NameSet_mem_In. exact Em.
- left.
  pose proof (proj1 (ParseFacts.diff_nil _ _) Eu k) as Hi.
  assert (Hin : In k (NameSet.diff (Dict.keys (symtab g)) syms_used)).
  { unfold NameSet.diff. apply filter_In. split; [exact Hk|]. rewrite Em. reflexivity. }
  apply Hi in Hin. apply DictFacts.NameSet_mem_In in Hin.
  apply filter_In in Hin. apply Hin.
Qed.

Lemma checked_grammar_has_no_dead_symbol_witness :
Sanity.ignored "num" = true \/ reachable (symtab checked_example) "root" "num".
Proof.
eapply (@checked_grammar_has_no_dead_symbol checked_example _ "num").
- vm_compute. reflexivity.
- vm_compute. auto.
Defined.

Module SanityPaths.
Import Sanity DictFacts.

Lemma any_terminate_true tab l :
any_terminate tab l = Ok true -> existsb (marked tab) l = true.
Proof.
induction l as [|c l IH]; simpl; [discriminate|].
unfold Dict.lookup. unfold marked at 1. destruct (Dict.get c tab) as [s|]; [|discriminate].
cbn [bind]. destruct (is_true (can_terminate s)); [reflexivity|].
intros H. exact (IH H).
Qed.

Lemma check_paths_Ok tab l :
check_paths tab l = Ok tt -> forall s, In s l -> has_path tab s = true.
Proof.
induction l as [|s0 l IH]; intros H s Hs; [destruct Hs|].
cbn [check_paths] in H. unfold has_path.
destruct (is_true (can_terminate s0)) eqn:Et; cbn [bind negb] in H.
- destruct Hs as [<-|Hs]; [rewrite Et; reflexivity|]. apply (IH H s Hs).
- destruct (any_terminate tab (children s0)) as [[|]| | |] eqn:Ea; cbn [bind negb] in H;
    try discriminate.
  destruct Hs as [<-|Hs]; [|apply (IH H s Hs)].
  rewrite Et, (any_terminate_true _ _ Ea). reflexivity.
Qed.

Lemma mark_pass_keys keys : forall tab d tab' d',
mark_pass keys tab d = Ok (tab', d') -> Dict.keys tab' = Dict.keys tab.
Proof.
induction keys as [|k keys IH]; intros tab d tab' d' H; cbn [mark_pass] in H.
- injection H as <- _. reflexivity.
- unfold Dict.lookup in H. destruct (Dict.get k tab) as [sym|] eqn:Ek; [|discriminate].
  cbn [bind] in H. destruct (can_terminate sym).
  + eapply IH. exact H.
  + destruct (update_can_terminate tab sym) as [[sym' changed]| | |]; cbn [bind] in H;
      try discriminate.
    apply IH in H. rewrite H. eapply keys_set. exact Ek.
Qed.

Lemma mark_loop_keys fuel : forall tab tab',
mark_loop fuel tab = Ok tab' -> Dict.keys tab' = Dict.keys tab.
Proof.
induction fuel as [|fuel IH]; intros tab tab' H; [discriminate|].
cbn [mark_loop] in H.
destruct (mark_pass (Dict.keys tab) tab false) as [[tab1 do_over]| | |] eqn:Ep;
  cbn [bind] in H; try discriminate.
apply mark_pass_keys in Ep. destruct do_over.
- apply IH in H. congruence.
- injection H as <-. exact Ep.
Qed.

Lemma mem_keys {V} (d d' : Dict.t V) k :
Dict.keys d' = Dict.keys d -> Dict.mem k d = true -> Dict.mem k d' = true.
Proof.
intros Hk Hm. apply mem_get in Hm as [v Hv]. apply get_In in Hv as [_ Hin].
rewrite <- Hk in Hin. apply In_keys_get in Hin. apply mem_get. exact Hin.
Qed.

(** What [sanity_check] hands back. *)
Lemma sanity_check_Ok g g' :
sanity_check g = Ok g' ->
Dict.mem "root" (symtab g') = true
/\ forall s, In s (Dict.values (symtab g')) -> has_path (symtab g') s = true.
Proof.
intros H. unfold sanity_check in H.
destruct (check_symbols g (Dict.values (symtab g)) ["rndflt"; "rndint"; "rndpow2"])
  as [used| | |]; cbn [bind] in H; try discriminate.
destruct (negb (same_set (Dict.keys (funcs g)) used)); [discriminate|].
destruct (Dict.mem "root" (symtab g)) eqn:Er; cbn [negb] in H; [|discriminate].
destruct (reach (S (List.length (symtab g))) (symtab g) ["root"] [] ["root"])
  as [syms_used| | |]; cbn [bind] in H; try discriminate.
match type of H with match ?u with _ => _ end = _ => destruct u end; [|discriminate].
destruct (mark_loop (S (List.length (symtab g))) (symtab g)) as [tab| | |] eqn:Em;
  cbn [bind] in H; try discriminate.
destruct (check_paths tab (Dict.values tab)) as [[]| | |] eqn:Ec; cbn [bind] in H;
  try discriminate.
injection H as <-. cbn [symtab set_symtab]. split.
- eapply mem_keys; [eapply mark_loop_keys; exact Em|exact Er].
- apply check_paths_Ok. exact Ec.
Qed.

End SanityPaths.

(** X26. A grammar that [Grammar.__init__] returns can be generated from:
    its symbol table holds [root], and every symbol in it is marked as
    able to terminate or has a child that is. *)
Theorem constructed_grammar_has_a_root_and_paths_to_termination :
forall (h : host) (text : string) (limit : option Z) (kwargs : Dict.t callable)
       (g : grammar),
  Construct.init h text limit kwargs = Ok g ->
  Dict.mem "root" (symtab g) = true
  /\ forall s, In s (Dict.values (symtab g)) -> Sanity.has_path (symtab g) s = true.
Proof.
intros h text limit kwargs g H. unfold Construct.init in H.
match type of H with (if ?b then _ else _) = _ => destruct b end; [discriminate|].
inv_bind H.
match goal with E : Normalize.normalize _ _ = Ok _ |- _ => clear E end.
eapply SanityPaths.sanity_check_Ok. exact H.
Qed.

Lemma constructed_grammar_has_a_root_and_paths_to_termination_witness :
exists g,
  Construct.init two_refs_host two_refs_text (Some DEFAULT_LIMIT) [] = Ok g
  /\ Dict.mem "root" (symtab g) = true
  /\ forall s, In s (Dict.values (symtab g)) -> Sanity.has_path (symtab g) s = true.
Proof.
eexists. split; [vm_compute; reflexivity|].
eapply (@constructed_grammar_has_a_root_and_paths_to_termination
          two_refs_host two_refs_text (Some DEFAULT_LIMIT) []).
vm_compute. reflexivity.
Defined.

(** X30. The empty grammar is rejected: whatever the host, the limit
    and the keyword arguments, [Grammar.__init__] on an empty text raises
    an [IntegrityError], for a keyword argument named [import], for one
    that no symbol can use, or else for the missing symbol [root]. *)
Theorem empty_grammar_is_an_integrity_error :
forall (h : host) (lim : option Z) (kwargs : Dict.t callable),
  raises (Construct.init h EmptyString lim kwargs) IntegrityError.
Proof.
intros h lim kwargs. unfold Construct.init.
match goal with |- raises (if ?b then _ else _) _ => destruct b end;
  [eexists; split; reflexivity|].
cbn [GrammarParse.parse Dict.mem Dict.get Str.lines Str.lines_acc bind].
unfold ParseState.sanity_check, ParseState.init.
cbn [ParseState.imports ParseState.imports_used Dict.keys map NameSet.diff filter bind
     ParseState.grmr].
unfold Normalize.normalize.
cbn [symtab tracked Dict.keys map Normalize.rename Normalize.mapM bind Normalize.pass
     NameSet.union fold_left List.length limit funcs].
unfold Sanity.sanity_check.
cbn [symtab Dict.values map Sanity.check_symbols bind funcs].
match goal with |- raises (if ?b then _ else _) _ => destruct b end;
  eexists; split; reflexivity.
Qed.

(** ** Generation: the value returned *)

Lemma join_str_all l :
(forall x, In x l -> exists s, x = VStr s) -> exists s, join_str l = Ok s.
Proof.
induction l as [|v l IH]; intros H; simpl.
- eexists. reflexivity.
- destruct (H v (or_introl eq_refl)) as [s ->].
  destruct IH as [t Ht]; [intros x Hx; apply H; right; exact Hx|].
  rewrite Ht. simpl. eexists. reflexivity.
Qed.

Lemma join_bytes_all l :
(forall x, In x l -> exists b, x = VBytes b) -> exists b, join_bytes l = Ok b.
Proof.
induction l as [|v l IH]; intros H; simpl.
- eexists. reflexivity.
- destruct (H v (or_introl eq_refl)) as [b ->].
  destruct IH as [t Ht]; [intros x Hx; apply H; right; exact Hx|].
  rewrite Ht. simpl. eexists. reflexivity.
Qed.

Lemma join_output_homogeneous l :
homogeneous l ->
exists v, join_output l = Ok v
          /\ match l with
             | [] => v = VStr ""
             | first :: _ => same_type v first = true
             end.
Proof.
intros Hh. destruct l as [|[s|b] l].
- exists (VStr ""). split; reflexivity.
- destruct (@join_str_all (VStr s :: l)) as [t Ht].
  { intros x Hx. specialize (Hh (VStr s) x (or_introl eq_refl) Hx).
    destruct x; [eexists; reflexivity|discriminate]. }
  exists (VStr t). unfold join_output. rewrite Ht. split; reflexivity.
- destruct (@join_bytes_all (VBytes b :: l)) as [t Ht].
  { intros x Hx. specialize (Hh (VBytes b) x (or_introl eq_refl) Hx).
    destruct x; [discriminate|eexists; reflexivity]. }
  exists (VBytes t). unfold join_output. cbn [join_str raise]. rewrite Ht.
  split; reflexivity.
Qed.

(** X22. The join that ends [Grammar.generate] does not fail: when the
    loop over the stack has ended, every value of the buffer has the type
    of the first one, so the result is the [str] that joins them, or the
    [bytes] when the first value is one, and the empty [str] when nothing
    was generated. *)
Theorem final_join_returns :
forall (g : grammar) (fuel : nat) (st st' : GenState.t) (r r' : rng),
  homogeneous (GenState.output st) ->
  Generate.loop g fuel st [] r = Ok (st', r') ->
  exists v,
    Generate.generate_state g (S fuel) st r = Ok (v, st', r')
    /\ match GenState.output st' with
       | [] => v = VStr ""
       | first :: _ => same_type v first = true
       end.
Proof.
intros g fuel st st' r r' Hh H. cbn [Generate.generate_state]. rewrite H. cbn [bind].
destruct (@join_output_homogeneous (GenState.output st')) as (v & Hv & Ht).
{ eapply loop_homogeneous; eassumption. }
exists v. rewrite Hv. split; [reflexivity|exact Ht].
Qed.

Lemma final_join_returns_witness :
exists v,
  Generate.generate_state text_grammar (S 4) (GenState.Make [ISym "t"] [] [] 0) zero_tape
  = Ok (v, GenState.Make [] [] [VStr "a"] 1, zero_tape)
  /\ match GenState.output (GenState.Make [] [] [VStr "a"] 1) with
     | [] => v = VStr ""
     | first :: _ => same_type v first = true
     end.
Proof.
apply (@final_join_returns text_grammar 4 (GenState.Make [ISym "t"] [] [] 0)).
- intros a b [].
- vm_compute. reflexivity.
Defined.

Lemma append_takes_str st v :
takes_str (GenState.output st) ->
GenState.append st (VStr v)
= Ok (GenState.Make (GenState.symstack st) (GenState.instances st)
        (GenState.output st ++ [VStr v]) (GenState.length st + String.length v)).
Proof.
unfold GenState.append, takes_str. destruct (GenState.output st) as [|[s|b] l];
  [reflexivity|reflexivity|contradiction].
Qed.

Lemma takes_str_app l v : takes_str l -> takes_str (l ++ [VStr v]).
Proof. destruct l as [|[s|b] l]; simpl; auto. Qed.

(** The loop of [generate] over text symbols on top of the stack: two
    turns for each, one for the symbol and one for its [unwind] mark. *)
Lemma loop_texts g names : forall values stack insts out len_ tr r fuel,
Forall2 (text_symbol g) names values ->
takes_str out ->
Generate.loop g (2 * List.length names + fuel)
  (GenState.Make (map ISym names ++ stack) insts out len_) tr r
= Generate.loop g fuel
    (GenState.Make stack insts (out ++ map VStr values)
                   (len_ + String.length (fold_right String.append "" values))) tr r.
Proof.
induction names as [|n names IH]; intros values stack insts out len_ tr r fuel HF Ht.
- inversion HF; subst. simpl. rewrite app_nil_r, Nat.add_0_r. reflexivity.
- inversion HF as [|? v ? values' (s & Hs & Hk & Hnt) HF']; subst.
  replace (2 * List.length (n :: names) + fuel)
    with (S (S (2 * List.length names + fuel))) by (simpl; lia).
  remember (2 * List.length names + fuel) as X eqn:EX.
  cbn [map app Generate.loop]. unfold GenState.set_symstack.
  cbn [GenState.symstack GenState.instances GenState.output GenState.length].
  rewrite Hnt. cbn [GenState.symstack GenState.instances GenState.output GenState.length].
  rewrite (lookup_Some _ _ Hs). cbn [bind Generate.symbol_generate]. rewrite Hk.
  unfold TextSymbol.generate. rewrite append_takes_str by exact Ht.
  cbn [bind GenState.symstack GenState.instances GenState.output GenState.length].
  subst X.
  rewrite (IH values' stack insts (out ++ [VStr v]) (len_ + String.length v) tr r fuel HF')
    by (apply takes_str_app; exact Ht).
  rewrite <- app_assoc. cbn [app fold_right].
  rewrite string_length_app, Nat.add_assoc. reflexivity.
Qed.

Lemma join_str_texts values :
join_str (map VStr values) = Ok (fold_right String.append "" values).
Proof.
induction values as [|v values IH]; simpl; [reflexivity|]. rewrite IH. reflexivity.
Qed.

(** X23. A concatenation generates its children in the order they are
    written: from a symbol that is the concatenation of text symbols,
    [generate] returns their values joined in that order, and draws
    nothing from the random source. *)
Theorem concat_of_texts_generates_them_in_order :
forall (g : grammar) (fuel : nat) (start : string) (s : symbol)
       (names values : list string) (r : rng),
  Dict.get start (symtab g) = Some s ->
  kind_ s = Concat names ->
  NameSet.mem start (tracked g) = false ->
  Forall2 (text_symbol g) names values ->
  exists st',
    Generate.generate g (2 * List.length names + 4 + fuel) start r
    = Ok (VStr (fold_right String.append "" values), st', r)
    /\ GenState.output st' = map VStr values.
Proof.
intros g fuel start s names values r Hs Hk Hnt HF.
unfold Generate.generate.
replace (2 * List.length names + 4 + fuel)
  with (S (S (S (2 * List.length names + S fuel)))) by lia.
remember (S (2 * List.length names + S fuel)) as Y eqn:EY.
cbn [Generate.generate_state Generate.loop]. unfold GenState.set_symstack.
cbn [GenState.symstack GenState.instances GenState.output GenState.length].
rewrite Hnt. cbn [GenState.symstack GenState.instances GenState.output GenState.length].
rewrite (lookup_Some _ _ Hs). cbn [bind].
match goal with |- context [Generate.symbol_generate g Y ?s0 ?st0 ?r0] =>
  replace (Generate.symbol_generate g Y s0 st0 r0)
    with (Generate.symbol_generate g (S (2 * List.length names + S fuel)) s0 st0 r0)
    by (rewrite EY; reflexivity)
end.
cbn [Generate.symbol_generate]. rewrite Hk.
unfold ConcatSymbol.generate, GenState.push, GenState.set_symstack.
cbn [bind GenState.symstack GenState.instances GenState.output GenState.length].
replace Y with (2 * List.length names + S (S fuel)) by lia.
rewrite (@loop_texts g names values [IUnwind start]
           (map (fun s0 => (s0, [])) (tracked g)) [] 0 [] r (S (S fuel)) HF I).
cbn [Generate.loop]. unfold GenState.set_symstack.
cbn [bind app GenState.symstack GenState.instances GenState.output GenState.length].
unfold join_output. rewrite join_str_texts.
eexists. split; reflexivity.
Qed.

Lemma concat_of_texts_generates_them_in_order_witness :
exists st',
  Generate.generate ab_grammar (2 * List.length ["x"; "y"] + 4 + 0) "root" counting_tape
  = Ok (VStr (fold_right String.append "" ["a"; "b"]), st', counting_tape)
  /\ GenState.output st' = map VStr ["a"; "b"].
Proof.
apply (@concat_of_texts_generates_them_in_order ab_grammar 0 "root"
         (Symbol.Make "root" 1 None (Concat ["x"; "y"])) ["x"; "y"] ["a"; "b"]
         counting_tape); try reflexivity.
repeat constructor; eexists; (split; [reflexivity|split; reflexivity]).
Defined.

(** X24. The numeric arguments of a function are handed to the callable
    as numbers, in the order they are written, and generate nothing; the
    value the callable returns is appended to the output. *)
Theorem numeric_arguments_are_passed_in_order :
forall (g : grammar) (nested : GenState.t -> rng -> result (value * GenState.t * rng))
       (fname : string) (numbers : list number) (acc : list argval)
       (st : GenState.t) (r : rng),
  FuncSymbol.generate g nested fname (map ANum numbers) acc st r
  = (f <- Dict.lookup fname (funcs g) ;;
     '(v, r') <- call f (acc ++ map AVNum numbers) r ;;
     st' <- GenState.append st v ;;
     Ok (st', r')).
Proof.
intros g nested fname numbers. induction numbers as [|n numbers IH]; intros acc st r.
- cbn [map FuncSymbol.generate]. rewrite app_nil_r. reflexivity.
- cbn [map FuncSymbol.generate]. rewrite IH, <- app_assoc. reflexivity.
Qed.

(** X27. A text symbol that a reference tracks is recorded when it is
    generated: three turns of the loop of [Grammar.generate] append its
    value to the output and add that value as the newest instance of its
    name, which a later reference can replay. *)
Theorem tracked_text_is_recorded_as_an_instance :
forall (g : grammar) (fuel : nat) (this : string) (s : symbol) (v : string)
       (l : list string) (rest : list item) (insts : Dict.t (list string))
       (out : list value) (len_ : nat) (tr : list (string * nat)) (r : rng),
  Dict.get this (symtab g) = Some s ->
  kind_ s = Text v ->
  NameSet.mem this (tracked g) = true ->
  Dict.get this insts = Some l ->
  takes_str out ->
  Generate.loop g (3 + fuel) (GenState.Make (ISym this :: rest) insts out len_) tr r
  = Generate.loop g fuel
      (GenState.Make rest (Dict.set this (l ++ [v]) insts) (out ++ [VStr v])
                     (len_ + String.length v)) tr r.
Proof.
intros g fuel this s v l rest insts out len_ tr r Hs Hk Ht Hl Hout.
change (3 + fuel) with (S (S (S fuel))).
remember (S fuel) as Y eqn:EY.
cbn [Generate.loop]. unfold GenState.set_symstack.
cbn [GenState.symstack GenState.instances GenState.output GenState.length].
rewrite Ht. cbn [GenState.symstack GenState.instances GenState.output GenState.length].
rewrite (lookup_Some _ _ Hs). cbn [bind Generate.symbol_generate]. rewrite Hk.
unfold TextSymbol.generate. rewrite append_takes_str by exact Hout.
cbn [bind GenState.symstack GenState.instances GenState.output GenState.length].
subst Y. cbn [Generate.loop]. unfold GenState.set_symstack, GenState.set_instances.
cbn [GenState.symstack GenState.instances GenState.output GenState.length].
rewrite String.eqb_refl. cbn [negb].
rewrite skipn_app, skipn_all, Nat.sub_diag. cbn [skipn app join_str bind].
rewrite (lookup_Some _ _ Hl). cbn [bind].
rewrite TextFacts.string_app_nil. reflexivity.
Qed.

Lemma tracked_text_is_recorded_as_an_instance_witness :
Generate.loop ref_grammar (3 + 1) (GenState.Make [ISym "A"] [("A", [])] [] 0) [] zero_tape
= Generate.loop ref_grammar 1
    (GenState.Make [] (Dict.set "A" ([] ++ ["x"]) [("A", [])]) ([] ++ [VStr "x"])
                   (0 + String.length "x")) [] zero_tape.
Proof.
apply (@tracked_text_is_recorded_as_an_instance ref_grammar 1 "A" ref_target "x" []
         [] [("A", [])] [] 0 [] zero_tape); first [reflexivity|exact I].
Defined.
